(** * Chat-Export-Viewer: parser, media matcher, validation and storage

    A shallow embedding of the TypeScript services of the viewer
    ([services/parser.ts], [services/mediaMatcher.ts],
    [services/validation.ts], [services/storage.ts]) together with the
    properties the design document states about them.

    Conventions of the embedding:
    - JavaScript strings are [string]s over 8-bit characters; the model
      covers ASCII text (white space is TAB, LF, VT, FF, CR and SPACE,
      case mapping acts on the letters A-Z and a-z).
    - JavaScript numbers that hold integers (time stamps, lengths,
      indices) are [Z] or [nat].
    - [Date] works in the local time zone of the host; the model fixes
      that zone to UTC.
    - A [Map] is an association list in insertion order, a [Set] of
      strings is a [gset string], an IndexedDB object store is a
      [gmap] from its key path to its records.
    - Records have the types the source declares.  One value of the
      source escapes them: for a file whose extension is [constructor]
      or [__proto__], [getMediaType] returns what its table inherits
      from [Object.prototype]; [MediaMatcher.getMediaType_value] tells
      these values, and the import is modelled with what they cause.
    - The operations of the store ([Storage]) are those of a store that
      accepts every request.  What the environment can make fail, the
      reading of a file and a request to the store, is a parameter of
      the functions that handle the failure ([Parser.Reader],
      [UseImport.Request]). *)

From stdpp Require Import gmap strings list pretty sorting.
From Stdlib Require Import Ascii ZArith Lia.

Set Warnings "-abstract-large-number".


(* ===================================================================== *)
(** ** JavaScript string primitives *)
(* ===================================================================== *)

Module JS.

Definition code (a : ascii) : nat := nat_of_ascii a.

Definition between (lo hi : nat) (a : ascii) : bool :=
  (lo <=? code a)%nat && (code a <=? hi)%nat.

(** [\d] *)
Definition is_digit (a : ascii) : bool := between 48 57 a.

(** [\s], and the characters removed by [String.prototype.trim]. *)
Definition is_space (a : ascii) : bool :=
  between 9 13 a || (code a =? 32)%nat.

(** Line terminators, which [.] does not match. *)
Definition is_newline (a : ascii) : bool :=
  (code a =? 10)%nat || (code a =? 13)%nat.

Definition lower_ascii (a : ascii) : ascii :=
  if between 65 90 a then ascii_of_nat (code a + 32) else a.

Definition upper_ascii (a : ascii) : ascii :=
  if between 97 122 a then ascii_of_nat (code a - 32) else a.

Fixpoint map_string (f : ascii -> ascii) (s : string) : string :=
  match s with
  | EmptyString => EmptyString
  | String a s' => String (f a) (map_string f s')
  end.

Definition toLowerCase : string -> string := map_string lower_ascii.
Definition toUpperCase : string -> string := map_string upper_ascii.

Fixpoint trimStart (s : string) : string :=
  match s with
  | String a s' => if is_space a then trimStart s' else s
  | EmptyString => EmptyString
  end.

Fixpoint trimEnd (s : string) : string :=
  match s with
  | EmptyString => EmptyString
  | String a s' =>
      match trimEnd s' with
      | EmptyString => if is_space a then EmptyString else String a EmptyString
      | t => String a t
      end
  end.

Definition trim (s : string) : string := trimEnd (trimStart s).

(** Truthiness of a string: the empty string is falsy. *)
Definition truthy (s : string) : bool :=
  match s with EmptyString => false | _ => true end.

Definition truthy_opt (o : option string) : bool :=
  match o with Some s => truthy s | None => false end.

(** [s.slice(n)] for [0 <= n]. *)
Fixpoint drop_str (n : nat) (s : string) : string :=
  match n, s with
  | S n', String _ s' => drop_str n' s'
  | _, _ => s
  end.

(** [s.substring(0, n)]. *)
Fixpoint take_str (n : nat) (s : string) : string :=
  match n, s with
  | S n', String a s' => String a (take_str n' s')
  | _, _ => EmptyString
  end.

(** [s.substring(i, j)]. *)
Definition substring (i j : nat) (s : string) : string :=
  take_str (j - i) (drop_str i s).

(** [s.split(sep)] for a one-character separator: never empty. *)
Fixpoint split (sep : ascii) (s : string) : list string :=
  match s with
  | EmptyString => [EmptyString]
  | String a s' =>
      if Ascii.eqb a sep then EmptyString :: split sep s'
      else match split sep s' with
           | p :: ps => String a p :: ps
           | [] => [String a EmptyString]
           end
  end.

Definition endsWith (s suffix : string) : bool :=
  String.eqb (drop_str (String.length s - String.length suffix) s) suffix
  && (String.length suffix <=? String.length s)%nat.

Definition startsWith (s p : string) : bool := String.prefix p s.

(** [arr.join(sep)]. *)
Fixpoint join (sep : string) (l : list string) : string :=
  match l with
  | [] => EmptyString
  | [x] => x
  | x :: rest => x +:+ sep +:+ join sep rest
  end.

(** [parseInt] on a string: the value of the longest prefix of decimal
    digits, [None] (for NaN) when there is none.  Every call site
    passes a group captured by [\d] repetitions, so signs, leading
    white space and radix prefixes do not arise. *)
Fixpoint digits_value (acc : Z) (s : string) : Z :=
  match s with
  | String a s' =>
      if is_digit a then digits_value (10 * acc + Z.of_nat (code a - 48)) s'
      else acc
  | EmptyString => acc
  end.

Definition parseInt (s : string) : option Z :=
  match s with
  | String a _ => if is_digit a then Some (digits_value 0 s) else None
  | EmptyString => None
  end.

(** *** Dates (local zone = UTC) *)

Local Open Scope Z_scope.

Definition msPerDay : Z := 86400000.

(** Days since 1970-01-01 of the first day of month [m] (0-based,
    already reduced to [0..11]) of year [y], proleptic Gregorian. *)
Definition days_from_civil (y m d : Z) : Z :=
  let y' := if m <? 2 then y - 1 else y in
  let era := y' / 400 in
  let yoe := y' - era * 400 in
  let mp := if m <? 2 then m + 10 else m - 2 in
  let doy := (153 * mp + 2) / 5 + d - 1 in
  let doe := yoe * 365 + yoe / 4 - yoe / 100 + doy in
  era * 146097 + doe - 719468.

(** [MakeDay(year, month, date)] of ECMA-262: months outside [0..11]
    carry into the year and the day of the month is an offset. *)
Definition MakeDay (year month date : Z) : Z :=
  days_from_civil (year + month / 12) (month mod 12) 1 + date - 1.

(** [new Date(year, month, day, hours, minutes, seconds).getTime()];
    a year in [0..99] means [1900 + year]. *)
Definition Date_getTime (year month day hour minute second : Z) : Z :=
  let yr := if (0 <=? year) && (year <=? 99) then 1900 + year else year in
  MakeDay yr month day * msPerDay
  + hour * 3600000 + minute * 60000 + second * 1000.

(** Civil date [(year, month0, day)] of a day number. *)
Definition civil_from_days (z0 : Z) : Z * Z * Z :=
  let z := z0 + 719468 in
  let era := z / 146097 in
  let doe := z - era * 146097 in
  let yoe := (doe - doe / 1460 + doe / 36524 - doe / 146096) / 365 in
  let doy := doe - (365 * yoe + yoe / 4 - yoe / 100) in
  let mp := (5 * doy + 2) / 153 in
  let d := doy - (153 * mp + 2) / 5 + 1 in
  let m := if mp <? 10 then mp + 2 else mp - 10 in
  let y := yoe + era * 400 + (if m <? 2 then 1 else 0) in
  (y, m, d).

Definition getFullYear (t : Z) : Z := fst (fst (civil_from_days (t / msPerDay))).
Definition getMonth (t : Z) : Z := snd (fst (civil_from_days (t / msPerDay))).
Definition getDate (t : Z) : Z := snd (civil_from_days (t / msPerDay)).
Definition getHours (t : Z) : Z := (t mod msPerDay) / 3600000.
Definition getMinutes (t : Z) : Z := (t mod 3600000) / 60000.
Definition getSeconds (t : Z) : Z := (t mod 60000) / 1000.

(** *** Notions the properties of file names are stated with *)

(** A character of a word: no white space and no dot. *)
Definition word_char (a : ascii) : bool :=
  negb (is_space a) && negb (Ascii.eqb a ".").

Fixpoint all_word (s : string) : bool :=
  match s with
  | EmptyString => true
  | String a s' => word_char a && all_word s'
  end.

End JS.

(* ===================================================================== *)
(** ** Regular expressions with JavaScript's backtracking semantics *)
(* ===================================================================== *)

Module Regex.
Import JS.

Inductive regex : Type :=
| RBegin                                  (* ^ *)
| REnd                                    (* $ *)
| REmpty
| RChar (p : ascii -> bool)               (* one character of a class *)
| RSeq (r1 r2 : regex)
| RAlt (r1 r2 : regex)                    (* r1|r2, r1 first *)
| RStar (r : regex)                       (* greedy r* *)
| RGroup (i : nat) (r : regex).           (* i-th capture group *)

Definition captures := list (option string).

(** A continuation receives the position reached, the rest of the
    input and the captures, and yields the end position of the whole
    match. *)
Definition kont := nat -> string -> captures -> option (nat * captures).

(** The iteration of [r*], after ECMA-262's RepeatMatcher, for a
    matcher [m] of [r]: greedy, and an iteration that consumes nothing
    is rejected.  Every iteration consumes a character, so started at
    [n = String.length s] the counter never runs out before the input
    does. *)
Fixpoint star_loop (m : nat -> string -> captures -> kont -> option (nat * captures))
    (k : kont) (n : nat) (pos : nat) (s : string) (c : captures)
    {struct n} : option (nat * captures) :=
  match
    m pos s c
      (fun pos' s' c' =>
         if (pos <? pos')%nat
         then match n with
              | O => None
              | S n' => star_loop m k n' pos' s' c'
              end
         else None)
  with
  | Some x => Some x
  | None => k pos s c
  end.

(** Backtracking matcher. *)
Fixpoint rmatch (r : regex) (pos : nat) (s : string) (c : captures)
    (k : kont) {struct r} : option (nat * captures) :=
  match r with
  | RBegin => if (pos =? 0)%nat then k pos s c else None
  | REnd => match s with EmptyString => k pos s c | _ => None end
  | REmpty => k pos s c
  | RChar p =>
      match s with
      | String a s' => if p a then k (S pos) s' c else None
      | EmptyString => None
      end
  | RSeq r1 r2 =>
      rmatch r1 pos s c (fun pos' s' c' => rmatch r2 pos' s' c' k)
  | RAlt r1 r2 =>
      match rmatch r1 pos s c k with
      | Some x => Some x
      | None => rmatch r2 pos s c k
      end
  | RGroup i r1 =>
      rmatch r1 pos s c
        (fun pos' s' c' => k pos' s' (<[i := Some (take_str (pos' - pos) s)]> c'))
  | RStar r1 => star_loop (rmatch r1) k (String.length s) pos s c
  end.

Fixpoint ngroups (r : regex) : nat :=
  match r with
  | RSeq r1 r2 | RAlt r1 r2 => Nat.max (ngroups r1) (ngroups r2)
  | RStar r1 => ngroups r1
  | RGroup i r1 => Nat.max i (ngroups r1)
  | _ => 0
  end.

(** One attempt at position [pos]; on success the captures, with the
    whole match at index 0. *)
Definition final : kont := fun pos' _ c => Some (pos', c).

Definition exec_at (r : regex) (pos : nat) (s : string) : option captures :=
  match rmatch r pos s (replicate (S (ngroups r)) None) final with
  | Some (pos', c) => Some (<[0%nat := Some (take_str (pos' - pos) s)]> c)
  | None => None
  end.

Fixpoint search_from (r : regex) (pos : nat) (s : string) : option captures :=
  match exec_at r pos s with
  | Some c => Some c
  | None =>
      match s with
      | String _ s' => search_from r (S pos) s'
      | EmptyString => None
      end
  end.

(** [s.match(r)] for a regular expression without the [g] flag. *)
Definition str_match (r : regex) (s : string) : option captures :=
  search_from r 0 s.

(** [r.test(s)]. *)
Definition test (r : regex) (s : string) : bool :=
  bool_decide (is_Some (str_match r s)).

(** [m[i]]: [None] when the group did not take part in the match. *)
Definition group (m : captures) (i : nat) : option string :=
  default None (m !! i).

(** *** Pattern combinators *)

Definition chr (a : ascii) : regex := RChar (Ascii.eqb a).
(** a character under the [i] flag *)
Definition chr_i (a : ascii) : regex :=
  RChar (fun b => Ascii.eqb (lower_ascii b) (lower_ascii a)).
Definition digit : regex := RChar is_digit.
Definition space : regex := RChar is_space.
Definition dot : regex := RChar (fun a => negb (is_newline a)).

Fixpoint rseq (l : list regex) : regex :=
  match l with
  | [] => REmpty
  | [r] => r
  | r :: rest => RSeq r (rseq rest)
  end.

Fixpoint ralt (l : list regex) : regex :=
  match l with
  | [] => RChar (fun _ => false)
  | [r] => r
  | r :: rest => RAlt r (ralt rest)
  end.

Fixpoint lit (s : string) : regex :=
  match s with
  | EmptyString => REmpty
  | String a EmptyString => chr a
  | String a s' => RSeq (chr a) (lit s')
  end.

Fixpoint lit_i (s : string) : regex :=
  match s with
  | EmptyString => REmpty
  | String a EmptyString => chr_i a
  | String a s' => RSeq (chr_i a) (lit_i s')
  end.

Definition opt (r : regex) : regex := RAlt r REmpty.          (* r? *)
Definition plus (r : regex) : regex := RSeq r (RStar r).       (* r+ *)

(** [r{0,n}], greedy *)
Fixpoint upto (n : nat) (r : regex) : regex :=
  match n with
  | O => REmpty
  | S n' => opt (RSeq r (upto n' r))
  end.

(** [r{n}] *)
Fixpoint times (n : nat) (r : regex) : regex :=
  match n with
  | O => REmpty
  | S O => r
  | S n' => RSeq r (times n' r)
  end.

(** [r{lo,hi}] *)
Definition rep (lo hi : nat) (r : regex) : regex :=
  RSeq (times lo r) (upto (hi - lo) r).

(** *** Notions the properties of the matcher are stated with *)

(** [k2] succeeds wherever [k1] does. *)
Definition covers (k1 k2 : kont) : Prop :=
  ∀ pos s c, is_Some (k1 pos s c) → is_Some (k2 pos s c).

(** A continuation that always succeeds. *)
Definition total (k : kont) : Prop := ∀ pos s c, is_Some (k pos s c).

(** [r] matches [w] at position [pos], with [rest] after it.  What
    [r*] matches is left open. *)
Fixpoint accepts (r : regex) (pos : nat) (w rest : string) : Prop :=
  match r with
  | RBegin => w = "" ∧ pos = 0
  | REnd => w = "" ∧ rest = ""
  | REmpty => w = ""
  | RChar p => ∃ a, w = String a "" ∧ p a = true
  | RSeq r1 r2 =>
      ∃ w1 w2, w = w1 +:+ w2 ∧ accepts r1 pos w1 (w2 +:+ rest)
               ∧ accepts r2 (pos + String.length w1) w2 rest
  | RAlt r1 r2 => accepts r1 pos w rest ∨ accepts r2 pos w rest
  | RStar _ => True
  | RGroup _ r1 => accepts r1 pos w rest
  end.

(** Group [i] occurs in [r]. *)
Fixpoint mentions (i : nat) (r : regex) : bool :=
  match r with
  | RSeq r1 r2 | RAlt r1 r2 => mentions i r1 || mentions i r2
  | RStar r1 => mentions i r1
  | RGroup j r1 => (i =? j)%nat || mentions i r1
  | _ => false
  end.

(** What a successful run of the matcher has done when it calls its
    continuation: it has passed over a string that [r] matches, and
    changed the captures of the groups of [r] at most. *)
Definition sound_at (r : regex) (pos : nat) (s : string) (c : captures)
    (k : kont) (res : nat * captures) : Prop :=
  ∃ w rest c',
    s = w +:+ rest ∧ accepts r pos w rest
    ∧ length c' = length c
    ∧ (∀ i, mentions i r = false → c' !! i = c !! i)
    ∧ k (pos + String.length w) rest c' = Some res.

End Regex.

(* ===================================================================== *)
(** ** Core types ([types.ts]) *)
(* ===================================================================== *)

Module Types.

Inductive MsgType := text | media | system.
Inductive MediaType := image | video | audio | document.

Global Instance MsgType_eq_dec : EqDecision MsgType.
Proof. solve_decision. Defined.
Global Instance MediaType_eq_dec : EqDecision MediaType.
Proof. solve_decision. Defined.

(** A number field is [None] for NaN; an optional field is [None]
    when absent. *)
Record Message := mkMessage {
  id : string;
  timestamp : option Z;
  sender : option string;
  content : string;
  type : MsgType;
  mediaUrl : option string;
  mediaType : option MediaType;
  mediaFileName : option string;
}.

Global Instance Message_eq_dec : EqDecision Message.
Proof. solve_decision. Defined.

(** A browser [File]: its name and its bytes. *)
Record File := mkFile { name : string; bytes : string }.

(** [file.size] *)
Definition File_size (f : File) : N := N.of_nat (String.length (bytes f)).

Global Instance File_eq_dec : EqDecision File.
Proof. solve_decision. Defined.

Inductive Status := reading | parsing | storing | complete | error.

(** [ParseProgress] without [percentage], which is a rounded
    floating-point quotient of [processed] and [total]. *)
Record ParseProgress := mkProgress {
  total : nat;
  processed : nat;
  status : Status;
}.

End Types.

(* ===================================================================== *)
(** ** The chunked loop shared by the parser and the storage layer *)
(* ===================================================================== *)

Module Chunk.

(** [for (chunkStart = start; chunkStart < len; chunkStart += CHUNK_SIZE)
      { chunkEnd = min(chunkStart + CHUNK_SIZE, len); body }].
    With [CHUNK_SIZE = 0] the source loop does not terminate, hence
    the fuel: [None] means the loop is still running when it is used
    up. *)
Fixpoint chunkLoop {St : Type} (fuel : nat) (CHUNK_SIZE len : nat)
    (body : nat -> nat -> St -> St) (chunkStart : nat) (st : St) : option St :=
  if (chunkStart <? len)%nat then
    match fuel with
    | O => None
    | S fuel' =>
        let chunkEnd := Nat.min (chunkStart + CHUNK_SIZE) len in
        chunkLoop fuel' CHUNK_SIZE len body (chunkStart + CHUNK_SIZE)
                  (body chunkStart chunkEnd st)
    end
  else Some st.

(** [arr.slice(i, j)] for [i <= j]. *)
Definition slice {A : Type} (i j : nat) (l : list A) : list A :=
  take (j - i) (drop i l).

End Chunk.

(* ===================================================================== *)
(** ** The log parser ([services/parser.ts]) *)
(* ===================================================================== *)

Module Parser.
Import JS Regex Types.

(** The part the four time-stamp patterns share:
    [(\d{1,2})SEP(\d{1,2})SEP(\d{2,4}),?\s+(\d{1,2}):(\d{2})] *)
Definition date_time (sep : ascii) : list regex :=
  [ RGroup 1 (rep 1 2 digit); chr sep;
    RGroup 2 (rep 1 2 digit); chr sep;
    RGroup 3 (rep 2 4 digit); opt (chr ","); plus space;
    RGroup 4 (rep 1 2 digit); chr ":"; RGroup 5 (times 2 digit) ].

(** [(?::(\d{2}))?] *)
Definition seconds_opt : regex :=
  opt (RSeq (chr ":") (RGroup 6 (times 2 digit))).

Definition TIMESTAMP_PATTERNS : list regex :=
  [ (* /^\[?(\d{1,2})\/(\d{1,2})\/(\d{2,4}),?\s+(\d{1,2}):(\d{2})(?::(\d{2}))?\]?\s*-?\s*/ *)
    rseq ([RBegin; opt (chr "[")] ++ date_time "/" ++
         [seconds_opt; opt (chr "]"); RStar space; opt (chr "-"); RStar space]);
    (* /^\[?(\d{1,2})\/(\d{1,2})\/(\d{2,4}),?\s+(\d{1,2}):(\d{2})\s*(AM|PM|am|pm)\]?\s*-?\s*/ *)
    rseq ([RBegin; opt (chr "[")] ++ date_time "/" ++
         [RStar space; RGroup 6 (ralt [lit "AM"; lit "PM"; lit "am"; lit "pm"]);
          opt (chr "]"); RStar space; opt (chr "-"); RStar space]);
    (* /^\[?(\d{1,2})\.(\d{1,2})\.(\d{2,4}),?\s+(\d{1,2}):(\d{2})(?::(\d{2}))?\]?\s*-?\s*/ *)
    rseq ([RBegin; opt (chr "[")] ++ date_time "." ++
         [seconds_opt; opt (chr "]"); RStar space; opt (chr "-"); RStar space]);
    (* /^(\d{1,2})\/(\d{1,2})\/(\d{2,4}),?\s+(\d{1,2}):(\d{2})(?::(\d{2}))?\s*-\s*/ *)
    rseq ([RBegin] ++ date_time "/" ++
         [seconds_opt; RStar space; chr "-"; RStar space]) ].

Definition SYSTEM_MESSAGE_PATTERNS : list regex :=
  [ rseq [RBegin; lit "Messages and calls are end-to-end encrypted"];
    rseq [RBegin; lit "You deleted this message"];
    rseq [RBegin; lit "This message was deleted"];
    rseq [RBegin; lit "You created group"];
    rseq [RBegin; lit "You added"];
    rseq [RBegin; lit "You removed"];
    rseq [RBegin; lit "You left"];
    rseq [RBegin; plus dot; lit " created group"];
    rseq [RBegin; plus dot; lit " added "; plus dot];
    rseq [RBegin; plus dot; lit " removed "; plus dot];
    rseq [RBegin; plus dot; lit " left"; REnd];
    rseq [RBegin; plus dot; lit " changed the subject"];
    rseq [RBegin; plus dot; lit " changed this group's icon"];
    rseq [RBegin; plus dot; lit " changed the group description"];
    rseq [RBegin; lit "Security code changed"];
    rseq [RBegin; lit "Missed "; plus dot; lit " call"] ].

(** [(jpg|jpeg|...|pptx)] under the [i] flag, as capture group [i]. *)
Definition ext_group (i : nat) (exts : list string) : regex :=
  RGroup i (ralt (lit_i <$> exts)).

Definition PARSER_EXTS : list string :=
  [ "jpg"; "jpeg"; "png"; "gif"; "webp"; "heic"; "mp4"; "mov"; "avi";
    "mkv"; "webm"; "3gp"; "mp3"; "ogg"; "opus"; "wav"; "m4a"; "aac";
    "pdf"; "doc"; "docx"; "xls"; "xlsx"; "ppt"; "pptx" ].

Definition MEDIA_PATTERNS : list regex :=
  [ rseq [RBegin; lit "<Media omitted>"; REnd];
    rseq [RBegin; lit_i "image omitted"; REnd];
    rseq [RBegin; lit_i "video omitted"; REnd];
    rseq [RBegin; lit_i "audio omitted"; REnd];
    rseq [RBegin; lit_i "document omitted"; REnd];
    rseq [RBegin; lit_i "sticker omitted"; REnd];
    rseq [RBegin; lit_i "GIF omitted"; REnd];
    rseq [RBegin; lit_i "(file attached)"; REnd];
    rseq [RBegin; plus dot; chr "."; ext_group 1 PARSER_EXTS; RStar space;
         lit_i "(file attached)"; REnd] ].

Record ParseResult := mkParseResult {
  messages : list Message;
  chatName : string;
  isGroup : bool;
}.

(** Monadic bind on numbers: NaN is contagious. *)
Definition num (m : captures) (i : nat) : option Z :=
  group m i ≫= parseInt.

Definition parseTimestamp (m : captures) (patternIndex : nat) : option Z :=
  if (patternIndex =? 1)%nat then
    (* AM/PM format *)
    day ← num m 1; month ← num m 2; year ← num m 3;
    hour ← num m 4; minute ← num m 5;
    ampm ← group m 6;
    let isPM := String.eqb (toUpperCase ampm) "PM" in
    let hour := if isPM && negb (hour =? 12)%Z then (hour + 12)%Z else hour in
    let hour := if negb isPM && (hour =? 12)%Z then 0%Z else hour in
    let year := if (year <? 100)%Z
                then (year + (if (year <? 50)%Z then 2000 else 1900))%Z else year in
    Some (Date_getTime year (month - 1) day hour minute 0)
  else
    (* 24-hour format *)
    day ← num m 1; month ← num m 2; year ← num m 3;
    hour ← num m 4; minute ← num m 5;
    second ← (match group m 6 with
              | Some g => if truthy g then parseInt g else Some 0%Z
              | None => Some 0%Z
              end);
    let year := if (year <? 100)%Z
                then (year + (if (year <? 50)%Z then 2000 else 1900))%Z else year in
    Some (Date_getTime year (month - 1) day hour minute second).

(** The loop over [TIMESTAMP_PATTERNS], first match wins; [i] is the
    index of the head of [patterns]. *)
Fixpoint tryPatterns (patterns : list regex) (i : nat) (line : string)
    : option (option Z * string) :=
  match patterns with
  | [] => None
  | pattern :: rest =>
      match str_match pattern line with
      | Some m =>
          let timestamp := parseTimestamp m i in
          let remainder :=
            drop_str (String.length (default "" (group m 0))) line in
          Some (timestamp, remainder)
      | None => tryPatterns rest (S i) line
      end
  end.

Definition tryParseMessageLine (line : string) : option (option Z * string) :=
  tryPatterns TIMESTAMP_PATTERNS 0 line.

Definition isSystemMessage (content : string) : bool :=
  existsb (fun pattern => test pattern content) SYSTEM_MESSAGE_PATTERNS.

Definition isMediaMessage (content : string) : bool :=
  existsb (fun pattern => test pattern content) MEDIA_PATTERNS.

(** [/^(.+\.(jpg|...|pptx))\s*\(file attached\)$/i] *)
Definition FILE_ATTACHED : regex :=
  rseq [RBegin; RGroup 1 (rseq [plus dot; chr "."; ext_group 2 PARSER_EXTS]);
       RStar space; lit_i "(file attached)"; REnd].

Definition extractMediaFileName (content : string) : option string :=
  match str_match FILE_ATTACHED content with
  | Some m => trim <$> group m 1
  | None => None
  end.

Definition getMediaTypeFromFilename (filename : string) : option MediaType :=
  let ext := toLowerCase (default "" (last (split "." filename))) in
  if negb (truthy ext) then None
  else if bool_decide (ext ∈ ["jpg"; "jpeg"; "png"; "gif"; "webp"; "heic"; "heif"])
       then Some image
  else if bool_decide (ext ∈ ["mp4"; "mov"; "avi"; "mkv"; "webm"; "3gp"])
       then Some video
  else if bool_decide (ext ∈ ["mp3"; "ogg"; "opus"; "wav"; "m4a"; "aac"])
       then Some audio
  else Some document.

(** [`${n}`] for a number. *)
Definition show_number (n : option Z) : string :=
  match n with Some z => pretty z | None => "NaN" end.

(** The state that [onload] carries through its line loop: the output
    so far, the open message, the senders seen, and the calls of
    [onProgress] that [onload] has made.  The calls of the reading
    stage are made before, by [onprogress]; see
    [parseWhatsAppChat_with]. *)
Record State := mkState {
  st_messages : list Message;
  currentMessage : option Message;
  senderSet : gset string;
  reports : list ParseProgress;
}.

Definition set_content (m : Message) (c : string) : Message :=
  mkMessage (id m) (timestamp m) (sender m) c (type m)
            (mediaUrl m) (mediaType m) (mediaFileName m).

(** The sender pattern of [onload]: at the start, group 1 is one or
    more characters other than a colon; then a colon and optional
    white space; group 2 is the rest of the line, which must hold no
    line terminator. *)
Definition SENDER : regex :=
  rseq [RBegin; RGroup 1 (plus (RChar (fun a => negb (Ascii.eqb a ":"))));
       chr ":"; RStar space; RGroup 2 (RStar dot); REnd].

Definition LF : string := String (ascii_of_nat 10) EmptyString.

(** One iteration of the inner [for] loop, on [lines[i]]. *)
Definition processLine (st : State) (raw : string) : State :=
  let line := trim raw in
  if negb (truthy line) then
    (* Skip empty lines *)
    match currentMessage st with
    | Some cur =>
        mkState (st_messages st) (Some (set_content cur (content cur +:+ LF)))
                (senderSet st) (reports st)
    | None => st
    end
  else
    match tryParseMessageLine line with
    | Some (timestamp, remainder) =>
        (* Save previous message if exists *)
        let messages :=
          match currentMessage st with
          | Some cur => st_messages st ++ [set_content cur (trim (content cur))]
          | None => st_messages st
          end in
        let msgId :=
          "msg-" +:+ show_number timestamp +:+ "-" +:+ pretty (length messages) in
        match str_match SENDER remainder with
        | Some senderMatch =>
            (* Regular message with sender *)
            let sender := trim (default "" (group senderMatch 1)) in
            let content := trim (default "" (group senderMatch 2)) in
            let isMedia := isMediaMessage content in
            let type := if isMedia then media else text in
            let mediaFileName :=
              if isMedia then extractMediaFileName content else None in
            let mediaType :=
              match mediaFileName with
              | Some f => if truthy f then getMediaTypeFromFilename f else None
              | None => None
              end in
            mkState messages
              (Some (mkMessage msgId timestamp (Some sender) content type None
                       mediaType
                       (if truthy_opt mediaFileName then mediaFileName else None)))
              ({[sender]} ∪ senderSet st) (reports st)
        | None =>
            (* System message or message without sender *)
            let content := trim remainder in
            let type := if isSystemMessage content then system else text in
            mkState messages
              (Some (mkMessage msgId timestamp None content type None None None))
              (senderSet st) (reports st)
        end
    | None =>
        (* Continuation of previous message *)
        match currentMessage st with
        | Some cur =>
            mkState (st_messages st)
                    (Some (set_content cur (content cur +:+ LF +:+ line)))
                    (senderSet st) (reports st)
        | None => st
        end
    end.

Definition report (p : ParseProgress) (st : State) : State :=
  mkState (st_messages st) (currentMessage st) (senderSet st) (reports st ++ [p]).

Definition CHUNK_SIZE : nat := 2000.

(** The body of the outer loop: the lines of one chunk, then the
    progress report. *)
Definition processChunk (lines : list string) (chunkStart chunkEnd : nat)
    (st : State) : State :=
  report (mkProgress (length lines) chunkEnd parsing)
         (foldl processLine st (Chunk.slice chunkStart chunkEnd lines)).

(** The state when the outer loop has ended. *)
Definition parseLoop (fuel : nat) (text : string) : option State :=
  let lines := split (ascii_of_nat 10) text in
  Chunk.chunkLoop fuel CHUNK_SIZE (length lines) (processChunk lines) 0
    (report (mkProgress (length lines) 0 parsing) (mkState [] None ∅ [])).

(** [name.replace(/\.txt$/i, '').replace(/^WhatsApp Chat with /, '')] *)
Definition chatNameGuess (name : string) : string :=
  let s := if endsWith (toLowerCase name) ".txt"
           then take_str (String.length name - 4) name else name in
  if startsWith s "WhatsApp Chat with "
  then drop_str (String.length "WhatsApp Chat with ") s else s.

(** What [onload] does after the loop: close the open message, infer
    the group flag, name the chat. *)
Definition finish (file : File) (st : State) : ParseResult * State :=
  let messages :=
    match currentMessage st with
    | Some cur => st_messages st ++ [set_content cur (trim (content cur))]
    | None => st_messages st
    end in
  let isGroup := bool_decide (2 < size (senderSet st)) in
  let guess := chatNameGuess (name file) in
  (mkParseResult messages (if truthy guess then guess else "Imported Chat") isGroup,
   report (mkProgress (length (split (ascii_of_nat 10) (bytes file)))
                      (length (split (ascii_of_nat 10) (bytes file))) complete) st).

Definition parseWhatsAppChat_fuel (fuel : nat) (file : File)
    : option (ParseResult * State) :=
  finish file <$> parseLoop fuel (bytes file).

(** What [onload] does with the text of the file: the value the
    promise is resolved with, and the state at that point.  The loop
    advances by [CHUNK_SIZE = 2000] lines, so one round per line is
    more than enough. *)
Definition parseWhatsAppChat (file : File) : option (ParseResult * State) :=
  parseWhatsAppChat_fuel (length (split (ascii_of_nat 10) (bytes file))) file.

(** *** The reader *)

(** A [progress] event of the [FileReader]. *)
Record ProgressEvent := mkProgressEvent {
  lengthComputable : bool;
  loaded : nat;
  ev_total : nat;                       (* [total] *)
}.

(** What the [FileReader] does with a file: the progress events it
    fires, and then whether it fails ([onerror]) or loads the text
    ([onload]). *)
Record Reader := mkReader {
  progress_events : list ProgressEvent;
  fails : bool;
}.

(** [reader.onprogress]: the calls of [onProgress] it makes for an
    event. *)
Definition onprogress (e : ProgressEvent) : list ParseProgress :=
  if lengthComputable e then [mkProgress (ev_total e) (loaded e) reading]
  else [].

(** [parseWhatsAppChat(file, onProgress)] for a reader: the value the
    promise is resolved with, [None] when it is rejected, and all the
    calls of [onProgress], in order.  [onload] itself never rejects:
    its loop ends (the [None] of [parseWhatsAppChat] does not occur)
    and nothing in it throws. *)
Definition parseWhatsAppChat_with (reader : Reader) (file : File)
    : option ParseResult * list ParseProgress :=
  let reading := concat (onprogress <$> progress_events reader) in
  if fails reader then (None, reading)
  else
    match parseWhatsAppChat file with
    | Some (result, st) => (Some result, reading ++ reports st)
    | None => (None, reading)
    end.

(** *** Notions the properties of the parser are stated with *)

(** The senders of the records of a list. *)
Definition senders (l : list Message) : gset string :=
  list_to_set (omap sender l).

(** The sender a line of the text names: the line, trimmed, is not
    empty and opens a message, and what follows its time stamp has the
    form [sender: text]. *)
Definition sender_of (raw : string) : option string :=
  let line := trim raw in
  if truthy line then
    match tryParseMessageLine line with
    | Some (_, remainder) =>
        match str_match SENDER remainder with
        | Some senderMatch => Some (trim (default "" (group senderMatch 1)))
        | None => None
        end
    | None => None
    end
  else None.

(** The distinct senders that the lines of a text name. *)
Definition named_senders (lines : list string) : gset string :=
  list_to_set (omap sender_of lines).

(** The set the loop accumulates is the set of senders of the records
    produced so far, the open one included. *)
Definition senders_inv (st : State) : Prop :=
  senderSet st = senders (st_messages st ++ option_list (currentMessage st)).

Definition example_lines : string :=
  "[01/02/24, 09:00:00] Alice: Hello" +:+ LF +:+
  "there" +:+ LF +:+
  "[01/02/24, 09:01:05] Bob: <Media omitted>".

(** The hour and the minute of the time stamp a header line yields. *)
Definition header_clock (line : string) : option (Z * Z) :=
  match tryParseMessageLine line with
  | Some (Some t, _) => Some (getHours t, getMinutes t)
  | _ => None
  end.

(** The state the loop of [onload] starts from. *)
Definition start : State := mkState [] None ∅ [].

(** The records a state holds: the output so far, then the open
    message. *)
Definition produced (st : State) : list Message :=
  st_messages st ++ option_list (currentMessage st).

(** The time stamp of a line that opens a message: the line, trimmed,
    is not empty and one of the patterns matches it. *)
Definition header_of (raw : string) : option (option Z) :=
  if truthy (trim raw) then fst <$> tryParseMessageLine (trim raw) else None.

(** How the kind of a record relates to its optional fields. *)
Definition well_kinded (m : Message) : Prop :=
  (type m = system → sender m = None)
  ∧ (type m = media → is_Some (sender m))
  ∧ (is_Some (mediaFileName m) → type m = media ∧ truthy_opt (mediaFileName m) = true)
  ∧ (is_Some (mediaType m) → is_Some (mediaFileName m))
  ∧ mediaUrl m = None.

(** The id the parser gives the [k]-th record, for a time stamp [t]. *)
Definition id_of (t : option Z) (k : nat) : string :=
  "msg-" +:+ show_number t +:+ "-" +:+ pretty k.

(** *** Notions the properties of the parser are stated with *)

(** Two states that differ in their progress reports only. *)
Definition same_core (st st' : State) : Prop :=
  st_messages st = st_messages st'
  ∧ currentMessage st = currentMessage st'
  ∧ senderSet st = senderSet st'.

(** [m'] is [m] with another content. *)
Definition same_but_content (m m' : Message) : Prop :=
  ∃ c, m' = set_content m c.

(** No hyphen in a string. *)
Fixpoint no_dash (s : string) : Prop :=
  match s with
  | EmptyString => True
  | String a s' => a ≠ "-"%char ∧ no_dash s'
  end.

(** What the line loop keeps, of the records made from [lines]. *)
Definition parse_inv (lines : list string) (st : State) : Prop :=
  timestamp <$> produced st = omap header_of lines
  ∧ (∀ k m, produced st !! k = Some m → id m = id_of (timestamp m) k)
  ∧ Forall well_kinded (produced st)
  ∧ Forall (fun m => trim (content m) = content m) (st_messages st).

End Parser.

(* ===================================================================== *)
(** ** Intake validation ([services/validation.ts]) *)
(* ===================================================================== *)

Module Validation.
Import JS Regex Types.

Definition ALLOWED_MEDIA_EXTENSIONS : list string :=
  [ "jpg"; "jpeg"; "png"; "gif"; "webp"; "heic"; "heif";
    "mp4"; "mov"; "avi"; "mkv"; "webm"; "3gp";
    "mp3"; "ogg"; "opus"; "wav"; "m4a"; "aac";
    "pdf"; "doc"; "docx"; "xls"; "xlsx"; "ppt"; "pptx"; "txt" ].

Definition MAX_TEXT_FILE_SIZE : N := 500 * 1024 * 1024.
Definition MAX_SINGLE_MEDIA_SIZE : N := 2 * 1024 * 1024 * 1024.

(** [\d{1,2}[\/\.]\d{1,2}[\/\.]\d{2,4},?\s+\d{1,2}:\d{2}] *)
Definition line_shape : list regex :=
  let sep := RChar (fun a => Ascii.eqb a "/" || Ascii.eqb a ".") in
  [ rep 1 2 digit; sep; rep 1 2 digit; sep; rep 2 4 digit;
    opt (chr ","); plus space; rep 1 2 digit; chr ":"; times 2 digit ].

Definition WHATSAPP_LINE_PATTERNS : list regex :=
  [ rseq ([RBegin; opt (chr "[")] ++ line_shape);
    rseq (RBegin :: line_shape) ].

Inductive FileType := txt | folder | zip | unknown.

(** [details], without [estimatedMessages]: that field is a
    floating-point estimate no verdict depends on. *)
Record Details := mkDetails {
  txtFile : option File;
  mediaFiles : option (list File);
}.

Record ValidationResult := mkResult {
  valid : bool;
  error : option string;
  warnings : list string;
  fileType : FileType;
  details : option Details;
}.

Record FileValidationOptions := mkOptions {
  strictMode : bool;
  minMessages : nat;
}.

Definition default_options : FileValidationOptions := mkOptions false 5.

Definition invalid (msg : string) (ws : list string) (ft : FileType)
    : ValidationResult :=
  mkResult false (Some msg) ws ft None.

Definition getFileExtension (filename : string) : string :=
  let parts := split "." filename in
  if (1 <? length parts)%nat then toLowerCase (default "" (last parts)) else "".

Definition isWhatsAppLine (line : string) : bool :=
  let trimmed := trim line in
  existsb (fun pattern => test pattern trimmed) WHATSAPP_LINE_PATTERNS.

(** [readFileSample(file, n)]: the text of the first [n] bytes. *)
Definition readFileSample (file : File) (n : nat) : string :=
  take_str n (bytes file).

(** [readFileHeader(file, n)]: the first [n] bytes. *)
Definition readFileHeader (file : File) (n : nat) : string :=
  take_str n (bytes file).

(** The read is taken to succeed, so the [catch] branch of the source
    is not entered.  [validLineCount < lines.length * 0.3] is decided
    on integers: the two agree for the at most 10000 lines of a
    sample. *)
Definition validateTextFile (file : File) (options : FileValidationOptions)
    : ValidationResult :=
  if negb (endsWith (toLowerCase (name file)) ".txt") then
    invalid "File must be a .txt file" [] unknown
  else if (File_size file =? 0)%N then
    invalid "File is empty" [] txt
  else if (MAX_TEXT_FILE_SIZE <? File_size file)%N then
    invalid ("File is too large (max " +:+
             pretty (MAX_TEXT_FILE_SIZE / (1024 * 1024))%N +:+ "MB)") [] txt
  else
    let sample := readFileSample file 10000 in
    let lines := filter (fun line => truthy (trim line) = true)
                        (split (ascii_of_nat 10) sample) in
    let validLineCount := length (filter (fun l => isWhatsAppLine l = true)
                                         (take 50 lines)) in
    if (validLineCount =? 0)%nat then
      invalid "File does not appear to be a WhatsApp chat export. No valid message timestamps found." [] txt
    else if strictMode options && (validLineCount <? minMessages options)%nat then
      invalid ("File contains too few messages (found " +:+ pretty validLineCount
               +:+ ", minimum " +:+ pretty (minMessages options) +:+ ")") [] txt
    else
      let warnings :=
        if (10 * validLineCount <? 3 * length lines)%nat
        then ["Many lines do not match WhatsApp format - some messages may not be parsed correctly"]
        else [] in
      mkResult true None warnings txt (Some (mkDetails (Some file) None)).

(** What the classification loop of [validateFolder] accumulates. *)
Record Sorted := mkSorted {
  txtFiles : list File;
  mediaFiles_acc : list File;
  skippedFiles : list string;
  warnings_acc : list string;
}.

Definition classify (acc : Sorted) (file : File) : Sorted :=
  let ext := getFileExtension (name file) in
  if String.eqb ext "txt" then
    mkSorted (txtFiles acc ++ [file]) (mediaFiles_acc acc)
             (skippedFiles acc) (warnings_acc acc)
  else if bool_decide (ext ∈ ALLOWED_MEDIA_EXTENSIONS) then
    if (MAX_SINGLE_MEDIA_SIZE <? File_size file)%N then
      mkSorted (txtFiles acc) (mediaFiles_acc acc)
               (skippedFiles acc ++ [name file])
               (warnings_acc acc ++
                  ["Skipping " +:+ name file +:+ ": file too large (max 2GB)"])
    else
      mkSorted (txtFiles acc) (mediaFiles_acc acc ++ [file])
               (skippedFiles acc) (warnings_acc acc)
  else if truthy ext &&
          negb (bool_decide (toLowerCase ext ∈ ["ds_store"; "thumbs.db"; "desktop.ini"]))
  then
    mkSorted (txtFiles acc) (mediaFiles_acc acc)
             (skippedFiles acc ++ [name file]) (warnings_acc acc)
  else acc.

Definition validateFolder (files : list File) : ValidationResult :=
  if (length files =? 0)%nat then invalid "Folder is empty" [] folder
  else
    let acc := foldl classify (mkSorted [] [] [] []) files in
    match txtFiles acc with
    | [] => invalid "No WhatsApp chat .txt file found in folder"
                    (warnings_acc acc) folder
    | first :: _ =>
        let warnings :=
          if (1 <? length (txtFiles acc))%nat
          then warnings_acc acc ++
               ["Found " +:+ pretty (length (txtFiles acc)) +:+
                " .txt files - will use the first one: " +:+ name first]
          else warnings_acc acc in
        (* Validate the main txt file *)
        let txtValidation := validateTextFile first default_options in
        if negb (valid txtValidation) then
          mkResult false (error txtValidation)
                   (Validation.warnings txtValidation ++ warnings) folder None
        else
          let n := length (skippedFiles acc) in
          let warnings :=
            if (0 <? n)%nat && (n <=? 5)%nat then
              warnings ++ ["Skipped unsupported files: " +:+
                           join ", " (skippedFiles acc)]
            else if (5 <? n)%nat then
              warnings ++ ["Skipped " +:+ pretty n +:+ " unsupported files"]
            else warnings in
          mkResult true None (Validation.warnings txtValidation ++ warnings) folder
                   (Some (mkDetails (Some first) (Some (mediaFiles_acc acc))))
    end.

(** [new DataView(header).getUint32(0, true)]: little-endian; a
    buffer shorter than four bytes raises a RangeError ([None]). *)
Definition getUint32_le (header : string) : option N :=
  match header with
  | String b0 (String b1 (String b2 (String b3 _))) =>
      Some (N_of_ascii b0 + 256 * N_of_ascii b1 + 65536 * N_of_ascii b2
            + 16777216 * N_of_ascii b3)%N
  | _ => None
  end.

(** The text of that RangeError (the wording of V8). *)
Definition RangeError_message : string :=
  "Offset is outside the bounds of the DataView".

Definition ZIP_SIGNATURE : N := 0x04034b50.

Definition validateZipFile (file : File) : ValidationResult :=
  if negb (endsWith (toLowerCase (name file)) ".zip") then
    invalid "File must be a .zip file" [] unknown
  else if (File_size file =? 0)%N then
    invalid "ZIP file is empty" [] zip
  else
    let header := readFileHeader file 4 in
    match getUint32_le header with
    | Some signature =>
        if negb (signature =? ZIP_SIGNATURE)%N then
          invalid "File is not a valid ZIP archive" [] zip
        else
          mkResult true None ["ZIP contents will be validated after extraction"]
                   zip (Some (mkDetails None None))
    | None =>
        invalid ("Failed to read ZIP file: " +:+ RangeError_message) [] zip
    end.

(** [File | FileList] *)
Inductive Input := single (file : File) | fileList (files : list File).

Definition validateInput (input : Input) : ValidationResult :=
  match input with
  | fileList files => validateFolder files
  | single file =>
      let ext := getFileExtension (name file) in
      if String.eqb ext "txt" then validateTextFile file default_options
      else if String.eqb ext "zip" then validateZipFile file
      else invalid ("Unsupported file type: ." +:+ ext +:+
                    ". Please upload a .txt or .zip file.") [] unknown
  end.

(** The bytes 50 4B 03 04. *)
Definition ZIP_MAGIC : string :=
  String "P" (String "K" (String (ascii_of_nat 3) (String (ascii_of_nat 4) ""))).

(** The reading of the design document, to compare with
    [validateFolder]: the text files of the set, and the one whose
    name comes first alphabetically. *)
Definition is_txt (file : File) : bool :=
  String.eqb (getFileExtension (name file)) "txt".

Definition alphabetically_first (candidates : list File) : option File :=
  foldr (fun f best =>
           match best with
           | Some g => if String.leb (name f) (name g) then Some f else Some g
           | None => Some f
           end) None candidates.

Definition spec_chat_file (files : list File) : option File :=
  alphabetically_first (filter (fun f => is_txt f = true) files).

(** *** Notions the properties of validation are stated with *)

(** The files [validateFolder] passes on as media: an allowed
    extension other than txt, and at most 2GB. *)
Definition is_accepted_media (file : File) : bool :=
  negb (is_txt file)
  && bool_decide (getFileExtension (name file) ∈ ALLOWED_MEDIA_EXTENSIONS)
  && negb (MAX_SINGLE_MEDIA_SIZE <? File_size file)%N.

(** The files [validateFolder] leaves out without a word. *)
Definition is_ignored (file : File) : bool :=
  negb (is_txt file)
  && negb (bool_decide (getFileExtension (name file) ∈ ALLOWED_MEDIA_EXTENSIONS))
  && (String.eqb (getFileExtension (name file)) ""
      || String.eqb (getFileExtension (name file)) "ds_store").

(** The files [validateFolder] counts as skipped. *)
Definition is_skipped (file : File) : bool :=
  negb (is_txt file) && negb (is_accepted_media file) && negb (is_ignored file).

(** The file type [validateInput] decides on, from the name alone. *)
Definition fileType_of (input : Input) : FileType :=
  match input with
  | fileList _ => folder
  | single file =>
      if String.eqb (getFileExtension (name file)) "txt" then txt
      else if String.eqb (getFileExtension (name file)) "zip" then zip
      else unknown
  end.

Fixpoint contains_char (a : ascii) (s : string) : bool :=
  match s with
  | EmptyString => false
  | String b s' => Ascii.eqb a b || contains_char a s'
  end.

(** *** Two well-formed exports *)

Definition chatA : File := mkFile "a.txt" "[01/02/24, 09:00:00] Alice: Hello".
Definition chatB : File := mkFile "b.txt" "[01/02/24, 09:00:00] Bob: Hello".

End Validation.

(* ===================================================================== *)
(** ** The media correlator ([services/mediaMatcher.ts]) *)
(* ===================================================================== *)

Module MediaMatcher.
Import JS Regex Types.

(** [/^(IMG|VID|AUD|PTT|DOC|STK)-(\d{8})-WA(\d+)\./i] *)
Definition WHATSAPP_MEDIA_PATTERN : regex :=
  rseq [RBegin;
       RGroup 1 (ralt (lit_i <$> ["IMG"; "VID"; "AUD"; "PTT"; "DOC"; "STK"]));
       chr "-"; RGroup 2 (times 8 digit); lit_i "-WA"; RGroup 3 (plus digit);
       chr "."].

(** [/^WhatsApp\s+(Image|Video|Audio|Document)\s+(\d{4}-\d{2}-\d{2})\s+at\s+(\d{1,2}\.\d{2}\.\d{2})/i] *)
Definition WHATSAPP_ALT_PATTERN : regex :=
  rseq [RBegin; lit_i "WhatsApp"; plus space;
       RGroup 1 (ralt (lit_i <$> ["Image"; "Video"; "Audio"; "Document"]));
       plus space;
       RGroup 2 (rseq [times 4 digit; chr "-"; times 2 digit; chr "-"; times 2 digit]);
       plus space; lit_i "at"; plus space;
       RGroup 3 (rseq [rep 1 2 digit; chr "."; times 2 digit; chr "."; times 2 digit])].

Definition EXTENSION_TO_TYPE : list (string * MediaType) :=
  [ ("jpg", image); ("jpeg", image); ("png", image); ("gif", image);
    ("webp", image); ("heic", image); ("heif", image);
    ("mp4", video); ("mov", video); ("avi", video); ("mkv", video);
    ("webm", video); ("3gp", video);
    ("mp3", audio); ("ogg", audio); ("opus", audio); ("wav", audio);
    ("m4a", audio); ("aac", audio);
    ("pdf", document); ("doc", document); ("docx", document);
    ("xls", document); ("xlsx", document); ("ppt", document);
    ("pptx", document); ("txt", document) ].

(** A [Map] with string keys, in insertion order. *)
Section Map.
Context {V : Type}.

Fixpoint Map_get (k : string) (m : list (string * V)) : option V :=
  match m with
  | [] => None
  | (k', v) :: rest => if String.eqb k k' then Some v else Map_get k rest
  end.

(** [m.set(k, v)]: an existing key keeps its place. *)
Fixpoint Map_set (k : string) (v : V) (m : list (string * V)) : list (string * V) :=
  match m with
  | [] => [(k, v)]
  | (k', v') :: rest =>
      if String.eqb k k' then (k, v) :: rest else (k', v') :: Map_set k v rest
  end.

Definition Map_values (m : list (string * V)) : list V := m.*2.
End Map.

Record MediaFile := mkMediaFile {
  file : File;
  mf_type : MediaType;                (* [type] *)
  mf_timestamp : option Z;            (* [timestamp], absent or a number *)
  matched : bool;
  messageId : option string;
}.

Record MediaMatchResult := mkMatchResult {
  matchedMessages : list Message;
  unmatchedMedia : list File;
  matchCount : nat;
  totalMedia : nat;
}.

(** [null] and NaN are both [None]: every use only tests the result
    for truthiness. [Number] is applied to runs of digits, where it
    agrees with [parseInt]. *)
Definition extractTimestampFromFilename (filename : string) : option Z :=
  match str_match WHATSAPP_MEDIA_PATTERN filename with
  | Some waMatch =>
      dateStr ← group waMatch 2;                         (* YYYYMMDD *)
      year ← parseInt (substring 0 4 dateStr);
      month ← parseInt (substring 4 6 dateStr);
      day ← parseInt (substring 6 8 dateStr);
      Some (Date_getTime year (month - 1) day 0 0 0)
  | None =>
      match str_match WHATSAPP_ALT_PATTERN filename with
      | Some altMatch =>
          dateStr ← group altMatch 2;
          timeStr ← group altMatch 3;
          match parseInt <$> split "-" dateStr, parseInt <$> split "." timeStr with
          | Some year :: Some month :: Some day :: _,
            Some hour :: Some minute :: Some second :: _ =>
              Some (Date_getTime year (month - 1) day hour minute second)
          | _, _ => None
          end
      | None => None
      end
  end.

(** [filename.split('.').pop()?.toLowerCase() || ''] *)
Definition extension (filename : string) : string :=
  toLowerCase (default "" (last (split "." filename))).

(** [EXTENSION_TO_TYPE] is an object literal, so [EXTENSION_TO_TYPE[ext]]
    also finds what every object inherits from [Object.prototype].
    The extension is in lower case, and [Object.prototype] has two
    names in lower case: [constructor], the function [Object], and
    [__proto__], the prototype object itself. *)
Inductive Inherited := Object_constructor | Object_prototype.

Global Instance Inherited_eq_dec : EqDecision Inherited.
Proof. solve_decision. Defined.

Definition inherited (ext : string) : option Inherited :=
  if String.eqb ext "constructor" then Some Object_constructor
  else if String.eqb ext "__proto__" then Some Object_prototype
  else None.

(** [EXTENSION_TO_TYPE[ext] || 'document'], as the value it is: a key
    of the table gives its type, an inherited name gives the inherited
    value, which is truthy and is no media type, and any other
    extension gives [document]. *)
Definition getMediaType_value (filename : string) : MediaType + Inherited :=
  let ext := extension filename in
  match Map_get ext EXTENSION_TO_TYPE with
  | Some t => inl t
  | None =>
      match inherited ext with
      | Some v => inr v
      | None => inl document
      end
  end.

(** [getMediaType] within the type it declares.  The records of the
    correlator are of the declared type [Message]: for a file whose
    extension is an inherited name they carry [document] here, where
    the source puts the inherited value in the field. *)
Definition getMediaType (filename : string) : MediaType :=
  match getMediaType_value filename with
  | inl t => t
  | inr _ => document
  end.

Definition truthy_num (n : option Z) : bool :=
  match n with Some z => negb (z =? 0)%Z | None => false end.

(** The body of the loop of [buildMediaLookup]; [x || undefined] keeps
    a truthy time stamp only. *)
Definition addFile (lookup : list (string * MediaFile)) (f : File)
    : list (string * MediaFile) :=
  let ts := extractTimestampFromFilename (name f) in
  Map_set (toLowerCase (name f))
          (mkMediaFile f (getMediaType (name f))
                       (if truthy_num ts then ts else None) false None)
          lookup.

Definition buildMediaLookup (mediaFiles : list File) : list (string * MediaFile) :=
  foldl addFile [] mediaFiles.

Definition not_space_angle (a : ascii) : bool :=
  negb (is_space a || Ascii.eqb a "<" || Ascii.eqb a ">").

Definition REFERENCE_PATTERNS : list regex :=
  [ (* /([^\s<>]+\.(jpg|jpeg|png|gif|webp|mp4|mov|mp3|ogg|opus|pdf|doc|docx))\s*\(file attached\)/i *)
    rseq [RGroup 1 (rseq [plus (RChar not_space_angle); chr ".";
                        Parser.ext_group 2
                          ["jpg"; "jpeg"; "png"; "gif"; "webp"; "mp4"; "mov";
                           "mp3"; "ogg"; "opus"; "pdf"; "doc"; "docx"]]);
         RStar space; lit_i "(file attached)"];
    (* /^([A-Z]{3}-\d{8}-WA\d+\.(jpg|jpeg|png|gif|webp|mp4|mov|mp3|ogg|opus|pdf))/i *)
    rseq [RBegin;
         RGroup 1 (rseq [times 3 (RChar (fun a => between 65 90 (upper_ascii a)));
                        chr "-"; times 8 digit; lit_i "-WA"; plus digit; chr ".";
                        Parser.ext_group 2
                          ["jpg"; "jpeg"; "png"; "gif"; "webp"; "mp4"; "mov";
                           "mp3"; "ogg"; "opus"; "pdf"]])] ].

Fixpoint firstMatch (patterns : list regex) (content : string) : option string :=
  match patterns with
  | [] => None
  | pattern :: rest =>
      match str_match pattern content with
      | Some m => group m 1
      | None => firstMatch rest content
      end
  end.

Definition findReferencedFilename (content : string) : option string :=
  firstMatch REFERENCE_PATTERNS content.

(** [{ ...msg, mediaFileName, mediaType }] *)
Definition enrich (msg : Message) (f : MediaFile) : Message :=
  mkMessage (id msg) (timestamp msg) (sender msg) (content msg) (type msg)
            (mediaUrl msg) (Some (mf_type f)) (Some (name (file f))).

(** [mediaFile.matched = true; mediaFile.messageId = msg.id] *)
Definition claim (f : MediaFile) (msg : Message) : MediaFile :=
  mkMediaFile (file f) (mf_type f) (mf_timestamp f) true (Some (id msg)).

(** The mutable state of [matchMediaToMessages].  The [MediaFile]
    objects live in [mediaLookup] and are referred to by their key
    wherever the source holds a reference to one.  [claims] is a
    history variable the source does not keep: the pairs (message
    index, key of the file) of the assignments to [matchedMessages[i]],
    latest first. *)
Record State := mkState {
  msgs : list Message;                     (* [matchedMessages] *)
  mediaLookup : list (string * MediaFile);
  usedMedia : gset string;
  claims : list (nat * string);
}.

Definition bind_file (st : State) (i : nat) (msg : Message) (key : string)
    (f : MediaFile) (used : string) : State :=
  mkState (<[i := enrich msg f]> (msgs st))
          (Map_set key (claim f msg) (mediaLookup st))
          ({[used]} ∪ usedMedia st)
          ((i, key) :: claims st).

(** Strategy 1, one iteration of the loop over [i]. *)
Definition strategy1_step (st : State) (i : nat) : State :=
  match msgs st !! i with
  | None => st
  | Some msg =>
      if bool_decide (type msg ≠ media) then st
      else
        match findReferencedFilename (content msg) with
        | Some referencedFile =>
            if truthy referencedFile then
              let key := toLowerCase referencedFile in
              match Map_get key (mediaLookup st) with
              | Some mediaFile =>
                  if negb (matched mediaFile)
                  then bind_file st i msg key mediaFile key
                  else st
              | None => st
              end
            else st
        | None => st
        end
  end.

(** Stable insertion sort of references by [(timestamp || 0)], as
    [Array.prototype.sort] with the comparator [a - b]. *)
Fixpoint insert_by (x : string * Z) (l : list (string * Z)) : list (string * Z) :=
  match l with
  | [] => [x]
  | y :: rest => if (x.2 <=? y.2)%Z then x :: l else y :: insert_by x rest
  end.

Definition sort_by_timestamp (l : list (string * Z)) : list (string * Z) :=
  foldr insert_by [] l.

(** [new Date(d.getFullYear(), d.getMonth(), d.getDate()).getTime()]
    for [d = new Date(t)]; NaN for NaN. *)
Definition dayOf (t : option Z) : option Z :=
  (fun t => Date_getTime (getFullYear t) (getMonth t) (getDate t) 0 0 0) <$> t.

(** [a === b] on numbers *)
Definition num_eq (a b : option Z) : bool :=
  match a, b with
  | Some x, Some y => (x =? y)%Z
  | _, _ => false
  end.

(** The filter that computes [candidates], on references. *)
Definition is_candidate (lookup : list (string * MediaFile)) (msgDay : option Z)
    (key : string) : bool :=
  match Map_get key lookup with
  | Some m =>
      if matched m || negb (truthy_num (mf_timestamp m)) then false
      else num_eq (dayOf (mf_timestamp m)) msgDay
  | None => false
  end.

(** Strategy 2, one iteration of the loop over [unmatchedMediaMsgs]. *)
Definition strategy2_step (unmatchedWithTimestamp : list string)
    (st : State) (entry : Message * nat) : State :=
  let '(msg, idx) := entry in
  let msgDay := dayOf (timestamp msg) in
  let candidates :=
    filter (fun key => is_candidate (mediaLookup st) msgDay key = true)
           unmatchedWithTimestamp in
  match candidates with
  | key :: _ =>
      match Map_get key (mediaLookup st) with
      | Some m => bind_file st idx msg key m (toLowerCase (name (file m)))
      | None => st
      end
  | [] => st
  end.

Definition strategy1 (st : State) : State :=
  foldl strategy1_step st (seq 0 (length (msgs st))).

Definition strategy2 (st : State) : State :=
  let unmatched := filter (fun e => matched e.2 = false) (mediaLookup st) in
  let unmatchedWithTimestamp :=
    filter (fun e => truthy_num (mf_timestamp e.2) = true) unmatched in
  let sorted :=
    sort_by_timestamp
      ((fun e => (e.1, default 0%Z (mf_timestamp e.2))) <$> unmatchedWithTimestamp) in
  let unmatchedMediaMsgs :=
    filter (fun e => type e.1 = media ∧ truthy_opt (mediaFileName e.1) = false)
           (zip (msgs st) (seq 0 (length (msgs st)))) in
  foldl (strategy2_step sorted.*1) st unmatchedMediaMsgs.

(** The state after both strategies (for a nonempty file list). *)
Definition run (messages : list Message) (mediaFiles : list File) : State :=
  strategy2 (strategy1 (mkState messages (buildMediaLookup mediaFiles) ∅ [])).

Definition matchMediaToMessages (messages : list Message) (mediaFiles : list File)
    : MediaMatchResult :=
  if (length mediaFiles =? 0)%nat then mkMatchResult messages [] 0 0
  else
    let st := run messages mediaFiles in
    let values := Map_values (mediaLookup st) in
    mkMatchResult (msgs st)
                  (file <$> filter (fun m => matched m = false) values)
                  (length (filter (fun m => matched m = true) values))
                  (length mediaFiles).

(** *** Invariants of the two strategies *)

(** [m'] has the fields of [m], but for [mediaFileName] and
    [mediaType]. *)
Definition agrees (m m' : Message) : Prop :=
  id m' = id m ∧ timestamp m' = timestamp m ∧ sender m' = sender m
  ∧ content m' = content m ∧ type m' = type m ∧ mediaUrl m' = mediaUrl m.

(** An output element is its input element, or an enriched [media]
    record. *)
Definition enriched_or_same (m m' : Message) : Prop :=
  m' = m ∨ (type m = media ∧ agrees m m').

Definition frame_inv (input : list Message) (st : State) : Prop :=
  length (msgs st) = length input
  ∧ ∀ i m m', input !! i = Some m → msgs st !! i = Some m' →
              enriched_or_same m m'.

Definition matchedCount (lookup : list (string * MediaFile)) : nat :=
  length (filter (fun m => matched m = true) (Map_values lookup)).

(** Every entry of the lookup sits under the lower-cased name of its
    file. *)
Definition keys_inv (lookup : list (string * MediaFile)) : Prop :=
  ∀ k f, Map_get k lookup = Some f → toLowerCase (name (file f)) = k.

(** The claim [(i, k)] stands: message [i] carries the name of the
    file under [k], and that file is marked as matched. *)
Definition bound (st : State) (i : nat) (k : string) : Prop :=
  ∃ m f, msgs st !! i = Some m
         ∧ Map_get k (mediaLookup st) = Some f
         ∧ matched f = true
         ∧ mediaFileName m = Some (name (file f)).

Definition wf (st : State) : Prop :=
  keys_inv (mediaLookup st)
  ∧ matchedCount (mediaLookup st) = length (claims st)
  ∧ NoDup (claims st).*1
  ∧ NoDup (claims st).*2
  ∧ ∀ i k, (i, k) ∈ claims st → bound st i k.

(** The key a file is stored under. *)
Definition keyOf (f : File) : string := toLowerCase (name f).

(** Before index [a] is visited: the claims made so far are on
    earlier messages, each of which now carries a file name. *)
Definition s1_inv (a : nat) (st : State) : Prop :=
  wf st
  ∧ ∀ i k, (i, k) ∈ claims st →
           i < a ∧ ∃ m, msgs st !! i = Some m
                        ∧ truthy_opt (mediaFileName m) = true.

(** The keys of the lookup and the number of messages stay. *)
Definition same_shape (st st' : State) : Prop :=
  (mediaLookup st').*1 = (mediaLookup st).*1
  ∧ length (msgs st') = length (msgs st).

(** While the entries [rem] remain to be visited: none of them has
    been claimed for. *)
Definition s2_inv (rem : list (Message * nat)) (st : State) : Prop :=
  wf st ∧ ∀ e, e ∈ rem → e.2 ∉ (claims st).*1.

(** *** The reasons for a binding *)

(** What no strategy changes of an entry of the lookup. *)
Definition same_file (f f' : MediaFile) : Prop :=
  file f' = file f ∧ mf_type f' = mf_type f ∧ mf_timestamp f' = mf_timestamp f.

(** The entry [buildMediaLookup] makes of a file of the list. *)
Definition built_from (mediaFiles : list File) (f : MediaFile) : Prop :=
  file f ∈ mediaFiles
  ∧ mf_type f = getMediaType (name (file f))
  ∧ mf_timestamp f
    = (if truthy_num (extractTimestampFromFilename (name (file f)))
       then extractTimestampFromFilename (name (file f)) else None)
  ∧ matched f = false.

(** Strategy 1: the content of the message names the file. *)
Definition by_name (m : Message) (key : string) : Prop :=
  ∃ r, findReferencedFilename (content m) = Some r ∧ truthy r = true
       ∧ toLowerCase r = key.

(** Strategy 2: the name of the file dates it to the day of the
    message. *)
Definition by_day (m : Message) (f : MediaFile) : Prop :=
  ∃ t, mf_timestamp f = Some t ∧ t ≠ 0%Z ∧ dayOf (Some t) = dayOf (timestamp m)
       ∧ is_Some (timestamp m).

(** An output element is its input element, or carries the name and
    the type of an entry of the lookup, for one of the two reasons. *)
Definition explained (lookup0 : list (string * MediaFile)) (m m' : Message)
    : Prop :=
  m' = m
  ∨ ∃ k f, Map_get k lookup0 = Some f
           ∧ mediaFileName m' = Some (name (file f))
           ∧ mediaType m' = Some (mf_type f)
           ∧ type m = media
           ∧ (by_name m k ∨ by_day m f).

(** Every entry of [lookup] is an entry of [lookup0], but for the
    mark of a match, which is only ever set. *)
Definition static_inv (lookup0 lookup : list (string * MediaFile)) : Prop :=
  ∀ k f', Map_get k lookup = Some f' →
          ∃ f, Map_get k lookup0 = Some f ∧ same_file f f'
               ∧ (matched f' = false → matched f = false).

Definition just_inv (input : list Message) (lookup0 : list (string * MediaFile))
    (st : State) : Prop :=
  static_inv lookup0 (mediaLookup st)
  ∧ ∀ i m m', input !! i = Some m → msgs st !! i = Some m' →
              explained lookup0 m m'.

(** *** What strategy 2 leaves *)

(** The file of an entry could still serve a message of the day
    [msgDay]. *)
Definition available (msgDay : option Z) (f : MediaFile) : bool :=
  negb (matched f) && truthy_num (mf_timestamp f)
  && num_eq (dayOf (mf_timestamp f)) msgDay.

(** While the entries [rem] remain to be visited by strategy 2: they
    are still as they were listed, and a media message without a file
    name that is not among them has no candidate left. *)
Definition served (keys : list string) (rem : list (Message * nat)) (st : State)
    : Prop :=
  (∀ e, e ∈ rem → msgs st !! e.2 = Some e.1)
  ∧ ∀ idx m', msgs st !! idx = Some m' → type m' = media →
      truthy_opt (mediaFileName m') = false →
      idx ∈ rem.*2
      ∨ ∀ key, key ∈ keys →
          is_candidate (mediaLookup st) (dayOf (timestamp m')) key = false.

(** The file name of a message, if it has one, has an extension that
    [getMediaType] looks up in the table itself or not at all: the
    media type the correlator gives such a file is one of the four
    declared. *)
Definition declared_name (msg : Message) : Prop :=
  ∀ n, mediaFileName msg = Some n → inherited (extension n) = None.

(** A dated entry has a name. *)
Definition named (lookup : list (string * MediaFile)) : Prop :=
  ∀ k f, Map_get k lookup = Some f → truthy_num (mf_timestamp f) = true →
         truthy (name (file f)) = true.

End MediaMatcher.

(* ===================================================================== *)
(** ** Chunked persistence ([services/storage.ts]) *)
(* ===================================================================== *)

Module Storage.
Import Types.

Record Chat := mkChat {
  chat_id : string;                     (* [id] *)
  chat_name : string;                   (* [name] *)
  messageCount : nat;
  lastOpened : Z;
  created : Z;
  isGroup : bool;
  currentViewAs : option string;
  lastMessageTimestamp : option Z;
}.

(** [{ ...msg, chatId }] *)
Record StoredMessage := mkStored {
  stored_msg : Message;                 (* the fields of the message *)
  chatId : string;
}.

Record MediaRecord := mkMediaRecord {
  media_messageId : string;             (* [messageId] *)
  blob : string;
  fileName : string;
  media_type : string;                  (* [type] *)
}.

(** The three object stores, each keyed by its key path. *)
Record DB := mkDB {
  chats : gmap string Chat;
  messages : gmap string StoredMessage;
  media : gmap string MediaRecord;
}.

(** [store.put(record)] on the [messages] store (key path [id]). *)
Definition put_message (chat : string) (db : DB) (msg : Message) : DB :=
  mkDB (chats db) (<[id msg := mkStored msg chat]> (messages db)) (media db).

(** [msgStore.delete(msgId); mediaStore.delete(msgId)] *)
Definition delete_message (db : DB) (msgId : string) : DB :=
  mkDB (chats db) (delete msgId (messages db)) (delete msgId (media db)).

(** A run records the store and the calls of the progress callback,
    [(processed, total)], in order. *)
Definition Run : Type := DB * list (nat * nat).

(** The body of the loop of [saveMessages]: one transaction, then the
    progress report. *)
Definition saveChunk (msgs : list Message) (chat : string)
    (chunkStart chunkEnd : nat) (r : Run) : Run :=
  let chunk := Chunk.slice chunkStart chunkEnd msgs in
  (foldl (put_message chat) r.1 chunk, r.2 ++ [(chunkEnd, length msgs)]).

(** [saveMessages] with the chunk size as a parameter. *)
Definition saveMessages_with (CHUNK_SIZE : nat) (fuel : nat)
    (msgs : list Message) (chat : string) (db : DB) : option Run :=
  Chunk.chunkLoop fuel CHUNK_SIZE (length msgs) (saveChunk msgs chat) 0 (db, []).

(** Save 1000 messages per transaction. *)
Definition CHUNK_SIZE : nat := 1000.

Definition saveMessages (msgs : list Message) (chat : string) (db : DB)
    : option Run :=
  saveMessages_with CHUNK_SIZE (length msgs) msgs chat db.

(** The cursor over the [by-chatId] index at [chat]: the ids of the
    chat's messages in key order. *)
Definition messageIdsOf (chat : string) (db : DB) : list string :=
  merge_sort String.le
    (filter (fun e => chatId e.2 = chat) (map_to_list (messages db))).*1.

Definition deleteBatch (messageIds : list string)
    (batchStart batchEnd : nat) (r : Run) : Run :=
  let batch := Chunk.slice batchStart batchEnd messageIds in
  (foldl delete_message r.1 batch, r.2 ++ [(batchEnd, length messageIds)]).

Definition deleteChat_with (BATCH_SIZE : nat) (fuel : nat)
    (chat : string) (db : DB) : option Run :=
  (* First, delete the chat metadata *)
  let db := mkDB (delete chat (chats db)) (messages db) (media db) in
  let messageIds := messageIdsOf chat db in
  let total := length messageIds in
  if (total =? 0)%nat then Some (db, [])
  else
    Chunk.chunkLoop fuel BATCH_SIZE total (deleteBatch messageIds) 0
                    (db, [(0, total)]).

(** Delete 20k messages at a time. *)
Definition BATCH_SIZE : nat := 20000.

Definition deleteChat (chat : string) (db : DB) : option Run :=
  deleteChat_with BATCH_SIZE (length (messageIdsOf chat db)) chat db.

(** The processed values of a run's callbacks never go down. *)
Definition nondecreasing (l : list nat) : Prop :=
  ∀ i j x y, i ≤ j → l !! i = Some x → l !! j = Some y → x ≤ y.

(** *** The other operations of the store *)

(** [db.put('chats', chat)] *)
Definition saveChat (chat : Chat) (db : DB) : DB :=
  mkDB (<[chat_id chat := chat]> (chats db)) (messages db) (media db).

(** [db.get('chats', chatId)] *)
Definition getChat (chat : string) (db : DB) : option Chat := chats db !! chat.

(** [db.get('messages', messageId)] *)
Definition getMessage (messageId : string) (db : DB) : option StoredMessage :=
  messages db !! messageId.

(** [db.getAllFromIndex('messages', 'by-chatId', chatId)]: the records
    of the chat, in the order of the index. *)
Definition getMessagesForChat (chat : string) (db : DB) : list StoredMessage :=
  omap (fun k => messages db !! k) (messageIdsOf chat db).

(** [db.put('media', { messageId, blob, fileName, type })] *)
Definition saveMedia (messageId : string) (blob fileName type : string) (db : DB)
    : DB :=
  mkDB (chats db) (messages db)
       (<[messageId := mkMediaRecord messageId blob fileName type]> (media db)).

(** [db.delete('media', messageId)] *)
Definition deleteMedia (messageId : string) (db : DB) : DB :=
  mkDB (chats db) (messages db) (delete messageId (media db)).

(** [Math.ceil(n / c)] for a positive [c]. *)
Definition ceil_div (n c : nat) : nat := (n + c - 1) / c.

(** The message of a list that a store keeps under key [k]: the last
    one with that id. *)
Definition last_with_id (k : string) (msgs : list Message) : option Message :=
  last (filter (fun m => id m = k) msgs).

(** *** The invariant of the callback log *)

(** What holds of the callback log when [p] records are processed:
    every call reports at most [p] of [total], the reports never go
    down, the latest one is [(p, total)], and there is one as soon as
    something is processed. *)
Definition log_inv (total p : nat) (log : list (nat * nat)) : Prop :=
  Forall (fun q => q.1 ≤ p ∧ q.2 = total) log
  ∧ nondecreasing log.*1
  ∧ (∀ q, last log = Some q → q = (p, total))
  ∧ (0 < p → log ≠ []).

End Storage.

(* ===================================================================== *)
(** ** The progress reports of the parser *)
(* ===================================================================== *)

Module Progress.
Import Types.

(** The reports while [p] lines are processed: all of the parsing
    stage and for the same total, the first with nothing processed,
    none beyond [p], never going down. *)
Definition reports_inv (n p : nat) (rs : list ParseProgress) : Prop :=
  head rs = Some (mkProgress n 0 parsing)
  ∧ Forall (fun r => total r = n ∧ processed r ≤ p ∧ status r = parsing) rs
  ∧ Storage.nondecreasing (processed <$> rs).

End Progress.

(* ===================================================================== *)
(** ** Object URLs ([createMediaUrls] and [revokeMediaUrls] of
       [services/mediaMatcher.ts]) *)
(* ===================================================================== *)

Module MediaUrls.
Import JS Types MediaMatcher.

(** The blob URL store of the page: the URLs handed out and not yet
    revoked, each with the file it shows, and a counter by which every
    new URL differs from all earlier ones. *)
Record Browser := mkBrowser {
  next_url : nat;
  blobs : list (string * File);
}.

Definition blob_url (n : nat) : string := "blob:" +:+ pretty n.

(** [URL.createObjectURL(file)] *)
Definition createObjectURL (file : File) (b : Browser) : string * Browser :=
  let url := blob_url (next_url b) in
  (url, mkBrowser (S (next_url b)) (blobs b ++ [(url, file)])).

(** [URL.revokeObjectURL(url)] *)
Definition revokeObjectURL (b : Browser) (url : string) : Browser :=
  mkBrowser (next_url b) (filter (fun e => e.1 ≠ url) (blobs b)).

(** The file a URL shows. *)
Definition resolve (url : string) (b : Browser) : option File :=
  Map_get url (blobs b).

(** [fileMap.set(file.name.toLowerCase(), file)] *)
Definition addToFileMap (fileMap : list (string * File)) (file : File)
    : list (string * File) :=
  Map_set (toLowerCase (name file)) file fileMap.

Definition buildFileMap (mediaFiles : list File) : list (string * File) :=
  foldl addToFileMap [] mediaFiles.

(** The body of the loop over the messages: the URL map so far and the
    store of the page. *)
Definition createUrl (fileMap : list (string * File))
    (acc : list (string * string) * Browser) (msg : Message)
    : list (string * string) * Browser :=
  match mediaFileName msg with
  | Some n =>
      if truthy n then
        match Map_get (toLowerCase n) fileMap with
        | Some file =>
            let '(url, b) := createObjectURL file acc.2 in
            (Map_set (id msg) url acc.1, b)
        | None => acc
        end
      else acc
  | None => acc
  end.

Definition createMediaUrls (messages : list Message) (mediaFiles : list File)
    (b : Browser) : list (string * string) * Browser :=
  foldl (createUrl (buildFileMap mediaFiles)) ([], b) messages.

(** [revokeMediaUrls(urlMap)]: the map is cleared. *)
Definition revokeMediaUrls (urlMap : list (string * string)) (b : Browser)
    : list (string * string) * Browser :=
  ([], foldl revokeObjectURL b (Map_values urlMap)).

(** *** Notions the properties are stated with *)

(** The file [fileMap.get(key)] finds: the last of the list whose
    name is [key] in lower case. *)
Definition file_named (key : string) (mediaFiles : list File) : option File :=
  last (filter (fun f => toLowerCase (name f) = key) mediaFiles).

(** The file a message asks for. *)
Definition wanted (mediaFiles : list File) (msg : Message) : option File :=
  match mediaFileName msg with
  | Some n => if truthy n then file_named (toLowerCase n) mediaFiles else None
  | None => None
  end.

(** Every URL of the store was handed out by it. *)
Definition store_ok (b : Browser) : Prop :=
  ∀ url, url ∈ (blobs b).*1 → ∃ n, url = blob_url n ∧ n < next_url b.

(** What holds while the messages [done] have been visited, starting
    from the store [b0]: the store has kept what it had and grown at
    its end; the map has a URL for every message that asks for a file
    of the list, and that URL shows the file. *)
Definition urls_inv (mediaFiles : list File) (b0 : Browser)
    (done : list Message) (acc : list (string * string) * Browser) : Prop :=
  store_ok acc.2
  ∧ next_url b0 ≤ next_url acc.2
  ∧ (∃ new, blobs acc.2 = blobs b0 ++ new
            ∧ (∀ url, url ∈ new.*1 → ∃ n, url = blob_url n ∧ next_url b0 ≤ n)
            ∧ (NoDup (id <$> done) → acc.1.*2 = new.*1))
  ∧ acc.1.*1 ⊆ id <$> done
  ∧ (∀ k url, Map_get k acc.1 = Some url →
       ∃ m f, m ∈ done ∧ id m = k ∧ wanted mediaFiles m = Some f
              ∧ resolve url acc.2 = Some f)
  ∧ (∀ m, m ∈ done → is_Some (wanted mediaFiles m) →
          is_Some (Map_get (id m) acc.1)).

End MediaUrls.

(* ===================================================================== *)
(** ** The import ([hooks/useImport.ts]) *)
(* ===================================================================== *)

Module UseImport.
Import JS Types MediaMatcher MediaUrls Storage.

(** What [importChatWithMedia] reads and writes outside its
    arguments: the database, the blob URL store of the page, and the
    clock, by the number of readings taken.  The state of the hook
    ([importing], [progress], [error]) is display state that the
    function sets and never reads; it is left out, and with it the
    calls of [console.log]. *)
Record World := mkWorld {
  db : DB;
  browser : Browser;
  ticks : nat;
}.

(** The requests of the import that the store can refuse (no space
    left, a transaction that is aborted): the put of the chat, the
    transaction of the chunk of [saveMessages] that starts at
    [chunkStart], and the put of the blob of a message. *)
Inductive Request :=
| put_chat (chat : Chat)
| put_messages (chunkStart : nat)
| put_media (messageId : string).

(** How a step that can throw ends: it returns or it throws, either
    way with the store as it then is. *)
Inductive Outcome := returned (d : DB) | thrown (d : DB).

(** [store.put] makes a structured clone of the record, and throws a
    [DataCloneError] when a field holds a function.  The one field
    that can is [mediaType]: [getMediaType] gives the function
    [Object] to a file whose extension is [constructor], and the
    correlator puts it in the message it binds the file to, together
    with the name of the file.  The parser takes the media type from
    a list of strings, and the file names it finds end in an extension
    of its own list. *)
Definition cloneable (msg : Message) : bool :=
  match mediaFileName msg with
  | Some n => negb (bool_decide (getMediaType_value n = inr Object_constructor))
  | None => true
  end.

(** The puts that are made of a chunk: up to the first record that
    cannot be cloned. *)
Fixpoint put_until_thrown (chunk : list Message) : list Message :=
  match chunk with
  | [] => []
  | msg :: rest => if cloneable msg then msg :: put_until_thrown rest else []
  end.

Section Environment.
(** [Date.now()] at the [n]-th reading, and [file.type]; what the
    [FileReader] does with a file; and the requests the store
    refuses, given the store as it is. *)
Variable clock : nat → Z.
Variable File_type : File → string.
Variable reader : File → Parser.Reader.
Variable refuses : Request → DB → bool.

Definition Date_now (w : World) : Z * World :=
  (clock (ticks w), mkWorld (db w) (browser w) (S (ticks w))).

(** [{ ...msg, mediaUrl: url }] when the map has a URL for the id. *)
Definition attachUrl (urlMap : list (string * string)) (msg : Message) : Message :=
  match Map_get (id msg) urlMap with
  | Some url =>
      if truthy url then
        mkMessage (id msg) (timestamp msg) (sender msg) (content msg) (type msg)
                  (Some url) (mediaType msg) (mediaFileName msg)
      else msg
  | None => msg
  end.

(** [a > b] on numbers: false when either is NaN. *)
Definition num_gt (a b : option Z) : bool :=
  match a, b with
  | Some x, Some y => (y <? x)%Z
  | _, _ => false
  end.

(** [(max, m) => m.timestamp > max ? m.timestamp : max] *)
Definition later (max : option Z) (m : Message) : option Z :=
  if num_gt (timestamp m) max then timestamp m else max.

(** The messages to store: with media files, the messages as matched,
    each with the URL made for it. *)
Definition linkMedia (messages : list Message) (mediaFiles : list File)
    (b : Browser) : list Message * Browser :=
  if (0 <? length mediaFiles)%nat then
    let matchResult := matchMediaToMessages messages mediaFiles in
    let '(urlMap, b) :=
      createMediaUrls (matchedMessages matchResult) mediaFiles b in
    (attachUrl urlMap <$> matchedMessages matchResult, b)
  else (messages, b).

(** [finalMessages.length > 0 ? finalMessages.reduce(...) : Date.now()] *)
Definition lastTimestamp (finalMessages : list Message) (w : World)
    : option Z * World :=
  match finalMessages with
  | first :: _ => (foldl later (timestamp first) finalMessages, w)
  | [] => let '(t, w) := Date_now w in (Some t, w)
  end.

(** The chat object.  The field [lastMessageTimestamp] is always set;
    [None] in it is NaN. *)
Definition newChat (result : Parser.ParseResult) (finalMessages : list Message)
    (w : World) : Chat * World :=
  let '(lastMessageTimestamp, w) := lastTimestamp finalMessages w in
  let '(t_id, w) := Date_now w in
  let '(t_opened, w) := Date_now w in
  let '(t_created, w) := Date_now w in
  (mkChat ("chat-" +:+ pretty t_id) (Parser.chatName result)
          (length finalMessages) t_opened t_created (Parser.isGroup result)
          None lastMessageTimestamp,
   w).

(** [await storage.saveChat(chat)] *)
Definition trySaveChat (chat : Chat) (d : DB) : Outcome :=
  if refuses (put_chat chat) d then thrown d else returned (saveChat chat d).

(** The body of the loop of [saveMessages]: one transaction.  The
    records of the chunk are put in order; at the first one that
    cannot be cloned [put] throws, after the puts before it are
    queued.  The transaction commits what was put, unless the store
    refuses it, in which case [tx.done] is rejected and nothing of the
    chunk is kept. *)
Definition trySaveChunk (msgs : list Message) (chat : string)
    (chunkStart chunkEnd : nat) (o : Outcome) : Outcome :=
  match o with
  | thrown _ => o
  | returned d =>
      let chunk := Chunk.slice chunkStart chunkEnd msgs in
      let refused := refuses (put_messages chunkStart) d in
      let d' :=
        if refused then d
        else foldl (put_message chat) d (put_until_thrown chunk) in
      if forallb cloneable chunk && negb refused then returned d'
      else thrown d'
  end.

(** [await storage.saveMessages(finalMessages, chat.id, ...)]; the
    loop ends within one round per message. *)
Definition trySaveMessages (msgs : list Message) (chat : string) (d : DB)
    : Outcome :=
  default (thrown d)
          (Chunk.chunkLoop (length msgs) CHUNK_SIZE (length msgs)
                           (trySaveChunk msgs chat) 0 (returned d)).

(** What the body of the loop over the media blobs does to a store
    that accepts the put. *)
Definition saveBlob (fileMap : list (string * File)) (d : DB) (msg : Message)
    : DB :=
  match mediaFileName msg with
  | Some n =>
      if truthy n then
        match Map_get (toLowerCase n) fileMap with
        | Some file =>
            saveMedia (id msg) (bytes file) (name file) (File_type file) d
        | None => d
        end
      else d
  | None => d
  end.

(** The body of the loop that saves the media blobs:
    [await storage.saveMedia(msg.id, file, file.name, file.type)] for
    a message that names a file of the map. *)
Definition trySaveBlob (fileMap : list (string * File)) (o : Outcome)
    (msg : Message) : Outcome :=
  match o with
  | thrown _ => o
  | returned d =>
      match mediaFileName msg with
      | Some n =>
          if truthy n then
            match Map_get (toLowerCase n) fileMap with
            | Some file =>
                if refuses (put_media (id msg)) d then thrown d
                else returned (saveMedia (id msg) (bytes file) (name file)
                                         (File_type file) d)
            | None => o
            end
          else o
      | None => o
      end
  end.

(** Save to storage: the chat, the messages, and with media files the
    blobs.  The first step that throws ends it. *)
Definition store (chat : Chat) (finalMessages : list Message)
    (mediaFiles : list File) (d : DB) : Outcome :=
  match trySaveChat chat d with
  | thrown d => thrown d
  | returned d =>
      match trySaveMessages finalMessages (chat_id chat) d with
      | thrown d => thrown d
      | returned d =>
          if (0 <? length mediaFiles)%nat
          then foldl (trySaveBlob (buildFileMap mediaFiles)) (returned d)
                     finalMessages
          else returned d
      end
  end.

(** [importChatWithMedia({ txtFile, mediaFiles })].  [None] stands for
    the [catch] branch, which returns [null]: it is taken when the
    promise of the parser is rejected, and when a step of the saving
    throws.  What was done before stays done: the URLs made, the
    readings of the clock taken, and what the store has kept. *)
Definition importChatWithMedia (txtFile : File) (mediaFiles : list File)
    (w : World) : option Chat * World :=
  match (Parser.parseWhatsAppChat_with (reader txtFile) txtFile).1 with
  | None => (None, w)
  | Some result =>
      let '(finalMessages, b) :=
        linkMedia (Parser.messages result) mediaFiles (browser w) in
      let '(chat, w) := newChat result finalMessages (mkWorld (db w) b (ticks w)) in
      match store chat finalMessages mediaFiles (db w) with
      | returned d => (Some chat, mkWorld d (browser w) (ticks w))
      | thrown d => (None, mkWorld d (browser w) (ticks w))
      end
  end.

End Environment.

(** *** Notions the properties are stated with *)

(** [t] is the time stamp of a message of the list, and when it is a
    number no time stamp of the list is greater. *)
Definition is_latest (t : option Z) (l : list Message) : Prop :=
  (∃ m, m ∈ l ∧ timestamp m = t)
  ∧ ∀ m x y, m ∈ l → timestamp m = Some x → t = Some y → (x ≤ y)%Z.

(** [m'] is [m], but for the three media fields. *)
Definition same_message (m m' : Message) : Prop :=
  id m' = id m ∧ timestamp m' = timestamp m ∧ sender m' = sender m
  ∧ content m' = content m ∧ type m' = type m.

(** Nothing fails during the import of a file: the reader loads it,
    and the store refuses no request. *)
Definition nothing_fails (reader : File → Parser.Reader)
    (refuses : Request → DB → bool) (txtFile : File) : Prop :=
  Parser.fails (reader txtFile) = false ∧ ∀ q d, refuses q d = false.

(** No file of the list has an extension that [getMediaType] finds in
    [Object.prototype]. *)
Definition typed_files (mediaFiles : list File) : Prop :=
  Forall (fun f => inherited (extension (name f)) = None) mediaFiles.

End UseImport.

(* ===================================================================== *)
(** ** Loading a chat ([hooks/useMessages.ts]) *)
(* ===================================================================== *)

Module UseMessages.
Import JS Types Storage.

(** The comparator [(a, b) => a.timestamp - b.timestamp] puts [a]
    after [b] when the difference is positive; a difference of zero
    or NaN leaves the two as they are. *)
Definition stays_before (a b : StoredMessage) : bool :=
  match timestamp (stored_msg a), timestamp (stored_msg b) with
  | Some x, Some y => (x <=? y)%Z
  | _, _ => true
  end.

(** [Array.prototype.sort] with that comparator, as a stable
    insertion sort.  (With a NaN among the time stamps the comparator
    is not consistent and the order is left to the engine; the model
    fixes one.) *)
Fixpoint insert_msg (x : StoredMessage) (l : list StoredMessage)
    : list StoredMessage :=
  match l with
  | [] => [x]
  | y :: rest => if stays_before x y then x :: l else y :: insert_msg x rest
  end.

Definition sort_msgs (l : list StoredMessage) : list StoredMessage :=
  foldr insert_msg [] l.

(** [loadMessages] of the effect, for a chat id that is set: the
    value given to [setMessages]. *)
Definition loadMessages (chat : string) (d : DB) : list StoredMessage :=
  sort_msgs (getMessagesForChat chat d).

(** *** Notions the properties are stated with *)

(** The records of the store sit under their ids (the key path of the
    [messages] store is [id]). *)
Definition keyed (d : DB) : Prop :=
  ∀ k v, messages d !! k = Some v → id (stored_msg v) = k.

(** The order of the display: by time stamp, and among equal time
    stamps by id, as strings. *)
Definition shown_before (a b : StoredMessage) : Prop :=
  match timestamp (stored_msg a), timestamp (stored_msg b) with
  | Some x, Some y =>
      (x < y)%Z ∨ (x = y ∧ String.le (id (stored_msg a)) (id (stored_msg b)))
  | _, _ => False
  end.

End UseMessages.

(* ===================================================================== *)
(** ** Search ([services/search.ts], [performSearch] of
       [components/SearchBar.tsx], [highlightText] of
       [components/MessageBubble.tsx]) *)
(* ===================================================================== *)

Module Search.
Import JS Regex Types.

(** [s.indexOf(t, from)], with [None] for -1; [rest] is [s] from
    [pos] on. *)
Fixpoint indexOf_at (t rest : string) (pos : nat) : option nat :=
  if startsWith rest t then Some pos
  else match rest with
       | String _ rest' => indexOf_at t rest' (S pos)
       | EmptyString => None
       end.

Definition indexOf (s t : string) (from : nat) : option nat :=
  let from := Nat.min from (String.length s) in
  indexOf_at t (drop_str from s) from.

(** [s.includes(t)] *)
Definition includes (s t : string) : bool :=
  bool_decide (is_Some (indexOf s t 0)).

Record SearchResult := mkSearchResult {
  messageId : string;
  chatId : string;
  snippet : string;
  highlightedSnippet : string;
  sr_timestamp : option Z;            (* [timestamp] *)
  sr_sender : option string;          (* [sender] *)
}.

Global Instance SearchResult_eq_dec : EqDecision SearchResult.
Proof. solve_decision. Defined.

(** [s.replace(r, f)] for a global [r]: the matches from left to
    right, none overlapping; after an empty match the search moves on
    by one character.  [skip] counts the characters of a match that
    are still to be passed over. *)
Fixpoint replace_global (r : regex) (f : string → string) (pos skip : nat)
    (s : string) {struct s} : string :=
  match skip, s with
  | S k, String _ s' => replace_global r f (S pos) k s'
  | S _, EmptyString => EmptyString
  | O, _ =>
      match exec_at r pos s with
      | Some c =>
          let m := default EmptyString (group c 0) in
          match String.length m, s with
          | S k, String _ s' => f m +:+ replace_global r f (S pos) k s'
          | O, String a s' => f m +:+ String a (replace_global r f (S pos) 0 s')
          | _, EmptyString => f m
          end
      | None =>
          match s with
          | String a s' => String a (replace_global r f (S pos) 0 s')
          | EmptyString => EmptyString
          end
      end
  end.

(** [new RegExp(escapeRegExp(query), 'gi')]: every character of the
    query escaped where it would be special, so the characters of the
    query one by one, up to case. *)
Definition queryPattern (query : string) : regex := lit_i query.

(** The body of the loop of [searchMessages]: the result pushed for a
    message, if any.  The indices are computed on integers, as the
    source does, [-1] for no match included. *)
Definition searchOne (query chat : string) (message : Message)
    : option SearchResult :=
  let lowerQuery := toLowerCase query in
  let lowerContent := toLowerCase (content message) in
  if includes lowerContent lowerQuery then
    let matchIndex : Z :=
      match indexOf lowerContent lowerQuery 0 with
      | Some i => Z.of_nat i
      | None => (-1)%Z
      end in
    let len := Z.of_nat (String.length (content message)) in
    let snippetStart := Z.max 0 (matchIndex - 50) in
    let snippetEnd :=
      Z.min len (matchIndex + Z.of_nat (String.length query) + 50) in
    let snippet :=
      substring (Z.to_nat snippetStart) (Z.to_nat snippetEnd) (content message) in
    let snippet := if (0 <? snippetStart)%Z then "..." +:+ snippet else snippet in
    let snippet := if (snippetEnd <? len)%Z then snippet +:+ "..." else snippet in
    Some (mkSearchResult (id message) chat snippet
            (replace_global (queryPattern query)
                            (fun m => "<mark>" +:+ m +:+ "</mark>") 0 0 snippet)
            (timestamp message) (sender message))
  else None.

Definition searchMessages (messages : list Message) (query chat : string)
    : list SearchResult :=
  if negb (truthy (trim query)) then []
  else omap (searchOne query chat) messages.

Inductive TypeFilter := only (t : MsgType) | all.

(** [FilterOptions]; a number that is absent or NaN is [None]. *)
Record FilterOptions := mkFilterOptions {
  dateStart : option Z;
  dateEnd : option Z;
  filter_sender : option string;      (* [sender] *)
  messageType : option TypeFilter;
  searchQuery : option string;
}.

(** [a < b] and [a > b] on numbers: false when either is NaN. *)
Definition num_lt (a b : option Z) : bool :=
  match a, b with Some x, Some y => (x <? y)%Z | _, _ => false end.
Definition num_gt (a b : option Z) : bool := num_lt b a.

Definition truthy_num (n : option Z) : bool :=
  match n with Some z => negb (z =? 0)%Z | None => false end.

(** The predicate of the [filter] of [filterMessages]. *)
Definition keeps (filters : FilterOptions) (message : Message) : bool :=
  if truthy_num (dateStart filters) && num_lt (timestamp message) (dateStart filters)
  then false
  else if truthy_num (dateEnd filters) && num_gt (timestamp message) (dateEnd filters)
  then false
  else if truthy_opt (filter_sender filters)
          && negb (bool_decide (sender message = filter_sender filters))
  then false
  else if match messageType filters with
          | Some (only t) => negb (bool_decide (type message = t))
          | Some all | None => false
          end
  then false
  else if truthy_opt (searchQuery filters)
          && negb (includes (toLowerCase (content message))
                            (toLowerCase (default "" (searchQuery filters))))
  then false
  else true.

Definition filterMessages (messages : list Message) (filters : FilterOptions)
    : list Message :=
  filter (fun message => keeps filters message = true) messages.

(** [senderSet.add(sender)]: a [Set] keeps the order of insertion. *)
Definition Set_add (acc : list string) (x : string) : list string :=
  if bool_decide (x ∈ acc) then acc else acc ++ [x].

(** [Array.from(senderSet).sort()]: by code units. *)
Definition getSenders (messages : list Message) : list string :=
  merge_sort String.le
    (foldl (fun senderSet message =>
              match sender message with
              | Some s => if truthy s then Set_add senderSet s else senderSet
              | None => senderSet
              end) [] messages).

(** *** The search bar *)

(** A result of the bar. *)
Record BarResult := mkBarResult {
  bar_messageId : string;             (* [messageId] *)
  messageIndex : nat;
  matchText : string;
}.

(** [performSearch(term, msgs, dateFrom, dateTo)], given the two time
    stamps that the dates parse to ([None] for no date given, or a
    date that does not parse). *)
Definition performSearch (term : string) (msgs : list Message)
    (startTimestamp endTimestamp : option Z) : list BarResult :=
  let normalizedTerm := toLowerCase term in
  omap (fun '(index, msg) =>
          if truthy_num startTimestamp && num_lt (timestamp msg) startTimestamp
          then None
          else if truthy_num endTimestamp && num_gt (timestamp msg) endTimestamp
          then None
          else if includes (toLowerCase (content msg)) normalizedTerm
          then Some (mkBarResult (id msg) index term)
          else None)
       (imap (fun index msg => (index, msg)) msgs).

(** The effect of the bar: the value given to [onSearchResults]. *)
Definition barResults (searchTerm : string) (msgs : list Message)
    (startTimestamp endTimestamp : option Z) : list BarResult :=
  if negb (truthy (trim searchTerm)) then []
  else performSearch searchTerm msgs startTimestamp endTimestamp.

(** *** Highlighting *)

(** A piece of the text shown: as it is, or in a [mark] with the key
    [match-index]. *)
Inductive Part := plain (s : string) | marked (index : nat) (s : string).

(** The [while] loop of [highlightText]. *)
Fixpoint highlightLoop (fuel : nat) (text normalizedText normalizedTerm : string)
    (termLength lastIndex : nat) (index : option nat) (parts : list Part)
    : option (list Part * nat) :=
  match index with
  | None => Some (parts, lastIndex)
  | Some index =>
      match fuel with
      | O => None
      | S fuel =>
          let parts :=
            if (lastIndex <? index)%nat
            then parts ++ [plain (substring lastIndex index text)]
            else parts in
          let parts :=
            parts ++ [marked index (substring index (index + termLength) text)] in
          let lastIndex := index + termLength in
          highlightLoop fuel text normalizedText normalizedTerm termLength
                        lastIndex
                        (indexOf normalizedText normalizedTerm lastIndex) parts
      end
  end.

(** What [highlightText] returns: the text itself, or a fragment of
    parts. *)
Inductive Shown := asText (s : string) | fragment (parts : list Part).

Definition highlightText_fuel (fuel : nat) (text : string)
    (searchTerm : option string) : option Shown :=
  match searchTerm with
  | None => Some (asText text)
  | Some searchTerm =>
      if negb (truthy searchTerm) || negb (truthy (trim searchTerm))
      then Some (asText text)
      else
        let normalizedTerm := toLowerCase searchTerm in
        let normalizedText := toLowerCase text in
        '(parts, lastIndex) ←
          highlightLoop fuel text normalizedText normalizedTerm
                        (String.length searchTerm) 0
                        (indexOf normalizedText normalizedTerm 0) [];
        Some (fragment (if (lastIndex <? String.length text)%nat
                        then parts ++ [plain (drop_str lastIndex text)]
                        else parts))
  end.

(** Every round of the loop passes over a character, so one round per
    character is enough. *)
Definition highlightText (text : string) (searchTerm : option string)
    : option Shown :=
  highlightText_fuel (String.length text) text searchTerm.

(** *** Notions the properties are stated with *)

(** The text of a part, and the text a value shows. *)
Definition part_text (p : Part) : string :=
  match p with plain s => s | marked _ s => s end.

Definition shown_text (v : Shown) : string :=
  match v with
  | asText s => s
  | fragment parts => foldr (fun p acc => part_text p +:+ acc) "" parts
  end.

Definition is_marked (p : Part) : bool :=
  match p with marked _ _ => true | plain _ => false end.

Definition marks (v : Shown) : list Part :=
  match v with
  | asText _ => []
  | fragment parts => filter (fun p => is_marked p = true) parts
  end.

(** What holds of the loop of [highlightText] at its head: the parts
    so far show the text up to [lastIndex], and each mark is the
    term, up to case. *)
Definition highlight_inv (text term : string) (lastIndex : nat)
    (parts : list Part) : Prop :=
  lastIndex ≤ String.length text
  ∧ shown_text (fragment parts) = take_str lastIndex text
  ∧ Forall (fun p => is_marked p = true →
                     toLowerCase (part_text p) = toLowerCase term) parts
  ∧ Forall (fun p => part_text p ≠ "") parts.

End Search.

(* ===================================================================== *)
(** ** Sample data *)
(* ===================================================================== *)

Module Examples.
Import JS Types.

Definition msgA : Message :=
  mkMessage "msg-1706778000000-0" (Some 1706778000000%Z) (Some "Alice")
            "Hello" text None None None.
Definition msgB : Message :=
  mkMessage "msg-1706778065000-1" (Some 1706778065000%Z) (Some "Bob")
            "<Media omitted>" media None None None.
Definition msgC : Message :=
  mkMessage "msg-1706778000000-0" (Some 1706778000000%Z) (Some "Alice")
            "Hello again" text None None None.

Definition emptyDB : Storage.DB := Storage.mkDB ∅ ∅ ∅.

(** A store that holds two messages of the chat [chat-1]. *)
Definition storedDB : Storage.DB :=
  foldl (Storage.put_message "chat-1") emptyDB [msgA; msgB].

(** A store that holds one message, of the chat [chat-2]. *)
Definition otherDB : Storage.DB := Storage.put_message "chat-2" emptyDB msgA.

Definition mediaOmitted : Message :=
  mkMessage "msg-1706778065000-0" (Some 1706778065000%Z) (Some "Bob")
            "<Media omitted>" media None None None.
Definition photo : File := mkFile "IMG-20240201-WA0007.jpg" "jpeg bytes".
Definition other : File := mkFile "notes.pdf" "pdf bytes".

(** [mediaOmitted], bound to [photo]. *)
Definition mediaBound : Message :=
  mkMessage "msg-1706778065000-0" (Some 1706778065000%Z) (Some "Bob")
            "<Media omitted>" media None (Some image)
            (Some "IMG-20240201-WA0007.jpg").

(** A photo of another day, and the time its name gives. *)
Definition photoMarch : File := mkFile "IMG-20240305-WA0001.jpg" "jpeg bytes".
Definition marchStamp : Z :=
  Eval vm_compute in
    default 0%Z (MediaMatcher.extractTimestampFromFilename "IMG-20240305-WA0001.jpg").

(** A page without object URLs, and a world with an empty database
    at the first reading of a clock. *)
Definition emptyBrowser : MediaUrls.Browser := MediaUrls.mkBrowser 0 [].
Definition freshWorld : UseImport.World :=
  UseImport.mkWorld emptyDB emptyBrowser 0.
Definition sampleClock (n : nat) : Z := (1700000000000 + Z.of_nat n)%Z.
Definition sampleType (f : File) : string := "image/jpeg".

(** A reader that loads every file after one progress event, and a
    store that refuses nothing. *)
Definition sampleReader (f : File) : Parser.Reader :=
  Parser.mkReader
    [Parser.mkProgressEvent true (String.length (bytes f))
                            (String.length (bytes f))]
    false.
Definition roomy (q : UseImport.Request) (d : Storage.DB) : bool := false.

(** A file that the correlator dates to the first of February 2024,
    with an extension that the table of media types inherits. *)
Definition oddPhoto : File :=
  mkFile "IMG-20240201-WA0007.constructor" "bytes".

(** An export with one media message. *)
Definition chatMedia : File :=
  mkFile "WhatsApp Chat with Bob.txt" "[01/02/24, 09:01:05] Bob: <Media omitted>".

(** An export of eleven messages of one minute, and its parse. *)
Definition elevenChat : File :=
  mkFile "WhatsApp Chat with Alice.txt"
         (join Parser.LF (replicate 11 "[01/02/24, 09:00:00] Alice: hi")).
Definition elevenParse : Parser.ParseResult :=
  Eval vm_compute in
    default (Parser.mkParseResult [] "" false)
            (fst <$> Parser.parseWhatsAppChat elevenChat).
Definition tenth : Message :=
  Eval vm_compute in default msgA (Parser.messages elevenParse !! 9).
Definition eleventh : Message :=
  Eval vm_compute in default msgA (Parser.messages elevenParse !! 10).

(** A file of the kind desktops leave in folders. *)
Definition thumbs : File := mkFile "Thumbs.db" "cache".

(** A chat export of more than 10000 bytes that ends in [tail]. *)
Definition longChat (tail : string) : File :=
  mkFile "chat.txt"
         ("[01/02/24, 09:00:00] Alice: "
          +:+ String.string_of_list_ascii (replicate 10000 "x"%char) +:+ tail).

(** Three messages of a chat, and what a search for [hello] finds
    second. *)
Definition greetings : list Message :=
  [mkMessage "msg-1706778000000-0" (Some 1706778000000%Z) (Some "Alice")
             "Hello Bob" text None None None;
   mkMessage "msg-1706778000000-1" (Some 1706778060000%Z) (Some "Bob")
             "Fine, thanks" text None None None;
   mkMessage "msg-1706778000000-2" (Some 1706778120000%Z) (Some "Alice")
             "I said HELLO" text None None None].

End Examples.

(* ===================================================================== *)
(** * Properties *)
(* ===================================================================== *)

(** ** The matcher *)

Module RegexFacts.
Import JS Regex.

Section Star.
Variable m : nat → string → captures → kont → option (nat * captures).
Hypothesis m_mono : ∀ pos s c k1 k2, covers k1 k2 →
  is_Some (m pos s c k1) → is_Some (m pos s c k2).

Lemma star_loop_mono k1 k2 n :
  covers k1 k2 → covers (star_loop m k1 n) (star_loop m k2 n).
Proof.
  intros Hk. induction n as [|n IHn]; intros pos s c; simpl.
  - destruct (m pos s c _); [done|apply Hk].
  - intros H1.
    destruct (m pos s c (fun pos' s' c' =>
                if pos <? pos' then star_loop m k2 n pos' s' c' else None)) eqn:E2;
      [done|].
    destruct (m pos s c (fun pos' s' c' =>
                if pos <? pos' then star_loop m k1 n pos' s' c' else None)) eqn:E1.
    + assert (is_Some (@None (nat * captures))) as [? ?]; [|done].
      rewrite <- E2. eapply m_mono; [|by rewrite E1].
      intros pos' s' c'. destruct (pos <? pos'); [apply IHn|done].
    + by apply Hk.
Qed.
End Star.

Lemma star_loop_total m k n : total k → total (star_loop m k n).
Proof.
  intros Hk pos s c. destruct n; simpl; destruct (m pos s c _); eauto.
Qed.

(** Matching is monotone in the continuation: what follows a pattern
    may only make the match fail, never succeed. *)
Lemma rmatch_mono r :
  ∀ pos s c k1 k2, covers k1 k2 →
    is_Some (rmatch r pos s c k1) → is_Some (rmatch r pos s c k2).
Proof.
  induction r as [| | |p|r1 IH1 r2 IH2|r1 IH1 r2 IH2|r1 IH1|i r1 IH1];
    intros pos s c k1 k2 Hk; simpl.
  - destruct (pos =? 0); [apply Hk|done].
  - destruct s; [apply Hk|done].
  - apply Hk.
  - destruct s as [|a s]; [done|]. destruct (p a); [apply Hk|done].
  - apply IH1. intros pos' s' c'. by apply IH2.
  - intros H1.
    destruct (rmatch r1 pos s c k2) eqn:E2; [done|].
    destruct (rmatch r1 pos s c k1) eqn:E1.
    + assert (is_Some (rmatch r1 pos s c k2)) as [? ?]
        by (eapply IH1; [done|by rewrite E1]). congruence.
    + by eapply IH2.
  - by apply star_loop_mono.
  - apply IH1. intros pos' s' c'. apply Hk.
Qed.

(** [r?] and [r*] cannot fail in front of a continuation that cannot. *)
Lemma opt_total r k : total k → total (fun pos s c => rmatch (opt r) pos s c k).
Proof.
  intros Hk pos s c. simpl. destruct (rmatch r pos s c k); eauto.
Qed.

Lemma star_total r k : total k → total (fun pos s c => rmatch (RStar r) pos s c k).
Proof. intros Hk pos s c. simpl. by apply star_loop_total. Qed.

Lemma seq_total r1 r2 k :
  (∀ k', total k' → total (fun pos s c => rmatch r1 pos s c k')) →
  total (fun pos s c => rmatch r2 pos s c k) →
  total (fun pos s c => rmatch (RSeq r1 r2) pos s c k).
Proof. intros H1 H2 pos s c. simpl. by apply (H1 _ H2). Qed.

(** Two sequences with a common head: if the tail of the second
    succeeds wherever the tail of the first does, so does the whole. *)
Lemma seq_head_mono r t1 t2 k1 k2 :
  covers (fun pos s c => rmatch t1 pos s c k1) (fun pos s c => rmatch t2 pos s c k2) →
  covers (fun pos s c => rmatch (RSeq r t1) pos s c k1)
         (fun pos s c => rmatch (RSeq r t2) pos s c k2).
Proof. intros Ht pos s c. simpl. by apply rmatch_mono. Qed.

Lemma exec_at_is_Some r pos s :
  is_Some (exec_at r pos s)
  ↔ is_Some (rmatch r pos s (replicate (S (ngroups r)) None) final).
Proof.
  unfold exec_at. destruct (rmatch r pos s _ final) as [[pos' c]|]; [|done].
  split; eauto.
Qed.

(** A pattern that matches at every position where another one does
    is found by [s.match] whenever the other is. *)
Lemma str_match_covers r1 r2 :
  (∀ pos s, is_Some (exec_at r1 pos s) → is_Some (exec_at r2 pos s)) →
  ∀ s, is_Some (str_match r1 s) → is_Some (str_match r2 s).
Proof.
  intros Hexec s. unfold str_match. generalize 0.
  induction s as [|a s IH]; intros pos; simpl.
  - destruct (exec_at r1 pos "") eqn:E1; [|by intros [? ?]].
    intros _. destruct (Hexec pos "") as [? ->]; by rewrite ?E1.
  - destruct (exec_at r1 pos (String a s)) eqn:E1.
    + intros _. destruct (Hexec pos (String a s)) as [? ->]; by rewrite ?E1.
    + intros H. destruct (exec_at r2 pos (String a s)); [done|]. by apply IH.
Qed.

End RegexFacts.

(** ** The chunked loop *)

Module ChunkFacts.
Import Chunk.

Section Invariant.
Context {St : Type} (I : nat → St → Prop).
Variables (CHUNK_SIZE len : nat) (body : nat → nat → St → St).
Hypothesis positive : 1 ≤ CHUNK_SIZE.
Hypothesis step : ∀ s st, s < len → I s st →
  I (Nat.min (s + CHUNK_SIZE) len) (body s (Nat.min (s + CHUNK_SIZE) len) st).

(** With a positive chunk size the loop ends within [len - start]
    rounds, and an invariant indexed by the number of items
    processed holds at [len] when it does. *)
Lemma chunkLoop_inv fuel start st :
  len - start ≤ fuel → I (Nat.min start len) st →
  ∃ st', chunkLoop fuel CHUNK_SIZE len body start st = Some st' ∧ I len st'.
Proof.
  revert start st.
  induction fuel as [|fuel IH]; intros start st Hfuel HI; simpl.
  - destruct (Nat.ltb_spec start len) as [Hlt|Hge]; [lia|].
    rewrite Nat.min_r in HI by lia. eauto.
  - destruct (Nat.ltb_spec start len) as [Hlt|Hge].
    + apply IH; [lia|].
      rewrite Nat.min_l in HI by lia.
      by apply step.
    + rewrite Nat.min_r in HI by lia. eauto.
Qed.
End Invariant.

Lemma take_slice {A} (l : list A) s e :
  s ≤ e → take e l = take s l ++ slice s e l.
Proof.
  intros Hse. unfold slice.
  rewrite take_take_drop. f_equal. lia.
Qed.

(** A loop whose body folds [f] over its slice of the items folds
    [f] over all of them, whatever the chunk size. *)
Lemma chunkLoop_foldl {A St} (f : St → A → St) (items : list A) C fuel st :
  1 ≤ C → length items ≤ fuel →
  chunkLoop fuel C (length items)
            (fun s e st => foldl f st (slice s e items)) 0 st
  = Some (foldl f st items).
Proof.
  intros HC Hfuel.
  destruct (chunkLoop_inv (fun p st' => st' = foldl f st (take p items))
              C (length items) (fun s e st => foldl f st (slice s e items))
              HC) with (fuel := fuel) (start := 0) (st := st)
    as (st' & -> & ->); [| lia | done |].
  - intros s st0 Hs ->.
    rewrite (take_slice items s (Nat.min (s + C) (length items))) by lia.
    by rewrite foldl_app.
  - by rewrite take_ge.
Qed.

End ChunkFacts.

(** ** Chunked persistence *)

Module StorageFacts.
Import Types Chunk ChunkFacts Storage.

Lemma nondecreasing_snoc (l : list nat) (e : nat) :
  nondecreasing l → Forall (fun x => x ≤ e) l → nondecreasing (l ++ [e]).
Proof.
  intros Hl Hall i j x y Hij Hi Hj.
  destruct (decide (j < length l)) as [Hjl|Hjl].
  - rewrite lookup_app_l in Hi by lia. rewrite lookup_app_l in Hj by lia.
    eauto.
  - rewrite lookup_app_r in Hj by lia.
    destruct (j - length l) as [|n] eqn:Hn; simplify_eq/=.
    destruct (decide (i < length l)) as [Hil|Hil].
    + rewrite lookup_app_l in Hi by lia.
      rewrite Forall_lookup in Hall. eauto.
    + rewrite lookup_app_r in Hi by lia.
      destruct (i - length l) as [|m] eqn:Hm; simplify_eq/=. lia.
Qed.

Lemma log_inv_snoc total p e log :
  p ≤ e → 0 < e → log_inv total p log → log_inv total e (log ++ [(e, total)]).
Proof.
  intros Hpe He (Hall & Hmono & Hlast & Hne). repeat split.
  - apply Forall_app. split.
    + eapply Forall_impl; [done|]. intros q [??]; simpl. split; [lia|done].
    + by repeat constructor.
  - rewrite fmap_app. apply nondecreasing_snoc; [done|].
    apply Forall_fmap. eapply Forall_impl; [done|]. intros q [??]; simpl. lia.
  - intros q. rewrite last_snoc. congruence.
  - intros _. by destruct log.
Qed.

(** The store after a completed [saveMessages] is the sequence of
    [put]s, whatever the chunk size; the callback log satisfies
    [log_inv]. *)
Lemma saveMessages_with_spec C fuel msgs chat db :
  1 ≤ C → length msgs ≤ fuel →
  ∃ log, saveMessages_with C fuel msgs chat db
           = Some (foldl (put_message chat) db msgs, log)
         ∧ log_inv (length msgs) (length msgs) log.
Proof.
  intros HC Hfuel. unfold saveMessages_with.
  destruct (chunkLoop_inv
              (fun p (r : Run) =>
                 r.1 = foldl (put_message chat) db (take p msgs)
                 ∧ log_inv (length msgs) p r.2)
              C (length msgs) (saveChunk msgs chat) HC)
    with (fuel := fuel) (start := 0) (st := ((db, []) : Run))
    as ([db' log] & Hrun & Hdb & Hlog).
  - intros s [db0 log0] Hs [Hdb Hlog]; simpl in *. split.
    + rewrite (take_slice msgs s (Nat.min (s + C) (length msgs))) by lia.
      by rewrite foldl_app, Hdb.
    + apply (log_inv_snoc _ s); [lia..|done].
  - lia.
  - simpl. split; [done|]. repeat split; try done. lia.
  - simpl in *. rewrite take_ge in Hdb by done. subst db'. eauto.
Qed.

Lemma messageIdsOf_chats chat cs db :
  messageIdsOf chat (mkDB cs (messages db) (media db)) = messageIdsOf chat db.
Proof. done. Qed.

Lemma deleteChat_with_spec C fuel chat db :
  1 ≤ C → length (messageIdsOf chat db) ≤ fuel →
  ∃ db' log, deleteChat_with C fuel chat db = Some (db', log)
             ∧ (log = [] ∧ messageIdsOf chat db = []
                ∨ log_inv (length (messageIdsOf chat db))
                          (length (messageIdsOf chat db)) log).
Proof.
  intros HC Hfuel. unfold deleteChat_with.
  rewrite messageIdsOf_chats.
  set (ids := messageIdsOf chat db) in *.
  destruct (Nat.eqb_spec (length ids) 0) as [H0|H0].
  { eexists _, []. split; [done|]. left. split; [done|]. by destruct ids. }
  destruct (chunkLoop_inv
              (fun p (r : Run) => log_inv (length ids) p r.2)
              C (length ids) (deleteBatch ids) HC)
    with (fuel := fuel) (start := 0)
         (st := ((mkDB (delete chat (chats db)) (messages db) (media db),
                  [(0, length ids)]) : Run))
    as ([db' log] & Hrun & Hlog).
  - intros s [db0 log0] Hs Hlog; simpl in *.
    apply (log_inv_snoc _ s); [lia..|done].
  - lia.
  - simpl. repeat split.
    + by repeat constructor.
    + intros i j x y Hij Hi Hj.
      destruct i, j; simplify_eq/=; [done|..];
        by rewrite ?lookup_nil in *.
    + intros q. simpl. congruence.
    + done.
  - eauto.
Qed.

(** C3. Running [saveMessages] to completion with two chunk sizes, each
    at least 1, on the same records, chat and store ends in the same
    store: the store in which every record was [put] in order. *)
Theorem saveMessages_chunk_size_irrelevant (size1 size2 : nat)
    (msgs : list Message) (chat : string) (db : DB) :
  1 ≤ size1 → 1 ≤ size2 →
  ∃ db' log1 log2,
    saveMessages_with size1 (length msgs) msgs chat db = Some (db', log1)
    ∧ saveMessages_with size2 (length msgs) msgs chat db = Some (db', log2)
    ∧ db' = foldl (put_message chat) db msgs.
Proof.
  intros H1 H2.
  destruct (saveMessages_with_spec size1 (length msgs) msgs chat db H1)
    as (log1 & Hr1 & _); [done|].
  destruct (saveMessages_with_spec size2 (length msgs) msgs chat db H2)
    as (log2 & Hr2 & _); [done|].
  eauto 10.
Qed.

(** C6. In every run of [saveMessages] and of [deleteChat] the
    processed values handed to the progress callback never decrease,
    every call carries the same total, the last call reports
    processed = total, and a call is made whenever there is a record
    to process. *)
Theorem progress_monotone_and_final (msgs : list Message) (chat : string)
    (db : DB) :
  (∃ db' log,
      saveMessages msgs chat db = Some (db', log)
      ∧ nondecreasing log.*1
      ∧ (∀ q, last log = Some q → q.1 = q.2 ∧ q.2 = length msgs)
      ∧ (msgs ≠ [] → log ≠ []))
  ∧ (∃ db' log,
      deleteChat chat db = Some (db', log)
      ∧ nondecreasing log.*1
      ∧ (∀ q, last log = Some q →
              q.1 = q.2 ∧ q.2 = length (messageIdsOf chat db))
      ∧ (messageIdsOf chat db ≠ [] → log ≠ [])).
Proof.
  split.
  - destruct (saveMessages_with_spec CHUNK_SIZE (length msgs) msgs chat db)
      as (log & Hrun & _ & Hmono & Hlast & Hne);
      [by apply Nat.leb_le; vm_compute | done |].
    eexists _, log. split; [exact Hrun|]. split; [done|]. split.
    + intros q Hq. by rewrite (Hlast q Hq).
    + intros Hm. apply Hne. destruct msgs; [done|simpl; lia].
  - destruct (deleteChat_with_spec BATCH_SIZE
                (length (messageIdsOf chat db)) chat db)
      as (db' & log & Hrun & Hcases); [by apply Nat.leb_le; vm_compute | done |].
    exists db', log. split; [exact Hrun|].
    destruct Hcases as [[-> Hids]|(_ & Hmono & Hlast & Hne)].
    + split; [intros i j x y _ Hi; simpl in Hi; by rewrite lookup_nil in Hi|].
      split; [done|]. by rewrite Hids.
    + split; [done|]. split.
      * intros q Hq. by rewrite (Hlast q Hq).
      * intros Hm. apply Hne.
        destruct (messageIdsOf chat db); [done|simpl; lia].
Qed.

End StorageFacts.

(** ** The log parser *)

Module ParserFacts.
Import JS Regex RegexFacts Types Chunk ChunkFacts Parser.

Lemma senders_app l1 l2 : senders (l1 ++ l2) = senders l1 ∪ senders l2.
Proof. unfold senders. by rewrite omap_app, list_to_set_app_L. Qed.

Lemma senders_set_content m c : senders [set_content m c] = senders [m].
Proof. done. Qed.

Lemma senders_singleton m :
  senders [m] = match sender m with Some s => {[s]} | None => ∅ end.
Proof.
  unfold senders; simpl. destruct (sender m); simpl.
  - apply (right_id_L ∅ (∪)).
  - done.
Qed.

Lemma senders_snoc l m :
  senders (l ++ [m])
  = match sender m with Some s => {[s]} ∪ senders l | None => senders l end.
Proof.
  rewrite senders_app, senders_singleton. destruct (sender m).
  - apply (comm_L (∪)).
  - apply (right_id_L ∅ (∪)).
Qed.

Lemma senders_closed l cur c :
  senders (l ++ [set_content cur c]) = senders (l ++ option_list (Some cur)).
Proof. by rewrite !senders_app. Qed.

Lemma processLine_senders st raw :
  senders_inv st → senders_inv (processLine st raw).
Proof.
  unfold senders_inv, processLine. intros Hst.
  destruct (truthy (trim raw)); simpl.
  - destruct (tryParseMessageLine (trim raw)) as [[timestamp remainder]|].
    + destruct (Regex.str_match SENDER remainder) as [senderMatch|]; simpl;
        rewrite senders_snoc; simpl; rewrite Hst;
        destruct (currentMessage st) as [cur|]; simpl;
        by rewrite ?senders_closed, ?app_nil_r.
    + destruct (currentMessage st) as [cur|] eqn:Hcur; simpl;
        [|by rewrite Hcur].
      by rewrite Hst, !senders_app.
  - destruct (currentMessage st) as [cur|] eqn:Hcur; simpl;
      [|by rewrite Hcur].
    by rewrite Hst, !senders_app.
Qed.

Lemma foldl_processLine_senders lines st :
  senders_inv st → senders_inv (foldl processLine st lines).
Proof.
  revert st. induction lines as [|l lines IH]; intros st Hst; simpl; [done|].
  by apply IH, processLine_senders.
Qed.

(** The parser always completes: the line loop ends, in a state that
    satisfies the invariant. *)
Lemma parseLoop_total text :
  ∃ st, parseLoop (length (split (ascii_of_nat 10) text)) text = Some st
        ∧ senders_inv st.
Proof.
  unfold parseLoop.
  destruct (chunkLoop_inv (fun _ st => senders_inv st) CHUNK_SIZE
              (length (split (ascii_of_nat 10) text))
              (processChunk (split (ascii_of_nat 10) text)))
    with (fuel := length (split (ascii_of_nat 10) text)) (start := 0)
         (st := report (mkProgress (length (split (ascii_of_nat 10) text)) 0 parsing)
                       (mkState [] None ∅ []))
    as (st & Hrun & Hinv); eauto.
  - by apply Nat.leb_le; vm_compute.
  - intros s st _ Hst. unfold processChunk, report, senders_inv; simpl.
    by apply foldl_processLine_senders.
  - lia.
  - done.
Qed.

(** What a line adds to the senders seen. *)
Lemma processLine_senderSet st raw :
  senderSet (processLine st raw)
  = match sender_of raw with
    | Some s => {[s]} ∪ senderSet st
    | None => senderSet st
    end.
Proof.
  unfold processLine, sender_of. cbv zeta.
  destruct (truthy (trim raw)); cbn [negb].
  - destruct (tryParseMessageLine (trim raw)) as [[timestamp remainder]|].
    + by destruct (Regex.str_match SENDER remainder).
    + by destruct (currentMessage st).
  - by destruct (currentMessage st).
Qed.

Lemma foldl_processLine_senderSet lines st :
  senderSet (foldl processLine st lines) = named_senders lines ∪ senderSet st.
Proof.
  unfold named_senders.
  revert st. induction lines as [|l lines IH]; intros st; cbn [foldl].
  - cbn [omap list_omap list_to_set]. by rewrite (left_id_L ∅ (∪)).
  - rewrite IH, processLine_senderSet. cbn [omap list_omap].
    destruct (sender_of l) as [x|]; [|done].
    cbn [list_to_set].
    by rewrite (assoc_L (∪)), (comm_L (∪) _ {[x]}).
Qed.

Lemma named_senders_app l1 l2 :
  named_senders (l1 ++ l2) = named_senders l1 ∪ named_senders l2.
Proof. unfold named_senders. rewrite omap_app. apply list_to_set_app_L. Qed.

(** The line loop ends, and the senders it has then seen are those the
    lines of the text name. *)
Lemma parseLoop_senders text :
  ∃ st, parseLoop (length (split (ascii_of_nat 10) text)) text = Some st
        ∧ senders_inv st
        ∧ senderSet st = named_senders (split (ascii_of_nat 10) text).
Proof.
  unfold parseLoop.
  set (lines := split (ascii_of_nat 10) text).
  destruct (chunkLoop_inv
              (fun p st => senders_inv st
                           ∧ senderSet st = named_senders (take p lines))
              CHUNK_SIZE (length lines) (processChunk lines))
    with (fuel := length lines) (start := 0)
         (st := report (mkProgress (length lines) 0 parsing) (mkState [] None ∅ []))
    as (st & Hrun & Hinv & Hset).
  - by apply Nat.leb_le; vm_compute.
  - intros s st Hs [Hst Hset]. split.
    + unfold processChunk, report, senders_inv; simpl.
      by apply foldl_processLine_senders.
    + unfold processChunk, report. cbn [senderSet].
      rewrite foldl_processLine_senderSet, Hset.
      rewrite (take_slice lines s (Nat.min (s + CHUNK_SIZE) (length lines)))
        by lia.
      rewrite named_senders_app. apply (comm_L (∪)).
  - lia.
  - done.
  - exists st. split; [done|]. split; [done|]. by rewrite take_ge in Hset.
Qed.

(** C9. Every parse completes, and its [isGroup] flag is true exactly
    when more than two distinct senders were accumulated from the
    message lines that carry a sender.  The set accumulated is the set
    of the senders that the lines of the text name, a line naming a
    sender when it opens a message and has the form [sender: text]
    after its time stamp; and it is the set of senders of the messages
    returned. *)
Theorem isGroup_iff_more_than_two_senders (file : File) :
  ∃ r st,
    parseWhatsAppChat file = Some (r, st)
    ∧ (isGroup r = true ↔ 2 < size (senderSet st))
    ∧ senderSet st = senders (messages r)
    ∧ senderSet st = named_senders (split (ascii_of_nat 10) (bytes file))
    ∧ (isGroup r = true
       ↔ 2 < size (named_senders (split (ascii_of_nat 10) (bytes file)))).
Proof.
  unfold parseWhatsAppChat, parseWhatsAppChat_fuel.
  destruct (parseLoop_senders (bytes file)) as (st & -> & Hinv & Hset). simpl.
  eexists _, _. split; [done|]. simpl. split_and!.
  - by rewrite bool_decide_eq_true.
  - rewrite Hinv.
    destruct (currentMessage st); simpl;
      [by rewrite senders_closed | by rewrite app_nil_r].
  - done.
  - by rewrite bool_decide_eq_true, Hset.
Qed.

(** Three senders make a group, two do not. *)
Example three_senders_make_a_group :
  isGroup <$> (fst <$> parseWhatsAppChat
                 (mkFile "chat.txt"
                    ("[01/02/24, 09:00:00] Alice: a" +:+ LF +:+
                     "[01/02/24, 09:01:00] Bob: b" +:+ LF +:+
                     "[01/02/24, 09:02:00] Carol: c" +:+ LF +:+
                     "[01/02/24, 09:03:00] Alice: d")))
  = Some true
  ∧ isGroup <$> (fst <$> parseWhatsAppChat
                   (mkFile "chat.txt"
                      ("[01/02/24, 09:00:00] Alice: a" +:+ LF +:+
                       "[01/02/24, 09:01:00] Bob: b" +:+ LF +:+
                       "[01/02/24, 09:03:00] Alice: d")))
    = Some false.
Proof. by vm_compute. Qed.

(** C4. The three example lines parse to exactly two messages:
    "Hello", a line feed, "there" from Alice, of kind text; then a
    media message from Bob without a bound file name. *)
Theorem example_parse :
  fst <$> parseWhatsAppChat (mkFile "chat.txt" example_lines)
  = Some (mkParseResult
            [ mkMessage "msg-1706778000000-0" (Some 1706778000000%Z)
                        (Some "Alice") ("Hello" +:+ LF +:+ "there")
                        text None None None;
              mkMessage "msg-1706778065000-1" (Some 1706778065000%Z)
                        (Some "Bob") "<Media omitted>"
                        media None None None ]
            "chat" false).
Proof. by vm_compute. Qed.

(** C1, on the code: a bracketed 12-hour header is taken by the first
    (24-hour) pattern, which stops before AM/PM, so the hour is not
    normalised: 12:15 AM yields hour 12 (not 0) and 11:59 PM yields
    hour 11 (not 23); only 12:15 PM comes out as the claim says. *)
Theorem am_pm_not_normalised :
  header_clock "[1/2/24, 12:15 AM] Alice: hi" = Some (12, 15)%Z
  ∧ header_clock "[1/2/24, 11:59 PM] Alice: hi" = Some (11, 59)%Z
  ∧ header_clock "[1/2/24, 12:15 PM] Alice: hi" = Some (12, 15)%Z
  ∧ (snd <$> tryParseMessageLine "[1/2/24, 12:15 AM] Alice: hi")
    = Some "AM] Alice: hi".
Proof. by vm_compute. Qed.

(** The branch of [parseTimestamp] for the second pattern does
    normalise, when it is handed a match of that pattern. *)
Lemma am_pm_branch_normalises :
  (m ← Regex.str_match (default Regex.REmpty (TIMESTAMP_PATTERNS !! 1))
                       "[1/2/24, 11:59 PM] Alice: hi";
   t ← parseTimestamp m 1;
   Some (getHours t, getMinutes t))
  = Some (23, 59)%Z.
Proof. by vm_compute. Qed.

(** The tail of the first pattern is optional throughout, so the first
    pattern matches wherever the second (AM/PM) pattern does. *)
Lemma pattern0_covers_pattern1 :
  covers
    (fun pos s c =>
       rmatch (default REmpty (TIMESTAMP_PATTERNS !! 1)) pos s c final)
    (fun pos s c =>
       rmatch (default REmpty (TIMESTAMP_PATTERNS !! 0)) pos s c final).
Proof.
  cbn [TIMESTAMP_PATTERNS lookup list_lookup default date_time app rseq].
  do 12 apply seq_head_mono.
  intros pos s c _. revert pos s c.
  apply seq_total; [intros; by apply opt_total|].
  apply seq_total; [intros; by apply opt_total|].
  apply seq_total; [intros; by apply star_total|].
  apply seq_total; [intros; by apply opt_total|].
  apply star_total. by intros ???.
Qed.

(** No line reaches the AM/PM branch of [parseTimestamp]: a line the
    second pattern matches is matched by the first, which the loop of
    [tryParseMessageLine] tries before it, and is parsed as a 24-hour
    header. *)
Lemma am_pm_pattern_shadowed (line : string) :
  is_Some (str_match (default REmpty (TIMESTAMP_PATTERNS !! 1)) line) →
  ∃ m, str_match (default REmpty (TIMESTAMP_PATTERNS !! 0)) line = Some m
       ∧ tryParseMessageLine line
         = Some (parseTimestamp m 0,
                 drop_str (String.length (default "" (group m 0))) line).
Proof.
  intros H.
  apply (str_match_covers _ (default REmpty (TIMESTAMP_PATTERNS !! 0))) in H
    as [m Hm].
  - exists m. split; [done|].
    unfold tryParseMessageLine.
    change TIMESTAMP_PATTERNS
      with (default REmpty (TIMESTAMP_PATTERNS !! 0) :: tail TIMESTAMP_PATTERNS).
    cbn [tryPatterns]. by rewrite Hm.
  - intros pos s. rewrite !exec_at_is_Some.
    apply pattern0_covers_pattern1.
Qed.

End ParserFacts.

(** ** Intake validation *)

Module ValidationFacts.
Import JS Types Validation.

Lemma classify_txtFiles acc file :
  txtFiles (classify acc file)
  = txtFiles acc ++ (if is_txt file then [file] else []).
Proof.
  unfold classify, is_txt.
  destruct (String.eqb (getFileExtension (name file)) "txt"); simpl; [done|].
  rewrite app_nil_r.
  repeat (match goal with |- context [if ?b then _ else _] => destruct b end;
          simpl); done.
Qed.

(** The loop keeps the text files in the order of the file list. *)
Lemma foldl_classify_txtFiles files acc :
  txtFiles (foldl classify acc files)
  = txtFiles acc ++ filter (fun f => is_txt f = true) files.
Proof.
  revert acc. induction files as [|f files IH]; intros acc; simpl.
  - by rewrite app_nil_r.
  - rewrite IH, classify_txtFiles.
    destruct (is_txt f) eqn:Hf.
    + rewrite filter_cons_True by done. by rewrite <- app_assoc.
    + rewrite filter_cons_False by (by rewrite Hf). by rewrite app_nil_r.
Qed.

(** C7 as stated fails: given b.txt before a.txt, both well-formed,
    [validateFolder] settles on b.txt, not on the alphabetically
    first a.txt. *)
Lemma validateFolder_not_alphabetical :
  1 < length (filter (fun f => is_txt f = true) [chatB; chatA])
  ∧ valid (validateFolder [chatB; chatA]) = true
  ∧ (details (validateFolder [chatB; chatA]) ≫= txtFile) = Some chatB
  ∧ spec_chat_file [chatB; chatA] = Some chatA
  ∧ (details (validateFolder [chatB; chatA]) ≫= txtFile)
    ≠ spec_chat_file [chatB; chatA].
Proof. by vm_compute. Qed.

(** C7, amended. When a file list holds more than one text file,
    [validateFolder] takes the first of them in the order of the
    list: that file is the one validated, the warning names it, and
    it is the chat file of a valid verdict. *)
Theorem validateFolder_uses_first_txt (files : list File) (first : File)
    (others : list File) :
  filter (fun f => is_txt f = true) files = first :: others →
  others ≠ [] →
  ("Found " +:+ pretty (S (length others)) +:+
     " .txt files - will use the first one: " +:+ name first)
    ∈ warnings (validateFolder files)
  ∧ valid (validateFolder files) = valid (validateTextFile first default_options)
  ∧ (valid (validateFolder files) = true →
     (details (validateFolder files) ≫= txtFile) = Some first).
Proof.
  intros Htxt Hothers. unfold validateFolder.
  destruct files as [|f0 files0]; [done|].
  set (files := f0 :: files0) in *.
  replace (length files =? 0) with false by done.
  rewrite foldl_classify_txtFiles, Htxt. simpl.
  replace (1 <? S (length others)) with true
    by (destruct others; [done|by symmetry; apply Nat.ltb_lt; simpl; lia]).
  destruct (valid (validateTextFile first default_options)); simpl.
  - split; [|done].
    repeat (match goal with |- context [if ?b then _ else _] => destruct b end);
      simpl; rewrite !elem_of_app, !list_elem_of_singleton; auto.
  - split; [|done].
    rewrite !elem_of_app, !list_elem_of_singleton; auto.
Qed.

Lemma signature_bytes (b0 b1 b2 b3 : ascii) :
  (N_of_ascii b0 + 256 * N_of_ascii b1 + 65536 * N_of_ascii b2
   + 16777216 * N_of_ascii b3)%N = ZIP_SIGNATURE →
  String b0 (String b1 (String b2 (String b3 ""))) = ZIP_MAGIC.
Proof.
  intros H.
  pose proof (N_ascii_bounded b0) as B0. pose proof (N_ascii_bounded b1) as B1.
  pose proof (N_ascii_bounded b2) as B2. pose proof (N_ascii_bounded b3) as B3.
  unfold ZIP_SIGNATURE in H.
  assert (N_of_ascii b0 = 80 ∧ N_of_ascii b1 = 75
          ∧ N_of_ascii b2 = 3 ∧ N_of_ascii b3 = 4)%N as (E0 & E1 & E2 & E3) by lia.
  rewrite <- (ascii_N_embedding b0), <- (ascii_N_embedding b1),
          <- (ascii_N_embedding b2), <- (ascii_N_embedding b3).
  by rewrite E0, E1, E2, E3.
Qed.

(** C8 as stated fails on archives shorter than four bytes: the
    one-byte file is rejected, but as a failed read. *)
Lemma short_zip_other_message :
  endsWith (toLowerCase "a.zip") ".zip" = true
  ∧ File_size (mkFile "a.zip" "P") ≠ 0%N
  ∧ take_str 4 (bytes (mkFile "a.zip" "P")) ≠ ZIP_MAGIC
  ∧ validateZipFile (mkFile "a.zip" "P")
    = invalid "Failed to read ZIP file: Offset is outside the bounds of the DataView"
              [] zip
  ∧ error (validateZipFile (mkFile "a.zip" "P"))
    ≠ Some "File is not a valid ZIP archive".
Proof. by vm_compute. Qed.

(** The verdict of [validateZipFile] is a function of the name, of
    whether the file is empty and of the first four bytes: nothing
    behind the header is read. *)
Lemma validateZipFile_header_only (f g : File) :
  name f = name g → take_str 4 (bytes f) = take_str 4 (bytes g) →
  validateZipFile f = validateZipFile g.
Proof.
  intros Hn Hb. unfold validateZipFile, readFileHeader, File_size.
  rewrite Hn, Hb.
  assert ((N.of_nat (String.length (bytes f)) =? 0)%N
          = (N.of_nat (String.length (bytes g)) =? 0)%N) as ->; [|done].
  destruct (bytes f), (bytes g); simplify_eq/=; done.
Qed.

(** C8, amended. A nonempty file named .zip whose first four bytes are
    not 50 4B 03 04 gets an invalid verdict: with 'File is not a valid
    ZIP archive' when it has at least four bytes, as a failed read
    when it is shorter.  The verdict is the same for every file of that
    name with those first bytes, so no content is extracted. *)
Theorem zip_bad_signature_rejected (file : File) :
  endsWith (toLowerCase (name file)) ".zip" = true →
  File_size file ≠ 0%N →
  take_str 4 (bytes file) ≠ ZIP_MAGIC →
  valid (validateZipFile file) = false
  ∧ fileType (validateZipFile file) = zip
  ∧ ((4 ≤ File_size file)%N →
     validateZipFile file = invalid "File is not a valid ZIP archive" [] zip)
  ∧ ((File_size file < 4)%N →
     validateZipFile file
     = invalid ("Failed to read ZIP file: " +:+ RangeError_message) [] zip)
  ∧ ∀ g, name g = name file → take_str 4 (bytes g) = take_str 4 (bytes file) →
         validateZipFile g = validateZipFile file.
Proof.
  intros Hname Hsize Hsig.
  assert (validateZipFile file
          = if (4 <=? File_size file)%N
            then invalid "File is not a valid ZIP archive" [] zip
            else invalid ("Failed to read ZIP file: " +:+ RangeError_message) [] zip)
    as Hv.
  { unfold validateZipFile, readFileHeader, File_size in *. rewrite Hname. simpl.
    destruct (bytes file) as [|b0 [|b1 [|b2 [|b3 rest]]]]; simpl in *; try done.
    destruct (N.eqb_spec
                (N_of_ascii b0 + 256 * N_of_ascii b1 + 65536 * N_of_ascii b2
                 + 16777216 * N_of_ascii b3) ZIP_SIGNATURE) as [Heq|Hne]; simpl.
    - by apply signature_bytes in Heq.
    - destruct (N.leb_spec 4 (N.of_nat (S (S (S (S (String.length rest)))))));
        [done|lia]. }
  split_and!.
  - rewrite Hv. by destruct (4 <=? File_size file)%N.
  - rewrite Hv. by destruct (4 <=? File_size file)%N.
  - intros H. apply N.leb_le in H. by rewrite Hv, H.
  - intros H. apply N.leb_gt in H. by rewrite Hv, H.
  - intros g ??. by apply validateZipFile_header_only.
Qed.

(** A nonempty .zip file is accepted only with the signature. *)
Lemma zip_without_signature_invalid (file : File) :
  endsWith (toLowerCase (name file)) ".zip" = true →
  take_str 4 (bytes file) ≠ ZIP_MAGIC →
  valid (validateZipFile file) = false.
Proof.
  intros Hname Hsig. unfold validateZipFile, readFileHeader, File_size.
  rewrite Hname. simpl.
  destruct (bytes file) as [|b0 [|b1 [|b2 [|b3 rest]]]]; simpl in *; try done.
  destruct (N.eqb_spec
              (N_of_ascii b0 + 256 * N_of_ascii b1 + 65536 * N_of_ascii b2
               + 16777216 * N_of_ascii b3) ZIP_SIGNATURE) as [Heq|Hne]; simpl.
  - by apply signature_bytes in Heq.
  - done.
Qed.

End ValidationFacts.

(** ** The media correlator *)

Module MediaMatcherFacts.
Import JS Types MediaMatcher.

(** *** The frame: what enrichment may change *)

Lemma enrich_frame m cur f :
  enriched_or_same m cur → type cur = media →
  enriched_or_same m (enrich cur f).
Proof.
  intros [->|(Hm & H1 & H2 & H3 & H4 & H5 & H6)] Hcur; right.
  - by repeat split.
  - repeat split; simpl; congruence.
Qed.

Lemma bind_file_frame input st i msg key f used :
  frame_inv input st →
  (∀ m, input !! i = Some m → enriched_or_same m msg) →
  type msg = media →
  frame_inv input (bind_file st i msg key f used).
Proof.
  intros [Hlen Hframe] Hmsg Hmedia. split; simpl.
  - by rewrite length_insert.
  - intros j m m' Hj Hj'.
    destruct (decide (i = j)) as [->|Hij].
    + rewrite list_lookup_insert_eq in Hj'
        by (rewrite Hlen; by eapply lookup_lt_Some).
      simplify_eq. by apply enrich_frame; [apply Hmsg|].
    + rewrite list_lookup_insert_ne in Hj' by done. eauto.
Qed.

Lemma strategy1_step_frame input st i :
  frame_inv input st → frame_inv input (strategy1_step st i).
Proof.
  intros Hinv. unfold strategy1_step.
  destruct (msgs st !! i) as [msg|] eqn:Hi; [|done].
  case_bool_decide as Hty; [done|].
  destruct (findReferencedFilename (content msg)) as [ref|]; [|done].
  destruct (truthy ref); [|done].
  destruct (Map_get (toLowerCase ref) (mediaLookup st)) as [f|]; [|done].
  destruct (matched f); simpl; [done|].
  apply bind_file_frame; [done| |].
  - intros m Hm. by apply (proj2 Hinv i).
  - by destruct (decide (type msg = media)).
Qed.

Lemma strategy1_frame input st :
  frame_inv input st → frame_inv input (strategy1 st).
Proof.
  unfold strategy1. generalize (seq 0 (length (msgs st))).
  intros l. revert st. induction l as [|i l IH]; intros st Hst; simpl; [done|].
  by apply IH, strategy1_step_frame.
Qed.

Lemma lookup_zip_seq {A} (l : list A) k x i :
  zip l (seq 0 (length l)) !! k = Some (x, i) → l !! i = Some x ∧ i = k.
Proof.
  intros H. apply lookup_zip_with_Some in H as (x' & i' & Heq & Hx & Hi).
  simplify_eq. apply lookup_seq in Hi as [-> _]. done.
Qed.

Lemma strategy2_step_frame input st0 sorted st msg idx :
  frame_inv input st0 → msgs st0 !! idx = Some msg → type msg = media →
  frame_inv input st → frame_inv input (strategy2_step sorted st (msg, idx)).
Proof.
  intros Hst0 Hidx Hmedia Hst. unfold strategy2_step.
  destruct (filter _ sorted) as [|key ?]; [done|].
  destruct (Map_get key (mediaLookup st)) as [f|]; [|done].
  apply bind_file_frame; [done| |done].
  intros m Hm. by apply (proj2 Hst0 idx).
Qed.

Lemma foldl_strategy2_frame input st0 sorted entries cur :
  frame_inv input st0 →
  Forall (fun e => msgs st0 !! e.2 = Some e.1 ∧ type e.1 = media) entries →
  frame_inv input cur →
  frame_inv input (foldl (strategy2_step sorted) cur entries).
Proof.
  intros Hst0 Hentries. revert cur.
  induction Hentries as [|[msg idx] entries [Hidx Hty] _ IH]; intros cur Hcur;
    simpl; [done|].
  apply IH. by apply (strategy2_step_frame input st0).
Qed.

(** The entries of [unmatchedMediaMsgs] are media records of the
    list, each with its own index. *)
Lemma unmatchedMediaMsgs_entries (l : list Message) :
  Forall (fun e => l !! e.2 = Some e.1 ∧ type e.1 = media)
    (filter (fun e => type e.1 = media ∧ truthy_opt (mediaFileName e.1) = false)
            (zip l (seq 0 (length l)))).
Proof.
  apply Forall_forall. intros [msg idx] Hin.
  apply list_elem_of_filter in Hin as [[Hty _] Hin].
  apply list_elem_of_lookup in Hin as [k Hk].
  apply lookup_zip_seq in Hk as [? _]. done.
Qed.

Lemma strategy2_frame input st :
  frame_inv input st → frame_inv input (strategy2 st).
Proof.
  intros Hst. unfold strategy2.
  by apply (foldl_strategy2_frame input st);
    [|apply unmatchedMediaMsgs_entries|].
Qed.

(** *** The accounting of claims *)

Section MapFacts.
Context {V : Type}.
Implicit Types (m : list (string * V)) (k : string) (v : V).

Lemma Map_get_set k k' v m :
  Map_get k' (Map_set k v m)
  = if String.eqb k' k then Some v else Map_get k' m.
Proof.
  induction m as [|[k0 v0] m IH]; simpl; [done|].
  destruct (String.eqb_spec k k0) as [->|Hne]; simpl.
  - by destruct (String.eqb k' k0).
  - rewrite IH. destruct (String.eqb_spec k' k0) as [->|?]; [|done].
    by destruct (String.eqb_spec k0 k) as [->|?].
Qed.

Lemma Map_set_keys_present k v v0 m :
  Map_get k m = Some v0 → (Map_set k v m).*1 = m.*1.
Proof.
  induction m as [|[k0 v1] m IH]; simpl; [done|].
  destruct (String.eqb_spec k k0) as [->|Hne]; simpl; [done|].
  intros H. f_equal. by apply IH.
Qed.

Lemma Map_set_keys_absent k v m :
  Map_get k m = None → (Map_set k v m).*1 = m.*1 ++ [k].
Proof.
  induction m as [|[k0 v1] m IH]; simpl; [done|].
  destruct (String.eqb_spec k k0) as [->|Hne]; simpl; [done|].
  intros H. f_equal. by apply IH.
Qed.

Lemma Map_get_None k m : k ∉ m.*1 → Map_get k m = None.
Proof.
  induction m as [|[k0 v1] m IH]; simpl; [done|].
  rewrite not_elem_of_cons. intros [Hne Hnin].
  destruct (String.eqb_spec k k0); [done|auto].
Qed.
End MapFacts.

Lemma matched_partition (vs : list MediaFile) :
  length (filter (fun m => matched m = true) vs)
  + length (filter (fun m => matched m = false) vs) = length vs.
Proof.
  induction vs as [|v vs IH]; [done|].
  rewrite !filter_cons. destruct (matched v); simpl; lia.
Qed.

Lemma matchedCount_claim lookup key f v :
  Map_get key lookup = Some f → matched f = false → matched v = true →
  matchedCount (Map_set key v lookup) = S (matchedCount lookup).
Proof.
  unfold matchedCount, Map_values. intros Hget Hf Hv. revert Hget.
  induction lookup as [|[k0 v0] lookup IH]; csimpl; [done|].
  destruct (String.eqb_spec key k0) as [->|Hne]; csimpl; intros Hget.
  - simplify_eq. rewrite filter_cons_True by done.
    rewrite filter_cons_False by (by rewrite Hf). done.
  - rewrite !filter_cons. destruct (decide (matched v0 = true)); csimpl;
      by rewrite IH.
Qed.

Lemma claimed_key_matched st k :
  wf st → k ∈ (claims st).*2 →
  ∃ f, Map_get k (mediaLookup st) = Some f ∧ matched f = true.
Proof.
  intros (_ & _ & _ & _ & Hb) Hk.
  apply list_elem_of_fmap in Hk as ([i k'] & -> & Hin).
  destruct (Hb _ _ Hin) as (m & f & _ & ? & ? & _). eauto.
Qed.

Lemma bind_file_wf st i msg key f used :
  wf st → Map_get key (mediaLookup st) = Some f → matched f = false →
  i ∉ (claims st).*1 → i < length (msgs st) →
  wf (bind_file st i msg key f used)
  ∧ (mediaLookup (bind_file st i msg key f used)).*1 = (mediaLookup st).*1.
Proof.
  intros Hwf Hget Hf Hi Hlen.
  assert (key ∉ (claims st).*2) as Hkey.
  { intros Hin. destruct (claimed_key_matched st key Hwf Hin) as (f' & ? & ?).
    congruence. }
  destruct Hwf as (Hkeys & Hcount & Hnd1 & Hnd2 & Hb).
  split; [|by apply (Map_set_keys_present _ _ f)].
  repeat split; simpl.
  - intros k f'. rewrite Map_get_set.
    destruct (String.eqb_spec k key) as [->|?]; [|by apply Hkeys].
    intros [= <-]. simpl. by apply Hkeys.
  - by erewrite matchedCount_claim, Hcount.
  - by apply NoDup_cons.
  - by apply NoDup_cons.
  - intros i' k'. rewrite elem_of_cons. intros [[= -> ->]|Hin].
    + exists (enrich msg f), (claim f msg). simpl.
      rewrite list_lookup_insert_eq by done. rewrite Map_get_set.
      by rewrite String.eqb_refl.
    + destruct (Hb _ _ Hin) as (m & f' & Hm & Hf' & Hmat & Hname).
      exists m, f'. simpl.
      assert (i ≠ i') as Hii.
      { intros ->. apply Hi. apply list_elem_of_fmap. by exists (i', k'). }
      assert (k' ≠ key) as Hkk.
      { intros ->. apply Hkey. apply list_elem_of_fmap. by exists (i', key). }
      rewrite list_lookup_insert_ne by done. rewrite Map_get_set.
      by destruct (String.eqb_spec k' key).
Qed.

(** The lookup [buildMediaLookup] makes. *)

Lemma buildMediaLookup_foldl files :
  buildMediaLookup files = foldl addFile [] files.
Proof. done. Qed.

Lemma foldl_addFile_keys_inv files acc :
  keys_inv acc → keys_inv (foldl addFile acc files).
Proof.
  revert acc. induction files as [|f files IH]; intros acc Hacc; [done|].
  apply IH. intros k f'. unfold addFile. rewrite Map_get_set.
  destruct (String.eqb_spec k (toLowerCase (name f))) as [->|?]; [|by apply Hacc].
  by intros [= <-].
Qed.

Lemma Map_set_Forall (P : MediaFile → Prop) k v (m : list (string * MediaFile)) :
  P v → Forall P m.*2 → Forall P (Map_set k v m).*2.
Proof.
  intros Hv. induction m as [|[k0 v0] m IH]; csimpl.
  - by repeat constructor.
  - intros H. inversion_clear H as [|? ? H0 Hm].
    destruct (String.eqb k k0); csimpl; constructor; auto.
Qed.

Lemma foldl_addFile_unmatched files acc :
  Forall (fun m => matched m = false) acc.*2 →
  Forall (fun m => matched m = false) (foldl addFile acc files).*2.
Proof.
  revert acc. induction files as [|f files IH]; intros acc Hacc; [done|].
  apply IH. by apply Map_set_Forall.
Qed.

Lemma matchedCount_unmatched lookup :
  Forall (fun m => matched m = false) lookup.*2 → matchedCount lookup = 0.
Proof.
  unfold matchedCount, Map_values. generalize (lookup.*2). intros vs Hvs.
  induction Hvs as [|v vs Hv _ IH]; [done|].
  rewrite filter_cons_False by (by rewrite Hv). done.
Qed.

Lemma foldl_addFile_keys files acc :
  NoDup (acc.*1 ++ (keyOf <$> files)) →
  (foldl addFile acc files).*1 = acc.*1 ++ (keyOf <$> files).
Proof.
  revert acc. induction files as [|f files IH]; intros acc Hnd; csimpl in *.
  - by rewrite app_nil_r.
  - assert ((addFile acc f).*1 = acc.*1 ++ [toLowerCase (name f)]) as Hkeys.
    { apply Map_set_keys_absent, Map_get_None.
      apply NoDup_app in Hnd as (_ & Hnd & _). intros Hin.
      apply (Hnd _ Hin). by left. }
    fold (keyOf f).
    rewrite IH; rewrite Hkeys, <- app_assoc; done.
Qed.

Lemma truthy_toLowerCase s : truthy (toLowerCase s) = truthy s.
Proof. by destruct s. Qed.

(** *** Strategy 1 *)

Lemma same_shape_refl st : same_shape st st.
Proof. done. Qed.

Lemma same_shape_trans st1 st2 st3 :
  same_shape st1 st2 → same_shape st2 st3 → same_shape st1 st3.
Proof. intros [??] [??]. split; congruence. Qed.

Lemma s1_inv_weaken a st : s1_inv a st → s1_inv (S a) st.
Proof.
  intros [Hwf Hcl]. split; [done|]. intros i k Hin.
  destruct (Hcl i k Hin) as [? ?]. split; [lia|done].
Qed.

Lemma strategy1_step_inv a st :
  s1_inv a st →
  s1_inv (S a) (strategy1_step st a) ∧ same_shape st (strategy1_step st a).
Proof.
  intros Hinv. pose proof (s1_inv_weaken a st Hinv) as Hweak.
  unfold strategy1_step.
  destruct (msgs st !! a) as [msg|] eqn:Ha; [|done].
  case_bool_decide as Hty; [done|].
  destruct (findReferencedFilename (content msg)) as [ref|]; [|done].
  destruct (truthy ref) eqn:Href; [|done].
  destruct (Map_get (toLowerCase ref) (mediaLookup st)) as [f|] eqn:Hget; [|done].
  destruct (matched f) eqn:Hf; simpl; [done|].
  destruct Hinv as [Hwf Hcl].
  assert (a ∉ (claims st).*1) as Hfresh.
  { intros ([i k] & -> & Hin)%list_elem_of_fmap.
    destruct (Hcl _ _ Hin) as [? _]. simpl in *. lia. }
  assert (a < length (msgs st)) as Hlen by by eapply lookup_lt_Some.
  destruct (bind_file_wf st a msg (toLowerCase ref) f (toLowerCase ref)
              Hwf Hget Hf Hfresh Hlen) as [Hwf' Hkeys].
  split; [split; [done|] | split; [done | by simpl; rewrite length_insert]].
  intros i k. simpl. rewrite elem_of_cons. intros [[= -> ->]|Hin].
  - split; [lia|]. exists (enrich msg f).
    rewrite list_lookup_insert_eq by done. split; [done|]. simpl.
    destruct Hwf as (Hkeysinv & _).
    rewrite <- truthy_toLowerCase, (Hkeysinv _ _ Hget).
    by rewrite truthy_toLowerCase.
  - destruct (Hcl _ _ Hin) as [Hlt (m & Hm & Htr)]. split; [lia|].
    exists m. by rewrite list_lookup_insert_ne by lia.
Qed.

Lemma foldl_strategy1_inv n a st :
  s1_inv a st →
  s1_inv (a + n) (foldl strategy1_step st (seq a n))
  ∧ same_shape st (foldl strategy1_step st (seq a n)).
Proof.
  revert a st. induction n as [|n IH]; intros a st Hinv; simpl.
  - by rewrite Nat.add_0_r.
  - destruct (strategy1_step_inv a st Hinv) as [Hinv' Hshape].
    destruct (IH (S a) _ Hinv') as [Hinv'' Hshape'].
    replace (a + S n) with (S a + n) by lia.
    split; [done|]. by eapply same_shape_trans.
Qed.

(** *** Strategy 2 *)

Lemma is_candidate_unmatched lookup msgDay key :
  is_candidate lookup msgDay key = true →
  ∃ f, Map_get key lookup = Some f ∧ matched f = false.
Proof.
  unfold is_candidate. destruct (Map_get key lookup) as [f|]; [|done].
  destruct (matched f) eqn:Hf; [done|]. eauto.
Qed.

Lemma strategy2_step_inv sorted st msg idx rem :
  s2_inv ((msg, idx) :: rem) st → idx ∉ rem.*2 → idx < length (msgs st) →
  s2_inv rem (strategy2_step sorted st (msg, idx))
  ∧ same_shape st (strategy2_step sorted st (msg, idx)).
Proof.
  intros [Hwf Hrem] Hidx Hlen.
  assert (s2_inv rem st) as Hskip.
  { split; [done|]. intros e He. apply Hrem. by right. }
  unfold strategy2_step.
  destruct (filter _ sorted) as [|key cands] eqn:Hcands; [done|].
  assert (key ∈ key :: cands) as Hkey by by left.
  rewrite <- Hcands in Hkey. apply list_elem_of_filter in Hkey as [Hcand _].
  apply is_candidate_unmatched in Hcand as (f & Hget & Hf).
  rewrite Hget.
  assert (idx ∉ (claims st).*1) as Hfresh by (apply (Hrem (msg, idx)); by left).
  destruct (bind_file_wf st idx msg key f (toLowerCase (name (file f)))
              Hwf Hget Hf Hfresh Hlen) as [Hwf' Hkeys].
  split; [split; [done|] | split; [done | by simpl; rewrite length_insert]].
  intros e He. simpl. rewrite not_elem_of_cons. split.
  - intros Heq. apply Hidx. apply list_elem_of_fmap. by exists e.
  - apply Hrem. by right.
Qed.

Lemma foldl_strategy2_inv sorted rem st :
  NoDup rem.*2 → Forall (fun e => e.2 < length (msgs st)) rem →
  s2_inv rem st →
  wf (foldl (strategy2_step sorted) st rem)
  ∧ same_shape st (foldl (strategy2_step sorted) st rem).
Proof.
  revert st. induction rem as [|[msg idx] rem IH]; intros st Hnd Hlt Hinv.
  - split; [apply Hinv|done].
  - rewrite fmap_cons in Hnd. apply NoDup_cons in Hnd as [Hidx Hnd].
    inversion_clear Hlt as [|? ? Hlen Hlt'].
    destruct (strategy2_step_inv sorted st msg idx rem Hinv Hidx Hlen)
      as [Hinv' Hshape].
    destruct (IH (strategy2_step sorted st (msg, idx)) Hnd) as [Hwf Hshape'].
    + destruct Hshape as [_ Hl]. by rewrite Hl.
    + done.
    + split; [done|]. by eapply same_shape_trans.
Qed.

Lemma unmatchedMediaMsgs_NoDup (l : list Message) :
  NoDup (filter (fun e : Message * nat =>
                   type e.1 = media ∧ truthy_opt (mediaFileName e.1) = false)
                (zip l (seq 0 (length l)))).*2.
Proof.
  eapply sublist_NoDup; [apply (NoDup_seq 0 (length l))|].
  rewrite <- (snd_zip l (seq 0 (length l))) at 2 by (by rewrite length_seq).
  apply fmap_sublist, sublist_filter.
Qed.

Lemma strategy2_inv st :
  s1_inv (length (msgs st)) st →
  wf (strategy2 st) ∧ same_shape st (strategy2 st).
Proof.
  intros [Hwf Hcl]. unfold strategy2.
  apply foldl_strategy2_inv.
  - apply unmatchedMediaMsgs_NoDup.
  - eapply Forall_impl; [apply unmatchedMediaMsgs_entries|].
    intros [msg idx] [Hidx _]. by eapply lookup_lt_Some.
  - split; [done|]. intros [msg idx] Hin ([i k] & Heq & Hcl')%list_elem_of_fmap.
    simpl in Heq. subst i.
    apply list_elem_of_filter in Hin as [[_ Hname] Hin]. simpl in Hname.
    apply list_elem_of_lookup in Hin as [j Hj].
    apply lookup_zip_seq in Hj as [Hidx _].
    destruct (Hcl _ _ Hcl') as [_ (m & Hm & Htr)]. congruence.
Qed.

(** The state [matchMediaToMessages] ends in. *)
Lemma run_wf messages mediaFiles :
  wf (run messages mediaFiles)
  ∧ (mediaLookup (run messages mediaFiles)).*1 = (buildMediaLookup mediaFiles).*1.
Proof.
  unfold run.
  set (st0 := mkState messages (buildMediaLookup mediaFiles) ∅ []).
  assert (s1_inv 0 st0) as H0.
  { split; [|by intros i k Hin; apply elem_of_nil in Hin].
    repeat split; simpl.
    - by apply foldl_addFile_keys_inv.
    - apply matchedCount_unmatched.
      by apply foldl_addFile_unmatched; constructor.
    - constructor.
    - constructor.
    - by intros i k Hin; apply elem_of_nil in Hin. }
  destruct (foldl_strategy1_inv (length (msgs st0)) 0 st0 H0) as [H1 [Hk1 Hl1]].
  change (foldl strategy1_step st0 (seq 0 (length (msgs st0))))
    with (strategy1 st0) in *.
  rewrite Nat.add_0_l, <- Hl1 in H1.
  destruct (strategy2_inv _ H1) as [Hwf [Hk2 _]].
  split; [done|]. by rewrite Hk2, Hk1.
Qed.

(** The accounting of the correlator for a file list without two names
    that are equal up to case: matched and unmatched files add up to
    all files, every match is one binding, no message and no file
    occurs in two bindings, and each binding stands in the result. *)
Theorem match_accounting (messages : list Message) (mediaFiles : list File) :
  mediaFiles ≠ [] →
  NoDup (keyOf <$> mediaFiles) →
  let r := matchMediaToMessages messages mediaFiles in
  let st := run messages mediaFiles in
  matchCount r + length (unmatchedMedia r) = totalMedia r
  ∧ matchCount r = length (claims st)
  ∧ NoDup (claims st).*1
  ∧ NoDup (claims st).*2
  ∧ ∀ i k, (i, k) ∈ claims st →
      ∃ m f, matchedMessages r !! i = Some m
             ∧ Map_get k (mediaLookup st) = Some f
             ∧ matched f = true
             ∧ mediaFileName m = Some (name (file f)).
Proof.
  intros Hne Hnd r st. subst r. unfold matchMediaToMessages.
  destruct mediaFiles as [|f0 files]; [done|].
  set (mediaFiles := f0 :: files) in *.
  replace (length mediaFiles =? 0) with false by done. simpl.
  destruct (run_wf messages mediaFiles) as [(Hkeys & Hcount & Hnd1 & Hnd2 & Hb) Hk].
  fold st in Hkeys, Hcount, Hnd1, Hnd2, Hb, Hk |- *.
  repeat split; try done.
  rewrite length_fmap, matched_partition. unfold Map_values.
  rewrite length_fmap, <- (length_fmap fst), Hk.
  rewrite buildMediaLookup_foldl, foldl_addFile_keys by done.
  simpl. by rewrite length_fmap.
Qed.

(** C2, on the code: two files of one name collapse into one entry of
    the lookup, so one of them is counted in [totalMedia] and is
    neither matched nor unmatched. *)
Theorem duplicate_name_breaks_accounting :
  let files := [ mkFile "IMG-20240201-WA0007.jpg" "first";
                 mkFile "IMG-20240201-WA0007.jpg" "second" ] in
  let r := matchMediaToMessages [] files in
  matchCount r = 0 ∧ length (unmatchedMedia r) = 1 ∧ totalMedia r = 2
  ∧ matchCount r + length (unmatchedMedia r) ≠ totalMedia r.
Proof. by vm_compute. Qed.

(** C5. The messages returned are as many as the messages given;
    each is its input element, or differs from it in
    [mediaFileName] and [mediaType] only, and then the element is of
    type [media]; no type changes. *)
Theorem matchMediaToMessages_frame (messages : list Message)
    (mediaFiles : list File) :
  length (matchedMessages (matchMediaToMessages messages mediaFiles))
  = length messages
  ∧ ∀ i m m',
      messages !! i = Some m →
      matchedMessages (matchMediaToMessages messages mediaFiles) !! i = Some m' →
      type m' = type m
      ∧ (m' = m ∨ (type m = media ∧ agrees m m')).
Proof.
  assert (frame_inv messages
            (mkState messages (buildMediaLookup mediaFiles) ∅ [])) as Hinit.
  { split; [done|]. intros i m m' Hm Hm'; simpl in *. left. congruence. }
  unfold matchMediaToMessages.
  destruct (length mediaFiles =? 0); simpl.
  - split; [done|]. intros i m m' Hm Hm'. simplify_eq. auto.
  - apply strategy1_frame, strategy2_frame in Hinit as [Hlen Hframe].
    split; [done|]. intros i m m' Hm Hm'.
    destruct (Hframe i m m' Hm Hm') as [->|[Hty Hag]]; [auto|].
    split; [apply Hag|]. right. done.
Qed.

(** C10. With no candidate file the messages come back as they are,
    with nothing matched and nothing left over. *)
Theorem matchMediaToMessages_no_files (messages : list Message) :
  matchMediaToMessages messages [] = mkMatchResult messages [] 0 0.
Proof. done. Qed.

End MediaMatcherFacts.

(* ===================================================================== *)
(** * Further properties of the store *)
(* ===================================================================== *)

Module StorageMore.
Import Types Chunk ChunkFacts Storage StorageFacts.


Lemma foldl_put_frame chat msgs db :
  chats (foldl (put_message chat) db msgs) = chats db
  ∧ media (foldl (put_message chat) db msgs) = media db.
Proof.
  revert db. induction msgs as [|m msgs IH]; intros db; simpl; [done|].
  destruct (IH (put_message chat db m)) as [-> ->]. done.
Qed.

Lemma foldl_put_lookup chat msgs db k :
  messages (foldl (put_message chat) db msgs) !! k
  = match last_with_id k msgs with
    | Some m => Some (mkStored m chat)
    | None => messages db !! k
    end.
Proof.
  unfold last_with_id.
  induction msgs as [|m msgs IH] using rev_ind; [done|].
  rewrite foldl_app, filter_app, filter_cons, filter_nil. simpl.
  destruct (decide (id m = k)) as [<-|Hne].
  - rewrite last_snoc. apply lookup_insert_eq.
  - rewrite app_nil_r, lookup_insert_ne by done. apply IH.
Qed.

(** X1.  After [saveMessages] the store answers [getMessage] with the last
    record saved under the id, tagged with the chat, and with what it
    held before for every other id; chats and media are untouched. *)
Theorem saveMessages_last_write_wins (msgs : list Message) (chat : string)
    (db : DB) :
  ∃ db' log,
    saveMessages msgs chat db = Some (db', log)
    ∧ chats db' = chats db
    ∧ media db' = media db
    ∧ ∀ k, getMessage k db'
           = match last_with_id k msgs with
             | Some m => Some (mkStored m chat)
             | None => getMessage k db
             end.
Proof.
  destruct (saveMessages_with_spec CHUNK_SIZE (length msgs) msgs chat db)
    as (log & Hrun & _); [by apply Nat.leb_le; vm_compute | done |].
  eexists _, log. split; [exact Hrun|].
  destruct (foldl_put_frame chat msgs db) as [-> ->].
  split; [done|]. split; [done|]. intros k. apply foldl_put_lookup.
Qed.

Lemma elem_of_messageIdsOf k chat db :
  k ∈ messageIdsOf chat db
  ↔ ∃ v, messages db !! k = Some v ∧ chatId v = chat.
Proof.
  unfold messageIdsOf. rewrite merge_sort_Permutation.
  rewrite list_elem_of_fmap. split.
  - intros ([k' v] & -> & Hin). apply list_elem_of_filter in Hin as [Hc Hin].
    apply elem_of_map_to_list in Hin. eauto.
  - intros (v & Hv & Hc). exists (k, v). split; [done|].
    apply list_elem_of_filter. split; [done|]. by apply elem_of_map_to_list.
Qed.

Lemma foldl_delete_spec ids db :
  chats (foldl delete_message db ids) = chats db
  ∧ (∀ k, messages (foldl delete_message db ids) !! k
          = if decide (k ∈ ids) then None else messages db !! k)
  ∧ (∀ k, media (foldl delete_message db ids) !! k
          = if decide (k ∈ ids) then None else media db !! k).
Proof.
  revert db. induction ids as [|i ids IH]; intros db; cbn [foldl].
  - split; [done|].
    split; intros k; (case_decide as H; [by apply elem_of_nil in H|done]).
  - destruct (IH (delete_message db i)) as (-> & Hm & Hd).
    split; [done|]. split; intros k; rewrite ?Hm, ?Hd; cbn [delete_message messages media].
    + destruct (decide (k ∈ ids)) as [Hin|Hnin].
      * by rewrite decide_True by by right.
      * destruct (decide (k = i)) as [->|Hne].
        -- rewrite decide_True by by left. apply lookup_delete_eq.
        -- rewrite decide_False by (rewrite elem_of_cons; tauto).
           by apply lookup_delete_ne.
    + destruct (decide (k ∈ ids)) as [Hin|Hnin].
      * by rewrite decide_True by by right.
      * destruct (decide (k = i)) as [->|Hne].
        -- rewrite decide_True by by left. apply lookup_delete_eq.
        -- rewrite decide_False by (rewrite elem_of_cons; tauto).
           by apply lookup_delete_ne.
Qed.

(** The store a completed [deleteChat] leaves, whatever the batch
    size: the chat record gone and every id of the chat deleted from
    messages and media. *)
Lemma deleteChat_with_db C fuel chat db :
  1 ≤ C → length (messageIdsOf chat db) ≤ fuel →
  ∃ log, deleteChat_with C fuel chat db
         = Some (foldl delete_message
                   (mkDB (delete chat (chats db)) (messages db) (media db))
                   (messageIdsOf chat db), log).
Proof.
  intros HC Hfuel. unfold deleteChat_with. rewrite messageIdsOf_chats.
  set (ids := messageIdsOf chat db) in *.
  set (db0 := mkDB (delete chat (chats db)) (messages db) (media db)).
  destruct (Nat.eqb_spec (length ids) 0) as [H0|H0].
  { destruct ids; [|done]. by exists []. }
  destruct (chunkLoop_inv
              (fun p (r : Run) => r.1 = foldl delete_message db0 (take p ids))
              C (length ids) (deleteBatch ids) HC)
    with (fuel := fuel) (start := 0) (st := ((db0, [(0, length ids)]) : Run))
    as ([db' log] & Hrun & Hdb).
  - intros s [db1 log1] Hs Hdb; simpl in *.
    rewrite (take_slice ids s (Nat.min (s + C) (length ids))) by lia.
    by rewrite foldl_app, Hdb.
  - lia.
  - done.
  - simpl in Hdb. rewrite take_ge in Hdb by done. subst db'. eauto.
Qed.

(** The store with the chat record and the records of the chat's
    messages deleted. *)
Lemma deleted_store_spec chat db :
  let db' := foldl delete_message
               (mkDB (delete chat (chats db)) (messages db) (media db))
               (messageIdsOf chat db) in
  getChat chat db' = None
  ∧ (∀ c, c ≠ chat → getChat c db' = getChat c db)
  ∧ (∀ k, getMessage k db'
          = match getMessage k db with
            | Some v => if decide (chatId v = chat) then None else Some v
            | None => None
            end)
  ∧ (∀ k, media db' !! k
          = match getMessage k db with
            | Some v => if decide (chatId v = chat) then None else media db !! k
            | None => media db !! k
            end)
  ∧ getMessagesForChat chat db' = [].
Proof.
  set (db0 := mkDB (delete chat (chats db)) (messages db) (media db)).
  intros db'. subst db'.
  destruct (foldl_delete_spec (messageIdsOf chat db) db0) as (Hc & Hm & Hd).
  assert (∀ k, (k ∈ messageIdsOf chat db)
               ↔ ∃ v, messages db !! k = Some v ∧ chatId v = chat) as Hin
    by (intros; apply elem_of_messageIdsOf).
  assert (∀ k, getMessage k (foldl delete_message db0 (messageIdsOf chat db))
            = match getMessage k db with
              | Some v => if decide (chatId v = chat) then None else Some v
              | None => None
              end) as Hget.
  { intros k. unfold getMessage. rewrite Hm. simpl.
    destruct (messages db !! k) as [v|] eqn:Hv.
    - destruct (decide (chatId v = chat)) as [Hcv|Hcv].
      + rewrite decide_True; [done|]. apply Hin. eauto.
      + rewrite decide_False; [done|]. intros (v' & ? & ?)%Hin. congruence.
    - by destruct (decide _). }
  split_and!.
  - unfold getChat. rewrite Hc. apply lookup_delete_eq.
  - intros c Hne. unfold getChat. rewrite Hc. simpl. by apply lookup_delete_ne.
  - done.
  - intros k. rewrite Hd. simpl. unfold getMessage.
    destruct (messages db !! k) as [v|] eqn:Hv.
    + destruct (decide (chatId v = chat)) as [Hcv|Hcv].
      * rewrite decide_True; [done|]. apply Hin. eauto.
      * rewrite decide_False; [done|]. intros (v' & ? & ?)%Hin. congruence.
    + rewrite decide_False; [done|]. intros (v' & ? & ?)%Hin. congruence.
  - unfold getMessagesForChat.
    assert (messageIdsOf chat (foldl delete_message db0 (messageIdsOf chat db)) = [])
      as ->; [|done].
    apply elem_of_nil_inv. intros k (v & Hv & Hcv)%elem_of_messageIdsOf.
    unfold getMessage in Hget. rewrite Hget in Hv.
    destruct (messages db !! k); [|done]. by destruct (decide _); simplify_eq.
Qed.

(** X2.  [deleteChat], at any batch size of at least one, completes
    and leaves a store from which the chat is gone: [getChat] finds no
    record of it and the other chats as before; [getMessage] finds the
    messages of the other chats and none of this one; the media of this
    chat's messages are deleted, the other media kept; and
    [getMessagesForChat] returns nothing for the chat. *)
Theorem deleteChat_removes_chat (C : nat) (chat : string) (db : DB) :
  1 ≤ C →
  ∃ db' log,
    deleteChat_with C (length (messageIdsOf chat db)) chat db = Some (db', log)
    ∧ getChat chat db' = None
    ∧ (∀ c, c ≠ chat → getChat c db' = getChat c db)
    ∧ (∀ k, getMessage k db'
            = match getMessage k db with
              | Some v => if decide (chatId v = chat) then None else Some v
              | None => None
              end)
    ∧ (∀ k, media db' !! k
            = match getMessage k db with
              | Some v => if decide (chatId v = chat) then None else media db !! k
              | None => media db !! k
              end)
    ∧ getMessagesForChat chat db' = [].
Proof.
  intros HC.
  destruct (deleteChat_with_db C (length (messageIdsOf chat db)) chat db HC)
    as (log & Hrun); [done|].
  eexists _, log. split; [exact Hrun|]. apply deleted_store_spec.
Qed.

Lemma last_with_id_Some k msgs m :
  last_with_id k msgs = Some m → m ∈ msgs ∧ id m = k.
Proof.
  unfold last_with_id. intros H%last_Some_elem_of.
  apply list_elem_of_filter in H. tauto.
Qed.

(** X3.  Saving the messages of a chat whose ids are new to the
    store (no message and no media record under them) into a store
    with no message of that chat, and then deleting the chat, gives
    back the messages and the media the store held; of the chats, the
    record of this one is deleted. *)
Theorem save_then_delete_restores (msgs : list Message) (chat : string)
    (db : DB) :
  (∀ m, m ∈ msgs → getMessage (id m) db = None ∧ media db !! id m = None) →
  (∀ k v, getMessage k db = Some v → chatId v ≠ chat) →
  ∃ db1 log1 db2 log2,
    saveMessages msgs chat db = Some (db1, log1)
    ∧ deleteChat chat db1 = Some (db2, log2)
    ∧ messages db2 = messages db
    ∧ media db2 = media db
    ∧ chats db2 = delete chat (chats db).
Proof.
  intros Hfresh Hother.
  destruct (saveMessages_with_spec CHUNK_SIZE (length msgs) msgs chat db)
    as (log1 & Hsave & _); [by apply Nat.leb_le; vm_compute | done |].
  set (db1 := foldl (put_message chat) db msgs) in *.
  destruct (foldl_put_frame chat msgs db) as [Hc1 Hd1]. fold db1 in Hc1, Hd1.
  pose proof (foldl_put_lookup chat msgs db) as Hm1. fold db1 in Hm1.
  destruct (deleteChat_with_db BATCH_SIZE (length (messageIdsOf chat db1)) chat db1)
    as (log2 & Hdel); [by apply Nat.leb_le; vm_compute | done |].
  destruct (deleted_store_spec chat db1) as (_ & _ & Hm2 & Hd2 & _).
  eexists db1, log1, _, log2. split; [exact Hsave|]. split; [exact Hdel|].
  split_and!.
  - apply map_eq. intros k. specialize (Hm2 k). specialize (Hm1 k).
    unfold getMessage in *. rewrite Hm2, Hm1.
    destruct (last_with_id k msgs) as [m|] eqn:Hl.
    + apply last_with_id_Some in Hl as [Hin <-]. simpl.
      rewrite decide_True by done. symmetry. apply Hfresh, Hin.
    + destruct (messages db !! k) as [v|] eqn:Hv; [|done].
      rewrite decide_False; [done|]. by eapply Hother.
  - apply map_eq. intros k. specialize (Hd2 k). specialize (Hm1 k).
    unfold getMessage in *. rewrite Hd2, Hm1, Hd1.
    destruct (last_with_id k msgs) as [m|] eqn:Hl.
    + apply last_with_id_Some in Hl as [Hin <-]. simpl.
      rewrite decide_True by done. symmetry. apply Hfresh, Hin.
    + destruct (messages db !! k) as [v|] eqn:Hv; [|done].
      rewrite decide_False; [done|]. by eapply Hother.
  - destruct (foldl_delete_spec (messageIdsOf chat db1)
                (mkDB (delete chat (chats db1)) (messages db1) (media db1)))
      as (-> & _). simpl. by rewrite Hc1.
Qed.

Lemma ceil_div_multiple C q : 1 ≤ C → ceil_div (C * q) C = q.
Proof.
  intros HC. unfold ceil_div. symmetry.
  apply (Nat.div_unique _ _ _ (C - 1)); lia.
Qed.

Lemma ceil_div_step C q r : 1 ≤ r → r ≤ C → ceil_div (C * q + r) C = S q.
Proof.
  intros H1 H2. unfold ceil_div. symmetry.
  apply (Nat.div_unique _ _ _ (r - 1)); lia.
Qed.

(** X4.  At any chunk size of at least one, [saveMessages] completes,
    and these are the calls it makes to the progress callback: one per
    batch, [ceil(N / C)] of them, the [k]-th reporting
    [min(k * C, N)] of [N]. *)
Theorem saveMessages_reports (C : nat) (msgs : list Message) (chat : string)
    (db : DB) :
  1 ≤ C →
  ∃ db' log,
    saveMessages_with C (length msgs) msgs chat db = Some (db', log)
    ∧ log = (fun k => (Nat.min (k * C) (length msgs), length msgs))
              <$> seq 1 (ceil_div (length msgs) C).
Proof.
  intros HC. unfold saveMessages_with.
  set (N := length msgs).
  set (entry := fun k => (Nat.min (k * C) N, N)).
  destruct (chunkLoop_inv
              (fun p (r : Run) =>
                 r.2 = entry <$> seq 1 (ceil_div p C)
                 ∧ (p < N → ∃ q, p = C * q))
              C N (saveChunk msgs chat) HC)
    with (fuel := N) (start := 0) (st := ((db, []) : Run))
    as ([db' log] & Hrun & Hlog & _).
  - intros s [db0 log0] Hs [Hlog Hq]. destruct (Hq Hs) as [q ->]. simpl in *.
    rewrite Hlog, ceil_div_multiple by done. fold N.
    destruct (Nat.min_spec (C * q + C) N) as [[Hlt ->]|[Hge ->]].
    + split; [|intros _; exists (S q); lia].
      replace (C * q + C) with (C * S q) by lia.
      rewrite ceil_div_multiple by done.
      rewrite seq_S, fmap_app. simpl. do 3 f_equal. unfold entry. f_equal. lia.
    + split; [|lia].
      replace N with (C * q + (N - C * q)) at 3 by lia.
      rewrite ceil_div_step by lia.
      rewrite seq_S, fmap_app. simpl. do 3 f_equal. unfold entry. f_equal. lia.
  - lia.
  - simpl. split; [|intros _; exists 0; lia].
    pose proof (ceil_div_multiple C 0 HC) as H0.
    rewrite Nat.mul_0_r in H0. by rewrite H0.
  - eauto.
Qed.

(** *** Reading a chat back *)

Lemma messageIdsOf_NoDup chat db : NoDup (messageIdsOf chat db).
Proof.
  unfold messageIdsOf. rewrite merge_sort_Permutation.
  eapply (sublist_NoDup _ (map_to_list (messages db)).*1).
  - apply NoDup_fst_map_to_list.
  - apply fmap_sublist, sublist_filter.
Qed.

Lemma elem_of_getMessagesForChat v chat db :
  v ∈ getMessagesForChat chat db
  ↔ ∃ k, messages db !! k = Some v ∧ chatId v = chat.
Proof.
  unfold getMessagesForChat. rewrite list_elem_of_omap. split.
  - intros (k & Hk & Hv). apply elem_of_messageIdsOf in Hk as (v' & Hv' & Hc).
    exists k. split; [done|]. congruence.
  - intros (k & Hv & Hc). exists k. split; [|done].
    apply elem_of_messageIdsOf. eauto.
Qed.

Lemma saveMessages_db msgs chat db :
  ∃ log, saveMessages msgs chat db = Some (foldl (put_message chat) db msgs, log).
Proof.
  destruct (saveMessages_with_spec CHUNK_SIZE (length msgs) msgs chat db)
    as (log & Hrun & _); [by apply Nat.leb_le; vm_compute | done |]. eauto.
Qed.

Lemma last_with_id_elem k msgs m :
  NoDup (id <$> msgs) → m ∈ msgs → id m = k → last_with_id k msgs = Some m.
Proof.
  intros Hnd Hin Hid. unfold last_with_id.
  destruct (last (filter (fun m0 => id m0 = k) msgs)) as [m'|] eqn:Hl.
  - apply last_Some_elem_of in Hl. apply list_elem_of_filter in Hl as [Hid' Hin'].
    f_equal. clear -Hnd Hin Hin' Hid Hid'. subst k.
    induction msgs as [|x msgs IH]; [by apply elem_of_nil in Hin|].
    rewrite fmap_cons in Hnd. apply NoDup_cons in Hnd as [Hx Hnd].
    apply elem_of_cons in Hin as [->|Hin], Hin' as [->|Hin']; [done|..|by apply IH].
    + exfalso. apply Hx. rewrite <- Hid'. by apply list_elem_of_fmap_2.
    + exfalso. apply Hx. rewrite Hid'. by apply list_elem_of_fmap_2.
  - apply last_None in Hl. exfalso.
    assert (m ∈ filter (fun m0 => id m0 = k) msgs) as H
      by by apply list_elem_of_filter.
    rewrite Hl in H. by apply elem_of_nil in H.
Qed.

(** X18.  The ids of the messages are keys of the whole store, not of
    a chat: saving under a second chat the messages that were saved
    under a first one moves them.  The first chat, which had them, is
    left without a message. *)
Theorem resave_moves_messages (msgs : list Message) (c1 c2 : string) (db : DB) :
  c1 ≠ c2 →
  msgs ≠ [] →
  (∀ k v, getMessage k db = Some v → chatId v ≠ c1) →
  ∃ db1 log1 db2 log2,
    saveMessages msgs c1 db = Some (db1, log1)
    ∧ saveMessages msgs c2 db1 = Some (db2, log2)
    ∧ getMessagesForChat c1 db1 ≠ []
    ∧ getMessagesForChat c1 db2 = []
    ∧ ∀ m, m ∈ msgs → ∃ v, getMessage (id m) db2 = Some v ∧ chatId v = c2.
Proof.
  intros Hc Hne Hfree.
  destruct (saveMessages_db msgs c1 db) as [log1 Hs1].
  destruct (saveMessages_db msgs c2 (foldl (put_message c1) db msgs))
    as [log2 Hs2].
  eexists _, log1, _, log2. split; [exact Hs1|]. split; [exact Hs2|].
  split_and!.
  - destruct msgs as [|m0 msgs0] using rev_ind; [done|]. clear IHmsgs0.
    intros Hnil.
    assert (mkStored m0 c1 ∈ getMessagesForChat c1
              (foldl (put_message c1) db (msgs0 ++ [m0]))) as Hin.
    { apply elem_of_getMessagesForChat. exists (id m0). split; [|done].
      rewrite foldl_put_lookup. unfold last_with_id.
      rewrite filter_app, filter_cons_True, filter_nil by done.
      by rewrite last_snoc. }
    rewrite Hnil in Hin. by apply elem_of_nil in Hin.
  - apply elem_of_nil_inv. intros v (k & Hk & Hv)%elem_of_getMessagesForChat.
    rewrite foldl_put_lookup in Hk.
    destruct (last_with_id k msgs) as [m|] eqn:Hl; [by simplify_eq|].
    rewrite foldl_put_lookup, Hl in Hk.
    by eapply Hfree.
  - intros m Hm. unfold getMessage. rewrite foldl_put_lookup.
    destruct (last_with_id (id m) msgs) as [m'|] eqn:Hl; [by eexists|].
    unfold last_with_id in Hl. apply last_None in Hl.
    assert (m ∈ filter (fun m0 => id m0 = id m) msgs) as H
      by by apply list_elem_of_filter.
    rewrite Hl in H. by apply elem_of_nil in H.
Qed.

(** The messages of a chat, read back from the store that the puts
    of a list without two equal ids leave. *)
Lemma put_then_load (msgs : list Message) (chat : string) (db : DB) :
  NoDup (id <$> msgs) →
  (∀ k v, getMessage k db = Some v → chatId v ≠ chat) →
  stored_msg <$> getMessagesForChat chat (foldl (put_message chat) db msgs)
    ≡ₚ msgs
  ∧ Forall (fun v => chatId v = chat)
           (getMessagesForChat chat (foldl (put_message chat) db msgs))
  ∧ Sorted String.le
      ((fun v => id (stored_msg v))
         <$> getMessagesForChat chat (foldl (put_message chat) db msgs)).
Proof.
  intros Hnd Hfree.
  set (db' := foldl (put_message chat) db msgs).
  assert (∀ k v, messages db' !! k = Some v → chatId v = chat →
                 ∃ m, v = mkStored m chat ∧ m ∈ msgs ∧ id m = k) as Hentry.
  { intros k v Hk Hv. unfold db' in Hk. rewrite foldl_put_lookup in Hk.
    destruct (last_with_id k msgs) as [m|] eqn:Hl.
    - apply last_with_id_Some in Hl as [? ?]. exists m. by simplify_eq.
    - by apply Hfree in Hk. }
  assert (getMessagesForChat chat db'
          = (fun k => mkStored (default (mkMessage "" None None "" text None None None)
                                        (last_with_id k msgs)) chat)
              <$> messageIdsOf chat db') as Hget.
  { unfold getMessagesForChat.
    assert (∀ k, k ∈ messageIdsOf chat db' →
                 messages db' !! k
                 = Some (mkStored (default (mkMessage "" None None "" text None None None)
                                           (last_with_id k msgs)) chat)) as Hall.
    { intros k (v & Hk & Hv)%elem_of_messageIdsOf.
      destruct (Hentry k v Hk Hv) as (m & -> & Hin & Hid).
      rewrite Hk. by rewrite (last_with_id_elem k msgs m). }
    revert Hall. generalize (messageIdsOf chat db'). intros ids Hall.
    induction ids as [|k ids IH]; [done|]. csimpl.
    rewrite (Hall k) by left. simpl. f_equal. apply IH.
    intros k' Hk'. apply Hall. by right. }
  assert ((fun v => id (stored_msg v)) <$> getMessagesForChat chat db'
          = messageIdsOf chat db') as Hids.
  { rewrite Hget, <- list_fmap_compose.
    rewrite <- (list_fmap_id (messageIdsOf chat db')) at 2.
    apply list_fmap_ext. intros j k Hj%list_elem_of_lookup_2.
    apply elem_of_messageIdsOf in Hj as (v & Hk & Hv).
    destruct (Hentry k v Hk Hv) as (m & -> & Hin & Hid). simpl.
    by rewrite (last_with_id_elem k msgs m). }
  split_and!.
  - apply NoDup_Permutation.
    + apply (NoDup_fmap_1 id). rewrite <- list_fmap_compose.
      change (id ∘ stored_msg) with (fun v => id (stored_msg v)).
      rewrite Hids. apply messageIdsOf_NoDup.
    + by eapply NoDup_fmap_1.
    + intros m. rewrite list_elem_of_fmap. split.
      * intros (v & -> & (k & Hk & Hv)%elem_of_getMessagesForChat).
        by destruct (Hentry k v Hk Hv) as (m & -> & Hin & _).
      * intros Hin. exists (mkStored m chat). split; [done|].
        apply elem_of_getMessagesForChat. exists (id m). split; [|done].
        unfold db'. rewrite foldl_put_lookup.
        by rewrite (last_with_id_elem (id m) msgs m).
  - apply Forall_forall. by intros v (k & _ & ?)%elem_of_getMessagesForChat.
  - rewrite Hids. unfold messageIdsOf. apply Sorted_merge_sort. apply _.
Qed.

(** X19.  What is saved is what is read back: after [saveMessages] of
    messages of pairwise different ids, into a store without a message
    of the chat, [getMessagesForChat] returns these messages, each
    once and tagged with the chat, in the order of their ids as
    strings, which need not be the order they were saved in. *)
Theorem save_then_load (msgs : list Message) (chat : string) (db : DB) :
  NoDup (id <$> msgs) →
  (∀ k v, getMessage k db = Some v → chatId v ≠ chat) →
  ∃ db' log,
    saveMessages msgs chat db = Some (db', log)
    ∧ stored_msg <$> getMessagesForChat chat db' ≡ₚ msgs
    ∧ Forall (fun v => chatId v = chat) (getMessagesForChat chat db')
    ∧ Sorted String.le ((fun v => id (stored_msg v))
                          <$> getMessagesForChat chat db').
Proof.
  intros Hnd Hfree.
  destruct (saveMessages_db msgs chat db) as [log Hs].
  eexists _, log. split; [exact Hs|]. by apply put_then_load.
Qed.

End StorageMore.

(* ===================================================================== *)
(** * Further properties of the parser *)
(* ===================================================================== *)

Module ParserMore.
Import JS Regex Types Chunk ChunkFacts Parser ParserFacts Progress.



Lemma processLine_same_core st st' raw :
  same_core st st' → same_core (processLine st raw) (processLine st' raw).
Proof.
  destruct st as [ms cur ss rs], st' as [ms' cur' ss' rs'].
  intros (Hm & Hc & Hs); simpl in *; subst ms' cur' ss'.
  unfold processLine; simpl.
  destruct (truthy (trim raw)); simpl.
  - destruct (tryParseMessageLine (trim raw)) as [[timestamp remainder]|].
    + by destruct (str_match SENDER remainder), cur.
    + by destruct cur.
  - by destruct cur.
Qed.

Lemma foldl_processLine_same_core lines st st' :
  same_core st st' →
  same_core (foldl processLine st lines) (foldl processLine st' lines).
Proof.
  revert st st'. induction lines as [|l lines IH]; intros st st' H; [done|].
  simpl. by apply IH, processLine_same_core.
Qed.

Lemma finish_same_core file st st' :
  same_core st st' → (finish file st).1 = (finish file st').1.
Proof.
  destruct st, st'. intros (Hm & Hc & Hs); simpl in *. by subst.
Qed.

(** The loop in chunks computes what the plain loop over all lines
    does. *)
Lemma parseLoop_unchunked text :
  ∃ st, parseLoop (length (split (ascii_of_nat 10) text)) text = Some st
        ∧ same_core st (foldl processLine start (split (ascii_of_nat 10) text)).
Proof.
  unfold parseLoop. set (lines := split (ascii_of_nat 10) text).
  destruct (chunkLoop_inv
              (fun p st => same_core st (foldl processLine start (take p lines)))
              CHUNK_SIZE (length lines) (processChunk lines))
    with (fuel := length lines) (start := 0)
         (st := report (mkProgress (length lines) 0 parsing) (mkState [] None ∅ []))
    as (st & Hrun & Hst).
  - by apply Nat.leb_le; vm_compute.
  - intros s st Hs Hst.
    rewrite (take_slice lines s (Nat.min (s + CHUNK_SIZE) (length lines))) by lia.
    rewrite foldl_app. unfold processChunk.
    apply (foldl_processLine_same_core
             (slice s (Nat.min (s + CHUNK_SIZE) (length lines)) lines)) in Hst.
    destruct Hst as (? & ? & ?). by repeat split.
  - lia.
  - done.
  - exists st. split; [done|]. by rewrite take_ge in Hst.
Qed.

(** X5.  The size of the chunks does not show in the result: parsing a file
    gives what one pass of the line loop over all its lines gives. *)
Theorem parse_is_one_pass (file : File) :
  fst <$> parseWhatsAppChat file
  = Some (finish file
            (foldl processLine start (split (ascii_of_nat 10) (bytes file)))).1.
Proof.
  unfold parseWhatsAppChat, parseWhatsAppChat_fuel.
  destruct (parseLoop_unchunked (bytes file)) as (st & -> & Hst). simpl.
  f_equal. by apply finish_same_core.
Qed.


Lemma same_but_content_refl m : same_but_content m m.
Proof. exists (content m). by destruct m. Qed.

Lemma Forall2_same_refl l : Forall2 same_but_content l l.
Proof. induction l; constructor; auto using same_but_content_refl. Qed.

Lemma Forall2_same_open ms cur c :
  Forall2 same_but_content (ms ++ [cur]) (ms ++ [set_content cur c]).
Proof.
  apply Forall2_app; [apply Forall2_same_refl|].
  constructor; [by exists c|constructor].
Qed.

(** One line either opens a record, after the records there are, or
    leaves their number as it is; the records there are change in
    their content at most. *)
Lemma processLine_produced st raw :
  ∃ old new,
    produced (processLine st raw) = old ++ new
    ∧ Forall2 same_but_content (produced st) old
    ∧ match header_of raw with
      | Some ts => ∃ m, new = [m] ∧ timestamp m = ts
                        ∧ id m = id_of ts (length (produced st))
                        ∧ well_kinded m
      | None => new = []
      end.
Proof.
  unfold header_of, processLine, produced.
  destruct (truthy (trim raw)); simpl.
  - destruct (tryParseMessageLine (trim raw)) as [[timestamp remainder]|]; simpl.
    + set (closed := match currentMessage st with
                     | Some cur => st_messages st ++ [set_content cur (trim (content cur))]
                     | None => st_messages st
                     end).
      assert (Forall2 same_but_content
                (st_messages st ++ option_list (currentMessage st)) closed
              ∧ length closed
                = length (st_messages st ++ option_list (currentMessage st)))
        as [Hold Hlen].
      { subst closed. destruct (currentMessage st) as [cur|]; simpl.
        - split; [apply Forall2_same_open|by rewrite !length_app].
        - rewrite app_nil_r. split; [apply Forall2_same_refl|done]. }
      destruct (str_match SENDER remainder) as [senderMatch|]; simpl;
        eexists closed, [_]; (split; [done|]); (split; [done|]);
        eexists; (split; [done|]); simpl; rewrite Hlen;
        (split; [done|]); (split; [done|]).
      * unfold well_kinded; simpl.
        destruct (isMediaMessage _); simpl;
          [destruct (extractMediaFileName _) as [f|]; simpl;
           [destruct (truthy f) eqn:Hf; simpl|]|];
          repeat split; try done; try (by intros [? ?]); eauto.
      * unfold well_kinded; simpl. destruct (isSystemMessage _); simpl;
          repeat split; try done; by intros [? ?].
    + destruct (currentMessage st) as [cur|] eqn:Hcur; simpl.
      * eexists _, []. rewrite app_nil_r. split; [done|].
        split; [apply Forall2_same_open|done].
      * exists (st_messages st ++ option_list (currentMessage st)), [].
        rewrite Hcur. simpl. rewrite !app_nil_r.
        split; [done|]. split; [apply Forall2_same_refl|done].
  - destruct (currentMessage st) as [cur|] eqn:Hcur; simpl.
    + eexists _, []. rewrite app_nil_r. split; [done|].
      split; [apply Forall2_same_open|done].
    + exists (st_messages st ++ option_list (currentMessage st)), [].
      rewrite Hcur. simpl. rewrite !app_nil_r.
      split; [done|]. split; [apply Forall2_same_refl|done].
Qed.

(** *** White space at the ends *)

Lemma trimStart_head s :
  trimStart s = "" ∨ ∃ a t, trimStart s = String a t ∧ is_space a = false.
Proof.
  induction s as [|a s IH]; simpl; [by left|].
  destruct (is_space a) eqn:Ha; [done|]. right. eauto.
Qed.

Lemma trimEnd_cons a t :
  is_space a = false → trimEnd (String a t) = String a (trimEnd t).
Proof. intros Ha. simpl. rewrite Ha. by destruct (trimEnd t). Qed.

Lemma trimEnd_idemp s : trimEnd (trimEnd s) = trimEnd s.
Proof.
  induction s as [|a s IH]; simpl; [done|].
  destruct (trimEnd s) as [|b t] eqn:Hs.
  - destruct (is_space a) eqn:Ha; simpl; [done|]. by rewrite Ha.
  - simpl in *. by rewrite IH.
Qed.

Lemma trim_idemp s : trim (trim s) = trim s.
Proof.
  unfold trim. destruct (trimStart_head s) as [->|(a & t & -> & Ha)]; [done|].
  rewrite trimEnd_cons by done. simpl. rewrite Ha.
  rewrite <- trimEnd_cons by done. apply trimEnd_idemp.
Qed.

(** *** The ids *)


Lemma append_nil_l (s : string) : "" +:+ s = s.
Proof. done. Qed.

Lemma append_cons (a : ascii) (s t : string) :
  String a s +:+ t = String a (s +:+ t).
Proof. done. Qed.

Lemma no_dash_app_dash a d : ¬ no_dash (a +:+ "-" +:+ d).
Proof.
  induction a as [|c a IH]; rewrite ?append_cons, ?append_nil_l; simpl;
    intros [? ?]; auto.
Qed.

Lemma after_last_dash a b d1 d2 :
  no_dash d1 → no_dash d2 → a +:+ "-" +:+ d1 = b +:+ "-" +:+ d2 → d1 = d2.
Proof.
  intros H1 H2. revert b.
  induction a as [|c a IH]; intros [|c' b] Heq;
    rewrite ?append_cons, ?append_nil_l in Heq.
  - by injection Heq.
  - injection Heq as _ ->. by apply no_dash_app_dash in H1.
  - injection Heq as _ <-. by apply no_dash_app_dash in H2.
  - injection Heq as _ Heq. by eapply IH.
Qed.

Lemma pretty_N_char_no_dash x : pretty_N_char x ≠ "-"%char.
Proof. unfold pretty_N_char. by repeat case_match. Qed.

Lemma pretty_N_go_no_dash x s : no_dash s → no_dash (pretty_N_go x s).
Proof.
  revert s. induction (N.lt_wf_0 x) as [x _ IH]; intros s Hs.
  destruct (decide (0 < x)%N) as [Hx|Hx].
  - rewrite pretty_N_go_step by done. apply IH.
    + by apply N.div_lt.
    + split; [apply pretty_N_char_no_dash|done].
  - assert (x = 0%N) as -> by lia. by rewrite pretty_N_go_0.
Qed.

Lemma pretty_nat_no_dash (k : nat) : no_dash (pretty k).
Proof.
  unfold pretty, pretty_nat, pretty, pretty_N.
  case_decide; [by split|]. by apply pretty_N_go_no_dash.
Qed.

Lemma append_assoc (a b c : string) : (a +:+ b) +:+ c = a +:+ (b +:+ c).
Proof.
  induction a as [|x a IH]; rewrite ?append_nil_l, ?append_cons; [done|].
  by f_equal.
Qed.

(** The id tells the position: two ids are equal only for the same
    position. *)
Lemma id_of_inj t1 t2 k1 k2 : id_of t1 k1 = id_of t2 k2 → k1 = k2.
Proof.
  unfold id_of. rewrite <- !(append_assoc "msg-"). intros Heq.
  apply after_last_dash in Heq; [|apply pretty_nat_no_dash..].
  by apply (inj pretty) in Heq.
Qed.

(** *** What the line loop keeps *)


Lemma same_but_content_fields m m' :
  same_but_content m m' →
  id m' = id m ∧ timestamp m' = timestamp m ∧ (well_kinded m → well_kinded m').
Proof. intros [c ->]. done. Qed.

Lemma processLine_trimmed st raw :
  Forall (fun m => trim (content m) = content m) (st_messages st) →
  Forall (fun m => trim (content m) = content m) (st_messages (processLine st raw)).
Proof.
  intros Hst. unfold processLine.
  destruct (truthy (trim raw)); simpl.
  - destruct (tryParseMessageLine (trim raw)) as [[timestamp remainder]|].
    + assert (Forall (fun m => trim (content m) = content m)
                match currentMessage st with
                | Some cur => st_messages st ++ [set_content cur (trim (content cur))]
                | None => st_messages st
                end) as Hclosed.
      { destruct (currentMessage st) as [cur|]; [|done].
        apply Forall_app. split; [done|]. constructor; [|done].
        simpl. apply trim_idemp. }
      by destruct (str_match SENDER remainder).
    + by destruct (currentMessage st).
  - by destruct (currentMessage st).
Qed.

Lemma processLine_inv lines st raw :
  parse_inv lines st → parse_inv (lines ++ [raw]) (processLine st raw).
Proof.
  intros (Hts & Hids & Hkinds & Htrim).
  destruct (processLine_produced st raw) as (old & new & Hprod & Hold & Hnew).
  assert (length old = length (produced st)) as Hlen
    by (symmetry; by eapply Forall2_length).
  split_and!.
  - rewrite Hprod, fmap_app, omap_app. simpl. f_equal.
    + rewrite <- Hts. clear -Hold.
      induction Hold as [|m m' l l' Hm _ IH]; [done|]. csimpl.
      apply same_but_content_fields in Hm as (_ & -> & _). by f_equal.
    + destruct (header_of raw) as [ts|].
      * destruct Hnew as (m & -> & <- & _). done.
      * by subst new.
  - intros k m. rewrite Hprod. intros Hk.
    apply lookup_app_Some in Hk as [Hk|[Hge Hk]].
    + destruct (Forall2_lookup_r _ _ _ _ _ Hold Hk) as (m0 & Hm0 & Hsame).
      apply same_but_content_fields in Hsame as (-> & -> & _). by apply Hids.
    + destruct (header_of raw) as [ts|]; [|by subst new].
      destruct Hnew as (m' & -> & Ht & Hid & _).
      destruct (k - length old) as [|?] eqn:Hk'; [|done]. simplify_eq/=.
      rewrite Hid. f_equal. lia.
  - rewrite Hprod. apply Forall_app. split.
    + clear -Hold Hkinds.
      induction Hold as [|m m' l l' Hm _ IH]; [done|].
      inversion_clear Hkinds. constructor; [|auto].
      apply same_but_content_fields in Hm as (_ & _ & Hwk). auto.
    + destruct (header_of raw) as [ts|]; [|by subst new].
      destruct Hnew as (m' & -> & _ & _ & Hwk). by constructor.
  - by apply processLine_trimmed.
Qed.

Lemma foldl_processLine_inv lines :
  parse_inv lines (foldl processLine start lines).
Proof.
  induction lines as [|l lines IH] using rev_ind.
  - repeat split; try done.
  - rewrite foldl_app. by apply processLine_inv.
Qed.

(** Closing the open message keeps the invariant, for the output. *)
Lemma finish_inv file lines st :
  parse_inv lines st →
  timestamp <$> messages (finish file st).1 = omap header_of lines
  ∧ (∀ k m, messages (finish file st).1 !! k = Some m →
            id m = id_of (timestamp m) k)
  ∧ Forall well_kinded (messages (finish file st).1)
  ∧ Forall (fun m => trim (content m) = content m) (messages (finish file st).1).
Proof.
  intros (Hts & Hids & Hkinds & Htrim). unfold produced in *. simpl.
  destruct (currentMessage st) as [cur|]; simpl in *.
  - split_and!.
    + by rewrite <- Hts, !fmap_app.
    + intros k m Hk. apply lookup_app_Some in Hk as [Hk|[Hge Hk]].
      * apply Hids. by apply lookup_app_l_Some.
      * destruct (k - length (st_messages st)) as [|?] eqn:Hk'; [|done].
        simplify_eq/=.
        apply (Hids k cur). rewrite lookup_app_r by done. by rewrite Hk'.
    + apply Forall_app in Hkinds as [H1 H2]. apply Forall_app. split; [done|].
      inversion_clear H2. by constructor.
    + apply Forall_app. split; [done|]. constructor; [|done]. apply trim_idemp.
  - rewrite app_nil_r in *. done.
Qed.

Lemma parse_result file :
  ∃ r, fst <$> parseWhatsAppChat file = Some r
       ∧ timestamp <$> messages r
         = omap header_of (split (ascii_of_nat 10) (bytes file))
       ∧ (∀ k m, messages r !! k = Some m → id m = id_of (timestamp m) k)
       ∧ Forall well_kinded (messages r)
       ∧ Forall (fun m => trim (content m) = content m) (messages r).
Proof.
  destruct (parseLoop_unchunked (bytes file)) as (st & Hrun & Hst).
  exists (finish file st).1. split.
  - unfold parseWhatsAppChat, parseWhatsAppChat_fuel. by rewrite Hrun.
  - rewrite (finish_same_core _ _ _ Hst).
    apply finish_inv, foldl_processLine_inv.
Qed.

(** X6.  The messages returned are the header lines of the file, in order:
    one message for each line that, trimmed, is not empty and matches
    a time-stamp pattern, with the time stamp of that line.  Blank
    lines, continuation lines and lines before the first header add no
    message. *)
Theorem parse_one_message_per_header (file : File) :
  ∃ r, fst <$> parseWhatsAppChat file = Some r
       ∧ timestamp <$> messages r
         = omap header_of (split (ascii_of_nat 10) (bytes file)).
Proof. destruct (parse_result file) as (r & ? & ? & _). eauto. Qed.

(** X7.  The ids of the messages of one parse are pairwise different: the
    id of the [k]-th message ends in [-k]. *)
Theorem parse_ids_unique (file : File) :
  ∃ r, fst <$> parseWhatsAppChat file = Some r
       ∧ NoDup (id <$> messages r)
       ∧ ∀ k m, messages r !! k = Some m → id m = id_of (timestamp m) k.
Proof.
  destruct (parse_result file) as (r & Hr & _ & Hids & _).
  exists r. split; [done|]. split; [|done].
  apply NoDup_alt. intros i j x. rewrite !list_lookup_fmap.
  destruct (messages r !! i) as [mi|] eqn:Hi; [|done].
  destruct (messages r !! j) as [mj|] eqn:Hj; [|done].
  simpl. intros [= <-] [= Heq].
  rewrite (Hids _ _ Hi), (Hids _ _ Hj) in Heq. symmetry. by eapply id_of_inj.
Qed.

(** X8.  Every message returned is well kinded: a system message has no
    sender, a media message has one, a file name is bound on media
    messages only and is never empty, a media type comes with a file
    name only, and no media URL is set. *)
Theorem parse_well_kinded (file : File) :
  ∃ r, fst <$> parseWhatsAppChat file = Some r
       ∧ Forall well_kinded (messages r).
Proof. destruct (parse_result file) as (r & ? & _ & _ & ? & _). eauto. Qed.

(** X9.  The content of every message returned is trimmed: it neither
    begins nor ends with white space. *)
Theorem parse_contents_trimmed (file : File) :
  ∃ r, fst <$> parseWhatsAppChat file = Some r
       ∧ Forall (fun m => trim (content m) = content m) (messages r).
Proof. destruct (parse_result file) as (r & ? & _ & _ & _ & ?). eauto. Qed.

(** *** The progress reports *)

Lemma processLine_reports st raw : reports (processLine st raw) = reports st.
Proof.
  unfold processLine.
  destruct (truthy (trim raw)); simpl.
  - destruct (tryParseMessageLine (trim raw)) as [[timestamp remainder]|].
    + by destruct (str_match SENDER remainder).
    + by destruct (currentMessage st).
  - by destruct (currentMessage st).
Qed.

Lemma foldl_processLine_reports lines st :
  reports (foldl processLine st lines) = reports st.
Proof.
  revert st. induction lines as [|l lines IH]; intros st; simpl; [done|].
  by rewrite IH, processLine_reports.
Qed.


Lemma reports_inv_snoc n p e rs :
  p ≤ e → reports_inv n p rs → reports_inv n e (rs ++ [mkProgress n e parsing]).
Proof.
  intros Hpe (Hhead & Hall & Hmono). split_and!.
  - destruct rs; [done|]. done.
  - apply Forall_app. split; [|by repeat constructor].
    eapply Forall_impl; [done|]. intros r (? & ? & ?). split_and!; [done|lia|done].
  - rewrite fmap_app. apply StorageFacts.nondecreasing_snoc; [done|].
    apply Forall_fmap. eapply Forall_impl; [done|]. intros r (? & ? & ?). simpl. lia.
Qed.

(** X10.  The calls of the progress callback, in order.  First the
    reading stage: one call for every progress event of the reader
    whose length is computable, with the numbers of the event (bytes)
    and the status [reading].  When the reader fails the promise is
    rejected and there is no further call.  When it loads, the parsing
    stage follows: first [0] of the number of lines, then after each
    chunk the lines done so far, never less than before in this stage,
    and last the whole number of lines with the status [complete];
    every call of this stage carries the number of lines as total. *)
Theorem parse_progress (reader : Reader) (file : File) :
  ∃ r st rs,
    parseWhatsAppChat file = Some (r, st)
    ∧ parseWhatsAppChat_with reader file
      = (if fails reader then None else Some r,
         ((fun e => mkProgress (ev_total e) (loaded e) reading)
            <$> filter (fun e => lengthComputable e = true)
                       (progress_events reader))
         ++ (if fails reader then [] else reports st))
    ∧ reports st
      = rs ++ [mkProgress (length (split (ascii_of_nat 10) (bytes file)))
                          (length (split (ascii_of_nat 10) (bytes file))) complete]
    ∧ head rs = Some (mkProgress (length (split (ascii_of_nat 10) (bytes file)))
                                 0 parsing)
    ∧ Forall (fun p => total p = length (split (ascii_of_nat 10) (bytes file))
                       ∧ status p = parsing) rs
    ∧ Storage.nondecreasing (processed <$> reports st).
Proof.
  assert (∀ events,
            concat (onprogress <$> events)
            = (fun e => mkProgress (ev_total e) (loaded e) reading)
                <$> filter (fun e => lengthComputable e = true) events)
    as Hreading.
  { induction events as [|e events IH]; [done|].
    rewrite fmap_cons, filter_cons. cbn [concat]. rewrite IH.
    unfold onprogress. destruct (lengthComputable e) eqn:E.
    - by rewrite decide_True.
    - by rewrite decide_False. }
  unfold parseWhatsAppChat_with. rewrite Hreading.
  unfold parseWhatsAppChat, parseWhatsAppChat_fuel, parseLoop.
  set (lines := split (ascii_of_nat 10) (bytes file)).
  destruct (chunkLoop_inv
              (fun p st => reports_inv (length lines) p (reports st))
              CHUNK_SIZE (length lines) (processChunk lines))
    with (fuel := length lines) (start := 0)
         (st := report (mkProgress (length lines) 0 parsing) (mkState [] None ∅ []))
    as (st & -> & Hhead & Hall & Hmono).
  - by apply Nat.leb_le; vm_compute.
  - intros s st Hs Hst. unfold processChunk. simpl.
    rewrite foldl_processLine_reports. apply (reports_inv_snoc _ s); [lia|done].
  - lia.
  - simpl. split_and!; [done|by repeat constructor|].
    intros i j x y Hij Hi Hj. destruct i, j; simplify_eq/=; done.
  - simpl. eexists _, _, (reports st). split; [done|]. simpl. fold lines.
    split; [by destruct (fails reader); rewrite ?app_nil_r|].
    split; [done|]. split; [done|]. split.
    + eapply Forall_impl; [done|]. by intros p (? & ? & ?).
    + rewrite fmap_app. apply StorageFacts.nondecreasing_snoc; [done|].
      apply Forall_fmap. eapply Forall_impl; [done|]. by intros p (? & ? & ?).
Qed.

End ParserMore.

(* ===================================================================== *)
(** * Further properties of intake validation *)
(* ===================================================================== *)

Module ValidationMore.
Import JS Types Validation ValidationFacts.
Import ParserMore (append_nil_l, append_cons).


(** *** Strings *)

Lemma length_append (s t : string) :
  String.length (s +:+ t) = String.length s + String.length t.
Proof.
  induction s as [|a s IH]; rewrite ?append_cons, ?append_nil_l; simpl; [done|].
  by rewrite IH.
Qed.

Lemma drop_str_append (s t : string) : drop_str (String.length s) (s +:+ t) = t.
Proof.
  induction s as [|a s IH]; rewrite ?append_cons, ?append_nil_l; simpl; [|done].
  by destruct t.
Qed.

Lemma endsWith_append (s t : string) : endsWith (s +:+ t) t = true.
Proof.
  unfold endsWith. rewrite length_append.
  replace (String.length s + String.length t - String.length t)
    with (String.length s) by lia.
  rewrite drop_str_append, String.eqb_refl. simpl. apply Nat.leb_le. lia.
Qed.

Lemma toLowerCase_append (s t : string) :
  toLowerCase (s +:+ t) = toLowerCase s +:+ toLowerCase t.
Proof.
  induction s as [|a s IH]; rewrite ?append_cons, ?append_nil_l; [done|].
  unfold toLowerCase in *. simpl. rewrite append_cons. by f_equal.
Qed.

Lemma lower_ascii_idemp a : lower_ascii (lower_ascii a) = lower_ascii a.
Proof. by destruct a as [[] [] [] [] [] [] [] []]. Qed.

Lemma lower_ascii_dot a :
  Ascii.eqb "." (lower_ascii a) = Ascii.eqb "." a.
Proof. by destruct a as [[] [] [] [] [] [] [] []]. Qed.

Lemma toLowerCase_idemp s : toLowerCase (toLowerCase s) = toLowerCase s.
Proof.
  unfold toLowerCase. induction s as [|a s IH]; simpl; [done|].
  by rewrite lower_ascii_idemp, IH.
Qed.

Lemma contains_dot_toLowerCase s :
  contains_char "." (toLowerCase s) = contains_char "." s.
Proof.
  unfold toLowerCase. induction s as [|a s IH]; [done|].
  cbn [map_string contains_char]. by rewrite lower_ascii_dot, IH.
Qed.

(** *** Splitting at the dots *)

Lemma split_nonempty sep s : split sep s ≠ [].
Proof.
  destruct s as [|a s]; simpl; [done|].
  destruct (Ascii.eqb a sep); [done|]. by destruct (split sep s).
Qed.

Lemma split_no_sep sep s :
  Forall (fun p => contains_char sep p = false) (split sep s).
Proof.
  induction s as [|a s IH]; simpl; [by repeat constructor|].
  destruct (Ascii.eqb a sep) eqn:Ha.
  - by constructor.
  - rewrite Ascii.eqb_sym in Ha.
    destruct (split sep s) as [|p ps].
    + repeat constructor. simpl. by rewrite Ha.
    + inversion_clear IH. constructor; [|done]. simpl. by rewrite Ha.
Qed.

(** A name with a dot ends in the dot and its last part. *)
Lemma split_last_part s :
  1 < length (split "." s) →
  ∃ pre, s = pre +:+ "." +:+ default "" (last (split "." s)).
Proof.
  induction s as [|a s IH]; simpl; [lia|].
  destruct (Ascii.eqb_spec a ".") as [->|Ha].
  - destruct (split "." s) as [|p ps] eqn:Hs; [by apply split_nonempty in Hs|].
    simpl. intros _. destruct ps as [|p' ps].
    + exists "". simpl.
      assert (s = p) as ->; [|done].
      clear IH. revert p Hs. induction s as [|b s IH]; intros p Hs; simpl in *.
      * by simplify_eq.
      * destruct (Ascii.eqb b ".").
        { destruct (split "." s) eqn:E; [by apply split_nonempty in E|done]. }
        destruct (split "." s) as [|q qs] eqn:E; [by apply split_nonempty in E|].
        simplify_eq. f_equal. by apply IH.
    + destruct IH as [pre Hpre]; [simpl; lia|].
      exists (String "." pre). rewrite append_cons. f_equal. exact Hpre.
  - destruct (split "." s) as [|p ps] eqn:Hs; [by apply split_nonempty in Hs|].
    simpl. intros Hlen. destruct ps as [|p' ps]; [simpl in Hlen; lia|].
    destruct IH as [pre Hpre]; [simpl; lia|].
    exists (String a pre). rewrite append_cons. f_equal. exact Hpre.
Qed.

(** The extension has no dot in it, and is in lower case. *)
Lemma getFileExtension_no_dot name :
  contains_char "." (getFileExtension name) = false.
Proof.
  unfold getFileExtension. case_match; [|done].
  rewrite contains_dot_toLowerCase.
  pose proof (split_no_sep "." name) as Hall.
  destruct (last (split "." name)) as [p|] eqn:Hl; [|done].
  apply last_Some_elem_of in Hl. rewrite Forall_forall in Hall. by apply Hall.
Qed.

Lemma getFileExtension_lower name :
  toLowerCase (getFileExtension name) = getFileExtension name.
Proof.
  unfold getFileExtension. case_match; [|done]. apply toLowerCase_idemp.
Qed.

(** A name with the extension [e] ends, in lower case, in [.e]. *)
Lemma getFileExtension_endsWith name :
  getFileExtension name ≠ "" →
  endsWith (toLowerCase name) ("." +:+ getFileExtension name) = true.
Proof.
  unfold getFileExtension. destruct (Nat.ltb_spec 1 (length (split "." name)));
    [|done].
  intros _. destruct (split_last_part name) as [pre Hpre]; [done|].
  rewrite Hpre at 1. rewrite !toLowerCase_append. apply endsWith_append.
Qed.


(** *** The classification loop *)

Lemma snoc_ne {A} (l : list A) (x : A) : l ++ [x] ≠ l.
Proof.
  intros H. apply (f_equal length) in H. rewrite length_app in H. simpl in H. lia.
Qed.

(** Of the three names the loop means to pass over in silence, an
    extension can only be the first: the other two have a dot. *)
Lemma skip_list_reduces name :
  truthy (getFileExtension name)
  && negb (bool_decide (toLowerCase (getFileExtension name)
                          ∈ ["ds_store"; "thumbs.db"; "desktop.ini"]))
  = negb (String.eqb (getFileExtension name) ""
          || String.eqb (getFileExtension name) "ds_store").
Proof.
  rewrite getFileExtension_lower.
  pose proof (getFileExtension_no_dot name) as Hdot.
  destruct (String.eqb_spec (getFileExtension name) "") as [->|Hne];
    [done|].
  destruct (String.eqb_spec (getFileExtension name) "ds_store") as [->|Hds];
    [done|].
  assert (truthy (getFileExtension name) = true) as ->
    by by destruct (getFileExtension name).
  simpl. apply negb_true_iff, bool_decide_eq_false.
  rewrite !elem_of_cons, elem_of_nil.
  intros [?|[E|[E|[]]]]; [done|..]; by rewrite E in Hdot.
Qed.

Lemma classify_cases acc file :
  classify acc file
  = if is_txt file then
      mkSorted (txtFiles acc ++ [file]) (mediaFiles_acc acc)
               (skippedFiles acc) (warnings_acc acc)
    else if is_accepted_media file then
      mkSorted (txtFiles acc) (mediaFiles_acc acc ++ [file])
               (skippedFiles acc) (warnings_acc acc)
    else if is_ignored file then acc
    else
      mkSorted (txtFiles acc) (mediaFiles_acc acc)
               (skippedFiles acc ++ [name file])
               (warnings_acc acc ++
                  if bool_decide (getFileExtension (name file)
                                    ∈ ALLOWED_MEDIA_EXTENSIONS)
                  then ["Skipping " +:+ name file +:+ ": file too large (max 2GB)"]
                  else []).
Proof.
  unfold classify, is_accepted_media, is_ignored, is_txt.
  rewrite skip_list_reduces.
  destruct (String.eqb (getFileExtension (name file)) "txt"); simpl; [done|].
  destruct (bool_decide (getFileExtension (name file) ∈ ALLOWED_MEDIA_EXTENSIONS));
    simpl.
  - by destruct (MAX_SINGLE_MEDIA_SIZE <? File_size file)%N.
  - destruct (_ || _); simpl; [done|]. by rewrite app_nil_r.
Qed.

Lemma foldl_classify_mediaFiles files acc :
  mediaFiles_acc (foldl classify acc files)
  = mediaFiles_acc acc ++ filter (fun f => is_accepted_media f = true) files.
Proof.
  revert acc. induction files as [|f files IH]; intros acc; simpl.
  - by rewrite app_nil_r.
  - rewrite IH, classify_cases.
    unfold is_accepted_media at 2.
    destruct (is_txt f) eqn:Ht; simpl.
    + rewrite filter_cons_False; [done|].
      unfold is_accepted_media. by rewrite Ht.
    + destruct (is_accepted_media f) eqn:Hm.
      * rewrite filter_cons_True by done. simpl. by rewrite <- app_assoc.
      * rewrite filter_cons_False by (by rewrite Hm).
        by destruct (is_ignored f).
Qed.

Lemma foldl_classify_skippedFiles files acc :
  skippedFiles (foldl classify acc files)
  = skippedFiles acc ++ (name <$> filter (fun f => is_skipped f = true) files).
Proof.
  revert acc. induction files as [|f files IH]; intros acc; simpl.
  - by rewrite app_nil_r.
  - rewrite IH, classify_cases. unfold is_skipped at 2.
    destruct (is_txt f) eqn:Ht; simpl.
    + rewrite filter_cons_False; [done|]. unfold is_skipped. by rewrite Ht.
    + destruct (is_accepted_media f) eqn:Hm; simpl.
      * rewrite filter_cons_False; [done|]. unfold is_skipped. by rewrite Ht, Hm.
      * destruct (is_ignored f) eqn:Hi; simpl.
        -- rewrite filter_cons_False; [done|].
           unfold is_skipped. by rewrite Ht, Hm, Hi.
        -- rewrite filter_cons_True by (unfold is_skipped; by rewrite Ht, Hm, Hi).
           csimpl. by rewrite <- app_assoc.
Qed.

(** X11.  The media of a valid folder are the files of the list with
    an allowed extension other than txt and of at most 2GB, all of
    them and in the order of the list. *)
Theorem validateFolder_media_files (files : list File) :
  valid (validateFolder files) = true →
  (details (validateFolder files) ≫= mediaFiles)
  = Some (filter (fun f => is_accepted_media f = true) files).
Proof.
  unfold validateFolder.
  destruct (length files =? 0); [done|].
  pose proof (foldl_classify_mediaFiles files (mkSorted [] [] [] [])) as Hm.
  destruct (txtFiles (foldl classify (mkSorted [] [] [] []) files))
    as [|first rest]; [done|].
  cbv zeta.
  destruct (valid (validateTextFile first default_options));
    cbn [negb valid details mbind option_bind mediaFiles]; [|done].
  intros _. by rewrite Hm.
Qed.

(** X12.  A file leaves no trace in the classification of a folder
    exactly when it is no text file, has no allowed media extension,
    and has no extension at all or the extension ds_store; the names
    thumbs.db and desktop.ini of the skip list match no extension.
    The skipped files are all the others that are neither the text
    files nor the accepted media, in the order of the list. *)
Theorem classify_ignores_iff (acc : Sorted) (file : File) (files : list File) :
  (classify acc file = acc ↔ is_ignored file = true)
  ∧ skippedFiles (foldl classify acc files)
    = skippedFiles acc ++ (name <$> filter (fun f => is_skipped f = true) files)
  ∧ (getFileExtension (name file) = "db" ∨ getFileExtension (name file) = "ini" →
     skippedFiles (classify acc file) = skippedFiles acc ++ [name file]).
Proof.
  split_and!.
  - rewrite classify_cases.
    destruct (is_txt file) eqn:Ht.
    { unfold is_ignored. rewrite Ht. simpl. split; [|done].
      intros H. apply (f_equal txtFiles) in H. simpl in H.
      by apply snoc_ne in H. }
    destruct (is_accepted_media file) eqn:Hm.
    { split.
      - intros H. apply (f_equal mediaFiles_acc) in H. simpl in H.
        by apply snoc_ne in H.
      - unfold is_ignored, is_accepted_media in *. rewrite Ht in *. simpl in *.
        destruct (bool_decide _); simpl in *; done. }
    destruct (is_ignored file); [done|]. split; [|done].
    intros H. apply (f_equal skippedFiles) in H. simpl in H.
    by apply snoc_ne in H.
  - apply foldl_classify_skippedFiles.
  - intros Hext. rewrite classify_cases.
    unfold is_txt, is_accepted_media, is_ignored, is_txt.
    by destruct Hext as [-> | ->].
Qed.

(** *** The whole intake *)

(** Two messages that differ in their character at [n]. *)
Ltac differ_at n :=
  let H := fresh in
  intros [= H]; apply (f_equal (String.get n)) in H; lazy in H; discriminate H.

Ltac split_ifs :=
  repeat match goal with
         | |- context [if ?b then _ else _] => destruct b
         | |- context [match ?b with Some _ => _ | None => _ end] => destruct b
         end.

Lemma validateTextFile_fileType file options :
  endsWith (toLowerCase (name file)) ".txt" = true →
  fileType (validateTextFile file options) = txt
  ∧ error (validateTextFile file options) ≠ Some "File must be a .txt file"
  ∧ error (validateTextFile file options) ≠ Some "File must be a .zip file".
Proof.
  intros He. unfold validateTextFile. rewrite He. cbn [negb].
  split_ifs; cbn [fileType error invalid];
    (split_and!; [reflexivity|first [differ_at 5|discriminate]..]).
Qed.

Lemma validateZipFile_fileType file :
  endsWith (toLowerCase (name file)) ".zip" = true →
  fileType (validateZipFile file) = zip
  ∧ error (validateZipFile file) ≠ Some "File must be a .txt file"
  ∧ error (validateZipFile file) ≠ Some "File must be a .zip file".
Proof.
  intros He. unfold validateZipFile. rewrite He. cbn [negb].
  split_ifs; cbn [fileType error invalid];
    (split_and!; [reflexivity|first [differ_at 1|discriminate]..]).
Qed.

Lemma first_txt_endsWith files first rest :
  filter (fun f => is_txt f = true) files = first :: rest →
  endsWith (toLowerCase (name first)) ".txt" = true.
Proof.
  intros Ht.
  assert (first ∈ filter (fun f => is_txt f = true) files) as Hin
    by (rewrite Ht; left).
  apply list_elem_of_filter in Hin as [Hfirst _].
  unfold is_txt in Hfirst. apply String.eqb_eq in Hfirst.
  pose proof (getFileExtension_endsWith (name first)) as H.
  rewrite Hfirst in H. by apply H.
Qed.

Lemma validateFolder_fileType files :
  fileType (validateFolder files) = folder
  ∧ error (validateFolder files) ≠ Some "File must be a .txt file"
  ∧ error (validateFolder files) ≠ Some "File must be a .zip file".
Proof.
  unfold validateFolder.
  destruct (length files =? 0).
  { cbn [fileType error invalid]. split_and!; [reflexivity|discriminate..]. }
  pose proof (foldl_classify_txtFiles files (mkSorted [] [] [] [])) as Ht.
  destruct (txtFiles (foldl classify (mkSorted [] [] [] []) files))
    as [|first rest] eqn:Htxt.
  { cbn [fileType error invalid]. split_and!; [reflexivity|discriminate..]. }
  cbn [txtFiles app] in Ht. symmetry in Ht. apply first_txt_endsWith in Ht.
  destruct (validateTextFile_fileType first default_options Ht) as (_ & E1 & E2).
  cbv zeta.
  destruct (valid (validateTextFile first default_options)); cbn [negb fileType error].
  - split_and!; [reflexivity|discriminate..].
  - done.
Qed.

(** X13.  Through [validateInput] the file type of the verdict is
    decided by the name alone: folder for a file list, and for one
    file txt, zip or unknown as its extension is txt, zip or anything
    else.  The guards of the two file validators on the end of the
    name never fire: neither of their two messages is the error. *)
Theorem validateInput_fileType (input : Input) :
  fileType (validateInput input) = fileType_of input
  ∧ error (validateInput input) ≠ Some "File must be a .txt file"
  ∧ error (validateInput input) ≠ Some "File must be a .zip file".
Proof.
  destruct input as [file|files]; cbn [validateInput fileType_of].
  - pose proof (getFileExtension_endsWith (name file)) as Hends. cbv zeta.
    destruct (String.eqb_spec (getFileExtension (name file)) "txt") as [Ht|Ht].
    { rewrite Ht in Hends. by apply validateTextFile_fileType, Hends. }
    destruct (String.eqb_spec (getFileExtension (name file)) "zip") as [Hz|Hz].
    { rewrite Hz in Hends. by apply validateZipFile_fileType, Hends. }
    cbn [fileType error invalid]. split_and!; [reflexivity|differ_at 0..].
  - apply validateFolder_fileType.
Qed.

(** X14.  The verdict on a text file is taken from its name, from
    whether it is above 500MB, and from its first 10000 bytes: two
    files that agree on these get the same verdict, error, warnings
    and file type. *)
Theorem validateTextFile_sample_only (f g : File) (options : FileValidationOptions) :
  name f = name g →
  take_str 10000 (bytes f) = take_str 10000 (bytes g) →
  ((MAX_TEXT_FILE_SIZE <? File_size f)%N = (MAX_TEXT_FILE_SIZE <? File_size g)%N) →
  valid (validateTextFile f options) = valid (validateTextFile g options)
  ∧ error (validateTextFile f options) = error (validateTextFile g options)
  ∧ warnings (validateTextFile f options) = warnings (validateTextFile g options)
  ∧ fileType (validateTextFile f options) = fileType (validateTextFile g options).
Proof.
  intros Hn Hb Hs.
  assert ((File_size f =? 0)%N = (File_size g =? 0)%N) as Hz.
  { unfold File_size.
    assert (∀ a s, take_str 10000 (String a s) ≠ "") as Hne.
    { intros a s. change 10000 with (S 9999). discriminate. }
    destruct (bytes f) as [|a s], (bytes g) as [|b t]; try reflexivity.
    - symmetry in Hb. by apply Hne in Hb.
    - by apply Hne in Hb. }
  unfold validateTextFile, readFileSample. rewrite Hn, Hb, Hs, Hz.
  split_ifs; split_and!; reflexivity.
Qed.

End ValidationMore.

(* ===================================================================== *)
(** * Soundness of the matcher *)
(* ===================================================================== *)

Module RegexSound.
Import JS Regex.
Import ParserMore (append_nil_l, append_cons, append_assoc).
Import ValidationMore (length_append, toLowerCase_append).

Lemma star_loop_sound r k :
  (∀ pos s c k res, rmatch r pos s c k = Some res → sound_at r pos s c k res) →
  ∀ n pos s c res,
    star_loop (rmatch r) k n pos s c = Some res →
    sound_at (RStar r) pos s c k res.
Proof.
  intros IHr. induction n as [|n IHn]; intros pos s c res; cbn [star_loop].
  - destruct (rmatch r pos s c _) as [x|] eqn:E.
    + apply IHr in E as (w & rest & c' & _ & _ & _ & _ & Hk).
      by destruct (pos <? pos + String.length w).
    + intros Hk. exists "", s, c. rewrite Nat.add_0_r. by split_and!.
  - destruct (rmatch r pos s c _) as [x|] eqn:E.
    + intros [= ->].
      apply IHr in E as (w1 & rest1 & c1 & -> & _ & Hlen1 & Hc1 & Hk).
      destruct (pos <? pos + String.length w1); [|done].
      apply IHn in Hk as (w2 & rest & c2 & -> & _ & Hlen2 & Hc2 & Hk).
      exists (w1 +:+ w2), rest, c2. split_and!.
      * by rewrite append_assoc.
      * done.
      * congruence.
      * intros i Hi. cbn [mentions] in *. rewrite Hc2, Hc1 by done. done.
      * by rewrite length_append, Nat.add_assoc.
    + intros Hk. exists "", s, c. rewrite Nat.add_0_r. by split_and!.
Qed.

Lemma rmatch_sound r pos s c k res :
  rmatch r pos s c k = Some res → sound_at r pos s c k res.
Proof.
  revert pos s c k res.
  induction r as [| | |p|r1 IH1 r2 IH2|r1 IH1 r2 IH2|r1 IH1|i r1 IH1];
    intros pos s c k res; cbn [rmatch].
  - destruct (Nat.eqb_spec pos 0) as [->|]; [|done]. intros Hk.
    exists "", s, c. by split_and!.
  - destruct s; [|done]. intros Hk. exists "", "", c.
    rewrite Nat.add_0_r. by split_and!.
  - intros Hk. exists "", s, c. rewrite Nat.add_0_r. by split_and!.
  - destruct s as [|a s]; [done|]. destruct (p a) eqn:Hp; [|done]. intros Hk.
    exists (String a ""), s, c. cbn [String.length]. rewrite Nat.add_1_r.
    split_and!; try done. by exists a.
  - intros H. apply IH1 in H as (w1 & rest1 & c1 & -> & Ha1 & Hlen1 & Hc1 & H).
    apply IH2 in H as (w2 & rest & c2 & -> & Ha2 & Hlen2 & Hc2 & H).
    exists (w1 +:+ w2), rest, c2. split_and!.
    + by rewrite append_assoc.
    + by exists w1, w2.
    + congruence.
    + intros i Hi. cbn [mentions] in Hi. apply orb_false_iff in Hi as [? ?].
      by rewrite Hc2, Hc1.
    + by rewrite length_append, Nat.add_assoc.
  - destruct (rmatch r1 pos s c k) as [x|] eqn:E.
    + intros [= ->]. apply IH1 in E as (w & rest & c' & ? & ? & ? & Hc & ?).
      exists w, rest, c'. split_and!; try done; [by left|].
      intros i Hi. cbn [mentions] in Hi. apply orb_false_iff in Hi as [? ?].
      by apply Hc.
    + intros H. apply IH2 in H as (w & rest & c' & ? & ? & ? & Hc & ?).
      exists w, rest, c'. split_and!; try done; [by right|].
      intros i Hi. cbn [mentions] in Hi. apply orb_false_iff in Hi as [? ?].
      by apply Hc.
  - by apply star_loop_sound.
  - intros H. apply IH1 in H as (w & rest & c' & -> & Ha & Hlen & Hc & H).
    exists w, rest,
      (<[i := Some (take_str (pos + String.length w - pos) (w +:+ rest))]> c').
    split_and!; [done|done| | |exact H].
    + by rewrite length_insert.
    + intros j Hj. cbn [mentions] in Hj. apply orb_false_iff in Hj as [Hne ?].
      apply Nat.eqb_neq in Hne. rewrite list_lookup_insert_ne by done.
      by apply Hc.
Qed.

(** What group [i] holds after a match of [r1 (G) t], when [t] has no
    group [i]: a string that [G] matches. *)
Lemma group_captured r1 i G t pos s c res :
  mentions i t = false → i < length c →
  rmatch (RSeq r1 (RSeq (RGroup i G) t)) pos s c final = Some res →
  ∃ p w rest, accepts G p w rest ∧ res.2 !! i = Some (Some w).
Proof.
  intros Hi Hlen H. cbn [rmatch] in H.
  apply rmatch_sound in H as (w1 & rest1 & c1 & -> & _ & Hlen1 & _ & H).
  cbn [rmatch] in H.
  apply rmatch_sound in H as (w & rest & c2 & -> & Ha & Hlen2 & _ & H).
  apply rmatch_sound in H as (w3 & rest3 & c3 & -> & _ & Hlen3 & Hc3 & H).
  unfold final in H. injection H as <-. cbn [snd].
  exists (pos + String.length w1), w, (w3 +:+ rest3). split; [done|].
  rewrite Hc3 by done. unfold captures.
  rewrite list_lookup_insert_eq by congruence.
  do 2 f_equal.
  replace (pos + String.length w1 + String.length w - (pos + String.length w1))
    with (String.length w) by lia.
  clear. induction w as [|a w IH]; [by destruct (w3 +:+ rest3)|].
  rewrite append_cons. cbn [String.length take_str]. by f_equal.
Qed.

Lemma search_from_exec r pos s m :
  search_from r pos s = Some m → ∃ pos' s', exec_at r pos' s' = Some m.
Proof.
  revert pos. induction s as [|a s IH]; intros pos; cbn [search_from].
  - destruct (exec_at r pos "") eqn:E; [|done]. intros [= <-]. eauto.
  - destruct (exec_at r pos (String a s)) eqn:E.
    + intros [= <-]. eauto.
    + apply IH.
Qed.

Lemma accepts_ralt rs pos w rest :
  accepts (ralt rs) pos w rest → ∃ r, r ∈ rs ∧ accepts r pos w rest.
Proof.
  induction rs as [|r rs IH]; cbn [ralt].
  - by intros (a & _ & ?).
  - destruct rs as [|r' rs].
    + intros H. exists r. split; [left|done].
    + cbn [accepts]. intros [H|H].
      * exists r. split; [left|done].
      * destruct (IH H) as (r0 & Hin & Hr0). exists r0. split; [by right|done].
Qed.

Lemma accepts_lit_i x pos w rest :
  accepts (lit_i x) pos w rest → toLowerCase w = toLowerCase x.
Proof.
  revert pos w. induction x as [|a x IH]; intros pos w; cbn [lit_i].
  - by intros ->.
  - destruct x as [|b x].
    + intros (c & -> & Hc). unfold chr_i in *.
      apply Ascii.eqb_eq in Hc. unfold toLowerCase. simpl. by rewrite Hc.
    + cbn [accepts]. intros (w1 & w2 & -> & (c & -> & Hc) & H2).
      apply IH in H2. apply Ascii.eqb_eq in Hc.
      rewrite append_cons, append_nil_l. unfold toLowerCase in *.
      cbn [map_string]. rewrite Hc. by f_equal.
Qed.

End RegexSound.

(* ===================================================================== *)
(** * The file names the parser finds *)
(* ===================================================================== *)

Module ParserNames.
Import JS Regex Types Parser MediaMatcher RegexSound.
Import ParserMore (append_nil_l, append_cons, append_assoc, trimEnd_cons).
Import ValidationMore (length_append, toLowerCase_append).

Lemma word_char_lower a : word_char (lower_ascii a) = word_char a.
Proof. by destruct a as [[] [] [] [] [] [] [] []]. Qed.

Lemma all_word_lower s : all_word (toLowerCase s) = all_word s.
Proof.
  unfold toLowerCase. induction s as [|a s IH]; [done|].
  cbn [map_string all_word]. by rewrite word_char_lower, IH.
Qed.

Lemma trimEnd_word e : all_word e = true → trimEnd e = e.
Proof.
  induction e as [|a e IH]; [done|]. cbn [all_word].
  intros [Ha He]%andb_true_iff. unfold word_char in Ha.
  apply andb_true_iff in Ha as [Ha _]. apply negb_true_iff in Ha.
  rewrite trimEnd_cons by done. by rewrite IH.
Qed.

Lemma trimEnd_app a b :
  trimEnd b ≠ "" → trimEnd (a +:+ b) = a +:+ trimEnd b.
Proof.
  intros Hb. induction a as [|x a IH]; [done|].
  rewrite !append_cons. cbn [trimEnd]. rewrite IH.
  destruct (a +:+ trimEnd b) eqn:E; [|done].
  destruct a; [|done]. by rewrite append_nil_l in E.
Qed.

Lemma trim_dotted a e :
  e ≠ "" → all_word e = true →
  ∃ a', trim (a +:+ "." +:+ e) = a' +:+ "." +:+ e.
Proof.
  intros Hne He.
  assert (trimEnd ("." +:+ e) = "." +:+ e) as Hend.
  { rewrite append_cons, append_nil_l, trimEnd_cons by done.
    by rewrite trimEnd_word. }
  assert (∃ a', trimStart (a +:+ "." +:+ e) = a' +:+ "." +:+ e) as [a' Ha'].
  { induction a as [|x a IH]; [by exists ""|].
    rewrite append_cons. cbn [trimStart].
    destruct (is_space x); [done|]. by exists (String x a). }
  exists a'. unfold trim. rewrite Ha', trimEnd_app; rewrite Hend; done.
Qed.

Lemma split_word e : all_word e = true → split "." e = [e].
Proof.
  induction e as [|a e IH]; [done|]. cbn [all_word].
  intros [Ha He]%andb_true_iff. unfold word_char in Ha.
  apply andb_true_iff in Ha as [_ Ha]. apply negb_true_iff in Ha.
  cbn [split]. rewrite Ha, IH by done. done.
Qed.

Lemma split_dotted a e :
  all_word e = true →
  ∃ p pre, split "." (a +:+ "." +:+ e) = p :: pre ++ [e].
Proof.
  intros He. induction a as [|x a (p & pre & IH)].
  - exists "", []. rewrite append_nil_l, append_cons, append_nil_l.
    cbn [split]. rewrite Ascii.eqb_refl. by rewrite split_word.
  - rewrite append_cons. cbn [split]. rewrite IH.
    destruct (Ascii.eqb x "."); [by exists "", (p :: pre)|].
    by exists (String x p), pre.
Qed.

Lemma extension_dotted a e :
  all_word e = true → extension (a +:+ "." +:+ e) = toLowerCase e.
Proof.
  intros He. unfold extension. destruct (split_dotted a e He) as (p & pre & ->).
  by rewrite app_comm_cons, last_snoc.
Qed.

(** The names the parser takes from the text end in one of its
    extensions. *)
Lemma extractMediaFileName_extension content n :
  extractMediaFileName content = Some n → extension n ∈ PARSER_EXTS.
Proof.
  unfold extractMediaFileName.
  destruct (str_match FILE_ATTACHED content) as [m|] eqn:Hm; [|done].
  unfold str_match in Hm. apply search_from_exec in Hm as (pos & s & Hm).
  unfold exec_at in Hm.
  destruct (rmatch FILE_ATTACHED pos s _ final) as [[pos' c]|] eqn:Hrun; [|done].
  injection Hm as <-.
  apply (group_captured RBegin 1
           (rseq [plus dot; chr "."; ext_group 2 PARSER_EXTS])
           (rseq [RStar space; lit_i "(file attached)"; REnd]))
    in Hrun as (p & w & rest & Hacc & Hc); [|by vm_compute|vm_compute; lia].
  cbn [snd] in Hc. unfold group, captures in *.
  rewrite list_lookup_insert_ne by done. rewrite Hc.
  cbn [default fmap option_fmap option_map]. intros [= <-].
  cbn [rseq accepts] in Hacc.
  destruct Hacc as (w1 & w2 & -> & _ & w3 & e & -> & (a & -> & Ha) & Hext).
  apply Ascii.eqb_eq in Ha as <-.
  unfold ext_group in Hext. cbn [accepts] in Hext.
  apply accepts_ralt in Hext as (r & Hr & Hext).
  apply list_elem_of_fmap in Hr as (x & -> & Hx).
  apply accepts_lit_i in Hext.
  assert (toLowerCase x = x ∧ all_word x = true ∧ x ≠ "") as (Hlow & Hword & Hne).
  { clear -Hx. unfold PARSER_EXTS in Hx.
    repeat (apply elem_of_cons in Hx as [->|Hx]; [done|]).
    by apply elem_of_nil in Hx. }
  rewrite Hlow in Hext.
  assert (all_word e = true) as He by (by rewrite <- all_word_lower, Hext).
  assert (e ≠ "") as Hene by (intros ->; by rewrite <- Hext in Hne).
  destruct (trim_dotted w1 e Hene He) as [a' ->].
  by rewrite extension_dotted, Hext.
Qed.

Lemma PARSER_EXTS_declared ext : ext ∈ PARSER_EXTS → inherited ext = None.
Proof.
  unfold PARSER_EXTS. intros Hx.
  repeat (apply elem_of_cons in Hx as [->|Hx]; [done|]).
  by apply elem_of_nil in Hx.
Qed.

Lemma declared_set_content m c : declared_name m → declared_name (set_content m c).
Proof. done. Qed.

Lemma declared_closed st :
  Forall declared_name (produced st) →
  Forall declared_name
    match currentMessage st with
    | Some cur => st_messages st ++ [set_content cur (trim (content cur))]
    | None => st_messages st
    end.
Proof.
  unfold produced. destruct (currentMessage st) as [cur|]; cbn [option_list].
  - intros [H1 H2]%Forall_app. apply Forall_app. split; [done|].
    change (Forall declared_name [cur]) in H2.
    apply Forall_singleton. rewrite Forall_singleton in H2. exact H2.
  - by rewrite app_nil_r.
Qed.

Lemma declared_open st c :
  Forall declared_name (produced st) →
  Forall declared_name
    (st_messages st
     ++ option_list ((fun cur => set_content cur (c cur)) <$> currentMessage st)).
Proof.
  unfold produced. destruct (currentMessage st) as [cur|]; [|done].
  intros [H1 H2]%Forall_app. apply Forall_app. split; [done|].
  change (Forall declared_name [cur]) in H2.
  change (Forall declared_name [set_content cur (c cur)]).
  apply Forall_singleton. rewrite Forall_singleton in H2. exact H2.
Qed.

Lemma processLine_declared st raw :
  Forall declared_name (produced st) →
  Forall declared_name (produced (processLine st raw)).
Proof.
  intros Hst. unfold processLine. cbv zeta.
  destruct (truthy (trim raw)); cbn [negb].
  - destruct (tryParseMessageLine (trim raw)) as [[timestamp remainder]|].
    + apply declared_closed in Hst.
      destruct (str_match SENDER remainder) as [senderMatch|];
        unfold produced; cbn [st_messages currentMessage option_list];
        (apply Forall_app; split; [done|]); apply Forall_singleton.
      * intros n. cbn [mediaFileName].
        destruct (isMediaMessage _); [|done].
        destruct (extractMediaFileName _) as [f|] eqn:Hf; [|done].
        cbn [truthy_opt]. destruct (truthy f); [|done]. intros [= <-].
        by eapply PARSER_EXTS_declared, extractMediaFileName_extension.
      * by intros n.
    + pose proof (declared_open st (fun cur => content cur +:+ LF +:+ trim raw) Hst)
        as H.
      unfold produced. by destruct (currentMessage st).
  - pose proof (declared_open st (fun cur => content cur +:+ LF) Hst) as H.
    unfold produced. by destruct (currentMessage st).
Qed.

Lemma one_pass file :
  fst <$> parseWhatsAppChat file
  = Some (finish file
            (foldl processLine start (split (ascii_of_nat 10) (bytes file)))).1.
Proof.
  unfold parseWhatsAppChat, parseWhatsAppChat_fuel.
  destruct (ParserMore.parseLoop_unchunked (bytes file)) as (st & -> & Hst). simpl.
  f_equal. by apply ParserMore.finish_same_core.
Qed.

Lemma foldl_processLine_declared lines st :
  Forall declared_name (produced st) →
  Forall declared_name (produced (foldl processLine st lines)).
Proof.
  revert st. induction lines as [|l lines IH]; intros st Hst; [done|].
  cbn [foldl]. by apply IH, processLine_declared.
Qed.

(** Every file name of a parsed message has an extension of the
    parser's list. *)
Lemma parse_names_declared file r :
  fst <$> parseWhatsAppChat file = Some r → Forall declared_name (messages r).
Proof.
  rewrite one_pass. intros [= <-].
  pose proof (foldl_processLine_declared
                (split (ascii_of_nat 10) (bytes file)) start) as H.
  apply declared_closed in H; [|by constructor].
  unfold finish. cbn [fst messages]. exact H.
Qed.

End ParserNames.

(* ===================================================================== *)
(** * Further properties of the media correlator *)
(* ===================================================================== *)

Module MediaMatcherMore.
Import JS Types MediaMatcher MediaMatcherFacts.


(** *** What stays of an entry *)

Lemma same_file_refl f : same_file f f.
Proof. done. Qed.

Lemma same_file_claim f f' msg : same_file f f' → same_file f (claim f' msg).
Proof. by intros (? & ? & ?). Qed.

Lemma static_inv_refl lookup : static_inv lookup lookup.
Proof. intros k f Hk. exists f. by repeat split. Qed.

Lemma static_inv_trans l0 l1 l2 :
  static_inv l0 l1 → static_inv l1 l2 → static_inv l0 l2.
Proof.
  intros H01 H12 k f2 Hk.
  destruct (H12 _ _ Hk) as (f1 & Hk1 & (? & ? & ?) & Hm1).
  destruct (H01 _ _ Hk1) as (f0 & Hk0 & (? & ? & ?) & Hm0).
  exists f0. split; [done|]. split; [repeat split; congruence|auto].
Qed.

Lemma bind_file_static lookupA st i msg key f' used :
  static_inv lookupA (mediaLookup st) →
  Map_get key (mediaLookup st) = Some f' →
  static_inv lookupA (mediaLookup (bind_file st i msg key f' used)).
Proof.
  intros Hs Hget k f''. simpl. rewrite Map_get_set.
  destruct (String.eqb_spec k key) as [->|?]; [|apply Hs].
  intros [= <-]. destruct (Hs _ _ Hget) as (f & ? & ? & ?).
  exists f. split; [done|]. split; [by apply same_file_claim|done].
Qed.

Lemma enriched_fields m msg :
  enriched_or_same m msg →
  content msg = content m ∧ type msg = type m ∧ timestamp msg = timestamp m.
Proof. intros [->|[_ (? & ? & ? & ? & ? & ?)]]; done. Qed.

(** *** Every binding has its reason *)

Lemma bind_file_just input lookup0 st i msg key f' used :
  just_inv input lookup0 st →
  Map_get key (mediaLookup st) = Some f' →
  (∀ m f, input !! i = Some m → same_file f f' →
          type m = media ∧ (by_name m key ∨ by_day m f)) →
  just_inv input lookup0 (bind_file st i msg key f' used).
Proof.
  intros [Hs Hm] Hget Hreason. split; [by apply bind_file_static|].
  intros j m m' Hj Hj'. simpl in Hj'.
  apply list_lookup_insert_Some in Hj' as [(-> & <- & _)|[Hne Hj']]; [|eauto].
  destruct (Hs _ _ Hget) as (f & Hf & Hsame & _).
  destruct (Hreason m f Hj Hsame) as [Hty Hwhy].
  right. exists key, f. destruct Hsame as (Hfile & Htype & _). simpl.
  rewrite Hfile, Htype. done.
Qed.

Lemma strategy1_step_just input lookup0 st i :
  frame_inv input st → just_inv input lookup0 st →
  just_inv input lookup0 (strategy1_step st i).
Proof.
  intros Hframe Hj. unfold strategy1_step.
  destruct (msgs st !! i) as [msg|] eqn:Hi; [|done].
  case_bool_decide as Hty; [done|].
  destruct (findReferencedFilename (content msg)) as [ref|] eqn:Href; [|done].
  destruct (truthy ref) eqn:Htruthy; [|done].
  destruct (Map_get (toLowerCase ref) (mediaLookup st)) as [f'|] eqn:Hget; [|done].
  destruct (matched f'); simpl; [done|].
  apply bind_file_just; [done|done|].
  intros m f Hm _.
  destruct (enriched_fields m msg) as (Hc & Ht & _); [by apply (proj2 Hframe i)|].
  split.
  - rewrite <- Ht. by destruct (decide (type msg = media)).
  - left. exists ref. by rewrite <- Hc.
Qed.

Lemma strategy1_just input lookup0 st :
  frame_inv input st → just_inv input lookup0 st →
  frame_inv input (strategy1 st) ∧ just_inv input lookup0 (strategy1 st).
Proof.
  unfold strategy1. generalize (seq 0 (length (msgs st))).
  intros l. revert st. induction l as [|i l IH]; intros st Hf Hj; simpl; [done|].
  apply IH; [by apply strategy1_step_frame|by apply strategy1_step_just].
Qed.

Lemma is_candidate_available lookup msgDay key :
  is_candidate lookup msgDay key = true
  ↔ ∃ f, Map_get key lookup = Some f ∧ available msgDay f = true.
Proof.
  unfold is_candidate, available. destruct (Map_get key lookup) as [f|].
  - split.
    + intros H. exists f. split; [done|].
      destruct (matched f), (truthy_num (mf_timestamp f)); done.
    + intros (? & [= <-] & H).
      destruct (matched f), (truthy_num (mf_timestamp f)); done.
  - split; [done|]. by intros (? & ? & ?).
Qed.

Lemma num_eq_true a b : num_eq a b = true → a = b ∧ is_Some b.
Proof.
  destruct a as [x|], b as [y|]; try done. simpl.
  intros ->%Z.eqb_eq. by split; [|eexists].
Qed.

Lemma dayOf_is_Some t : is_Some (dayOf t) → is_Some t.
Proof. destruct t; [by eexists|]. by intros [? ?]. Qed.

Lemma available_by_day m msg f f' :
  same_file f f' → available (dayOf (timestamp msg)) f' = true →
  timestamp msg = timestamp m → by_day m f.
Proof.
  intros (_ & _ & Hts) Hav Hm. unfold by_day. rewrite <- Hm.
  unfold available in Hav.
  apply andb_true_iff in Hav as [Hav Heq]. apply andb_true_iff in Hav as [_ Htr].
  rewrite Hts in *. destruct (mf_timestamp f) as [t|]; [|done].
  exists t. split; [done|].
  split; [intros ->; done|].
  apply num_eq_true in Heq as [Heq Hsome].
  split; [done|]. by apply dayOf_is_Some.
Qed.

Lemma strategy2_step_just input lookup0 st0 sorted st msg idx :
  frame_inv input st0 → msgs st0 !! idx = Some msg → type msg = media →
  just_inv input lookup0 st →
  just_inv input lookup0 (strategy2_step sorted st (msg, idx)).
Proof.
  intros Hst0 Hidx Hmedia Hj. unfold strategy2_step.
  destruct (filter _ sorted) as [|key cands] eqn:Hcands; [done|].
  assert (key ∈ key :: cands) as Hkey by by left.
  rewrite <- Hcands in Hkey. apply list_elem_of_filter in Hkey as [Hcand _].
  apply is_candidate_available in Hcand as (f' & Hget & Hav).
  rewrite Hget. apply bind_file_just; [done|done|].
  intros m f Hm Hsame.
  destruct (enriched_fields m msg) as (_ & Ht & Hts); [by apply (proj2 Hst0 idx)|].
  split; [congruence|]. right. by eapply available_by_day.
Qed.

Lemma foldl_strategy2_just input lookup0 st0 sorted entries cur :
  frame_inv input st0 →
  Forall (fun e => msgs st0 !! e.2 = Some e.1 ∧ type e.1 = media) entries →
  just_inv input lookup0 cur →
  just_inv input lookup0 (foldl (strategy2_step sorted) cur entries).
Proof.
  intros Hst0 Hentries. revert cur.
  induction Hentries as [|[msg idx] entries [Hidx Hty] _ IH]; intros cur Hcur;
    simpl; [done|].
  apply IH. by apply (strategy2_step_just input lookup0 st0).
Qed.

Lemma strategy2_just input lookup0 st :
  frame_inv input st → just_inv input lookup0 st →
  just_inv input lookup0 (strategy2 st).
Proof.
  intros Hf Hj. unfold strategy2.
  by apply (foldl_strategy2_just input lookup0 st);
    [|apply unmatchedMediaMsgs_entries|].
Qed.

Lemma run_just messages mediaFiles :
  just_inv messages (buildMediaLookup mediaFiles) (run messages mediaFiles).
Proof.
  unfold run.
  set (st0 := mkState messages (buildMediaLookup mediaFiles) ∅ []).
  assert (frame_inv messages st0) as Hf0.
  { split; [done|]. intros i m m' Hm Hm'; simpl in *. left. congruence. }
  assert (just_inv messages (buildMediaLookup mediaFiles) st0) as Hj0.
  { split; [apply static_inv_refl|].
    intros i m m' Hm Hm'; simpl in *. left. congruence. }
  destruct (strategy1_just _ _ _ Hf0 Hj0) as [Hf1 Hj1].
  by apply strategy2_just.
Qed.

(** The entries of the lookup are made of the files given. *)
Lemma foldl_addFile_built (F : list File) files acc :
  (∀ x, x ∈ files → x ∈ F) →
  (∀ k f, Map_get k acc = Some f → built_from F f) →
  ∀ k f, Map_get k (foldl addFile acc files) = Some f → built_from F f.
Proof.
  revert acc. induction files as [|x files IH]; intros acc Hsub Hacc; [done|].
  simpl. apply IH.
  - intros y Hy. apply Hsub. by right.
  - intros k f. unfold addFile. rewrite Map_get_set.
    destruct (String.eqb k (toLowerCase (name x))); [|apply Hacc].
    intros [= <-]. repeat split; simpl; try done. apply Hsub. by left.
Qed.

Lemma buildMediaLookup_built mediaFiles k f :
  Map_get k (buildMediaLookup mediaFiles) = Some f →
  built_from mediaFiles f ∧ toLowerCase (name (file f)) = k.
Proof.
  intros Hk. split.
  - by eapply (foldl_addFile_built mediaFiles mediaFiles []).
  - by eapply (foldl_addFile_keys_inv mediaFiles []).
Qed.

Lemma built_timestamp mediaFiles f t :
  built_from mediaFiles f →
  mf_timestamp f = Some t ∧ t ≠ 0%Z
  ↔ extractTimestampFromFilename (name (file f)) = Some t ∧ t ≠ 0%Z.
Proof.
  intros (_ & _ & -> & _).
  destruct (extractTimestampFromFilename (name (file f))) as [z|]; simpl.
  - destruct (Z.eqb_spec z 0) as [->|Hz]; simpl.
    + split; [by intros [? ?]|]. by intros [[= <-] ?].
    + done.
  - done.
Qed.

(** X15.  The correlator changes a message only to bind it to one of
    the files given, and only for a reason: a message of the result
    that differs from the message given is a media message that now
    carries the name of a file of the list and the media type of
    that name, and either its content refers to the file by name (up
    to case), or the name of the file dates the file to the calendar
    day of the message. *)
Theorem match_is_justified (messages : list Message) (mediaFiles : list File)
    (i : nat) (m m' : Message) :
  messages !! i = Some m →
  matchedMessages (matchMediaToMessages messages mediaFiles) !! i = Some m' →
  m' ≠ m →
  ∃ f, f ∈ mediaFiles
       ∧ mediaFileName m' = Some (name f)
       ∧ mediaType m' = Some (getMediaType (name f))
       ∧ type m = media
       ∧ ((∃ r, findReferencedFilename (content m) = Some r
                ∧ toLowerCase r = toLowerCase (name f))
          ∨ (∃ t, extractTimestampFromFilename (name f) = Some t
                  ∧ t ≠ 0%Z
                  ∧ is_Some (timestamp m)
                  ∧ dayOf (Some t) = dayOf (timestamp m))).
Proof.
  intros Hm Hm' Hne. unfold matchMediaToMessages in Hm'.
  destruct (length mediaFiles =? 0); simpl in Hm'; [congruence|].
  destruct (run_just messages mediaFiles) as [_ Hj].
  destruct (Hj i m m' Hm Hm') as [->|(k & f & Hk & Hname & Htype & Hty & Hwhy)];
    [done|].
  apply buildMediaLookup_built in Hk as [Hbuilt Hkey].
  exists (file f). pose proof Hbuilt as (Hin & Hmt & _).
  split; [done|]. split; [done|]. split; [by rewrite <- Hmt|]. split; [done|].
  destruct Hwhy as [(r & Hr & _ & Hrk)|(t & Ht & Ht0 & Hday & Hsome)].
  - left. exists r. by rewrite Hkey.
  - right. exists t.
    destruct (proj1 (built_timestamp mediaFiles f t Hbuilt)) as [? ?]; done.
Qed.


(** *** The lookup as a list *)

Section MapMore.
Context {V : Type}.
Implicit Types (m : list (string * V)) (k : string) (v : V).

Lemma Map_get_elem_of k v m : Map_get k m = Some v → (k, v) ∈ m.
Proof.
  induction m as [|[k0 v0] m IH]; simpl; [done|].
  destruct (String.eqb_spec k k0) as [->|?].
  - intros [= ->]. by left.
  - intros H. right. by apply IH.
Qed.

Lemma Map_get_is_None k m : Map_get k m = None → k ∉ m.*1.
Proof.
  induction m as [|[k0 v0] m IH]; csimpl; [by intros _ ?%elem_of_nil|].
  destruct (String.eqb_spec k k0) as [->|?]; [done|].
  intros H. apply not_elem_of_cons. split; [done|by apply IH].
Qed.

Lemma elem_of_Map_get k v m : NoDup m.*1 → (k, v) ∈ m → Map_get k m = Some v.
Proof.
  induction m as [|[k0 v0] m IH]; csimpl; [by intros _ ?%elem_of_nil|].
  intros [Hk0 Hnd]%NoDup_cons [[= -> ->]|Hin]%elem_of_cons.
  - by rewrite String.eqb_refl.
  - destruct (String.eqb_spec k k0) as [->|?]; [|by apply IH].
    exfalso. apply Hk0. apply list_elem_of_fmap. by exists (k0, v).
Qed.

Lemma Map_set_NoDup k v m : NoDup m.*1 → NoDup (Map_set k v m).*1.
Proof.
  intros Hnd. destruct (Map_get k m) as [v0|] eqn:Hk.
  - by rewrite (Map_set_keys_present k v v0).
  - rewrite Map_set_keys_absent by done.
    apply NoDup_app. split; [done|]. split; [|apply NoDup_singleton].
    intros x Hx ->%list_elem_of_singleton. by apply Map_get_is_None in Hk.
Qed.
End MapMore.

Lemma buildMediaLookup_NoDup mediaFiles : NoDup (buildMediaLookup mediaFiles).*1.
Proof.
  unfold buildMediaLookup.
  assert (NoDup (([] : list (string * MediaFile)).*1)) as H by constructor.
  revert H. generalize ([] : list (string * MediaFile)).
  induction mediaFiles as [|f files IH]; intros acc Hacc; [done|].
  simpl. apply IH. by apply Map_set_NoDup.
Qed.

Lemma insert_by_perm x l : insert_by x l ≡ₚ x :: l.
Proof.
  induction l as [|y l IH]; simpl; [done|].
  destruct (x.2 <=? y.2)%Z; [done|]. rewrite IH. apply Permutation_swap.
Qed.

Lemma sort_by_timestamp_perm l : sort_by_timestamp l ≡ₚ l.
Proof.
  unfold sort_by_timestamp. induction l as [|x l IH]; simpl; [done|].
  by rewrite insert_by_perm, IH.
Qed.

(** *** Strategy 2 leaves no pair of a day *)

Lemma is_candidate_mono lookup key f' msg d k :
  is_candidate (Map_set key (claim f' msg) lookup) d k = true →
  is_candidate lookup d k = true.
Proof.
  unfold is_candidate. rewrite Map_get_set.
  by destruct (String.eqb k key).
Qed.

Lemma named_static lookup1 lookup :
  named lookup1 → static_inv lookup1 lookup → named lookup.
Proof.
  intros Hn Hs k f Hk Hts.
  destruct (Hs _ _ Hk) as (f1 & Hk1 & (Hfile & _ & Hstamp) & _).
  rewrite Hfile. apply (Hn _ _ Hk1). by rewrite <- Hstamp.
Qed.

Lemma buildMediaLookup_named mediaFiles : named (buildMediaLookup mediaFiles).
Proof.
  intros k f [(_ & _ & Hts & _) _]%buildMediaLookup_built Htr.
  destruct (name (file f)) as [|a s] eqn:Hname; [|done].
  assert (extractTimestampFromFilename "" = None) as E by (by vm_compute).
  rewrite Hts, E in Htr. done.
Qed.

Lemma strategy2_step_served keys lookup1 st msg idx rem :
  named lookup1 → static_inv lookup1 (mediaLookup st) →
  served keys ((msg, idx) :: rem) st → idx ∉ rem.*2 →
  served keys rem (strategy2_step keys st (msg, idx))
  ∧ static_inv lookup1 (mediaLookup (strategy2_step keys st (msg, idx))).
Proof.
  intros Hnamed Hstat [Hrem Hserved] Hidx. unfold strategy2_step.
  assert (msgs st !! idx = Some msg) as Hmsg by (apply (Hrem (msg, idx)); by left).
  destruct (filter _ keys) as [|key cands] eqn:Hcands.
  - split; [|done]. split.
    + intros e He. apply Hrem. by right.
    + intros j m' Hj Hty Hnm.
      destruct (Hserved j m' Hj Hty Hnm) as [Hin|Hno]; [|by right].
      rewrite fmap_cons, elem_of_cons in Hin.
      destruct Hin as [->|Hin]; [|by left].
      right. intros key Hkey. simpl in Hj.
      assert (m' = msg) as -> by congruence.
      destruct (is_candidate (mediaLookup st) (dayOf (timestamp msg)) key) eqn:Hc;
        [|done].
      assert (key ∈ filter
                (fun key => is_candidate (mediaLookup st) (dayOf (timestamp msg)) key
                            = true) keys) as Hin
        by by apply list_elem_of_filter.
      rewrite Hcands in Hin. by apply elem_of_nil in Hin.
  - assert (key ∈ key :: cands) as Hkey by by left.
    rewrite <- Hcands in Hkey. apply list_elem_of_filter in Hkey as [Hcand _].
    apply is_candidate_available in Hcand as (f' & Hget & Hav).
    rewrite Hget. split; [|by apply bind_file_static].
    split; simpl.
    + intros e He. rewrite list_lookup_insert_ne; [apply Hrem; by right|].
      intros ->. apply Hidx. apply list_elem_of_fmap. by exists e.
    + intros j m' Hj Hty Hnm.
      apply list_lookup_insert_Some in Hj as [(-> & <- & _)|[Hne Hj]].
      * exfalso. simpl in Hnm.
        unfold available in Hav.
        apply andb_true_iff in Hav as [Hav _].
        apply andb_true_iff in Hav as [_ Htr].
        rewrite (named_static lookup1 (mediaLookup st) Hnamed Hstat key f') in Hnm;
          done.
      * destruct (Hserved j m' Hj Hty Hnm) as [Hin|Hno].
        -- left. rewrite fmap_cons, elem_of_cons in Hin.
           by destruct Hin as [->|].
        -- right. intros k Hk. specialize (Hno k Hk).
           destruct (is_candidate (Map_set _ _ _) _ k) eqn:E; [|done].
           apply is_candidate_mono in E. congruence.
Qed.

Lemma foldl_strategy2_served keys lookup1 rem st :
  named lookup1 → static_inv lookup1 (mediaLookup st) →
  NoDup rem.*2 → served keys rem st →
  served keys [] (foldl (strategy2_step keys) st rem)
  ∧ static_inv lookup1 (mediaLookup (foldl (strategy2_step keys) st rem)).
Proof.
  intros Hnamed. revert st.
  induction rem as [|[msg idx] rem IH]; intros st Hstat Hnd Hs; [done|].
  rewrite fmap_cons in Hnd. apply NoDup_cons in Hnd as [Hidx Hnd].
  destruct (strategy2_step_served keys lookup1 st msg idx rem) as [Hs' Hstat'];
    [done..|].
  simpl. by apply IH.
Qed.

Lemma lookup_zip_seq_elem_of {A} (l : list A) i x :
  l !! i = Some x → (x, i) ∈ zip l (seq 0 (length l)).
Proof.
  intros Hi. apply list_elem_of_lookup. exists i.
  apply lookup_zip_with_Some. exists x, i. split; [done|]. split; [done|].
  apply lookup_seq. split; [done|]. by eapply lookup_lt_Some.
Qed.

(** After strategy 2 no entry that was free and dated before it is a
    candidate for a media message that is still without a file name. *)
Lemma strategy2_complete st :
  named (mediaLookup st) →
  static_inv (mediaLookup st) (mediaLookup (strategy2 st))
  ∧ ∀ idx m' k f1,
      msgs (strategy2 st) !! idx = Some m' → type m' = media →
      truthy_opt (mediaFileName m') = false →
      Map_get k (mediaLookup st) = Some f1 → matched f1 = false →
      truthy_num (mf_timestamp f1) = true →
      is_candidate (mediaLookup (strategy2 st)) (dayOf (timestamp m')) k = false.
Proof.
  intros Hnamed. unfold strategy2.
  set (keys := (sort_by_timestamp _).*1).
  set (entries := filter _ (zip (msgs st) (seq 0 (length (msgs st))))).
  destruct (foldl_strategy2_served keys (mediaLookup st) entries st)
    as [[_ Hserved] Hstat]; [done|apply static_inv_refl|..].
  - apply unmatchedMediaMsgs_NoDup.
  - split.
    + intros [msg idx] He.
      pose proof (unmatchedMediaMsgs_entries (msgs st)) as Hall.
      rewrite Forall_forall in Hall. by apply (Hall (msg, idx)).
    + intros idx m' Hidx Hty Hnm. left.
      apply list_elem_of_fmap. exists (m', idx). split; [done|].
      apply list_elem_of_filter. split; [done|]. by apply lookup_zip_seq_elem_of.
  - split; [done|]. intros idx m' k f1 Hidx Hty Hnm Hk Hf1 Hts.
    destruct (Hserved idx m' Hidx Hty Hnm) as [Hin|Hno];
      [by apply elem_of_nil in Hin|].
    apply Hno. subst keys.
    rewrite sort_by_timestamp_perm. rewrite <- list_fmap_compose.
    apply list_elem_of_fmap. exists (k, f1). split; [done|].
    apply list_elem_of_filter. split; [done|].
    apply list_elem_of_filter. split; [done|]. by apply Map_get_elem_of.
Qed.

Lemma num_eq_refl a : is_Some a → num_eq a a = true.
Proof. intros [x ->]. apply Z.eqb_refl. Qed.

Lemma dayOf_Some t : is_Some (dayOf (Some t)).
Proof. by eexists. Qed.

Lemma run_static messages mediaFiles :
  static_inv (buildMediaLookup mediaFiles)
             (mediaLookup (strategy1 (mkState messages (buildMediaLookup mediaFiles) ∅ [])))
  ∧ static_inv (buildMediaLookup mediaFiles) (mediaLookup (run messages mediaFiles)).
Proof.
  pose proof (run_just messages mediaFiles) as [Hstat02 _].
  split; [|done].
  set (st0 := mkState messages (buildMediaLookup mediaFiles) ∅ []).
  assert (frame_inv messages st0) as Hf0.
  { split; [done|]. intros j m m0 Hm Hm0. left. cbn [msgs st0] in Hm0. congruence. }
  assert (just_inv messages (buildMediaLookup mediaFiles) st0) as Hj0.
  { split; [apply static_inv_refl|].
    intros j m m0 Hm Hm0. left. cbn [msgs st0] in Hm0. congruence. }
  by destruct (strategy1_just _ _ _ Hf0 Hj0) as [_ [Hstat01 _]].
Qed.

(** The state the correlator ends in has no pair of a day left. *)
Lemma run_complete messages mediaFiles i m' k e t :
  msgs (run messages mediaFiles) !! i = Some m' →
  type m' = media →
  truthy_opt (mediaFileName m') = false →
  Map_get k (mediaLookup (run messages mediaFiles)) = Some e →
  matched e = false →
  mf_timestamp e = Some t → t ≠ 0%Z →
  num_eq (dayOf (Some t)) (dayOf (timestamp m')) = false.
Proof.
  intros Hm' Hty Hnm Hin He Hstamp Ht0.
  destruct (run_static messages mediaFiles) as [Hstat01 _].
  unfold run in *.
  set (st1 := strategy1 _) in *.
  assert (named (mediaLookup st1)) as Hnamed1
    by (eapply named_static; [apply buildMediaLookup_named|done]).
  destruct (strategy2_complete st1 Hnamed1) as [Hstat12 Hcomplete].
  destruct (Hstat12 _ _ Hin) as (f1 & Hk1 & (_ & _ & Hts1) & Hm1).
  assert (truthy_num (Some t) = true) as Htr.
  { unfold truthy_num. by destruct (Z.eqb_spec t 0). }
  pose proof (Hcomplete i m' k f1 Hm' Hty Hnm Hk1 (Hm1 He)) as Hno.
  rewrite <- Hts1, Hstamp in Hno. specialize (Hno Htr).
  unfold is_candidate in Hno. rewrite Hin, He, Hstamp, Htr in Hno.
  exact Hno.
Qed.

(** X16.  The correlator leaves no pair of a day unbound: if a media
    message of the result is still without a file name, then no file
    among the unmatched ones is dated, by its name, to the calendar
    day of that message. *)
Theorem no_same_day_pair_left (messages : list Message) (mediaFiles : list File)
    (i : nat) (m' : Message) (f : File) (t : Z) :
  matchedMessages (matchMediaToMessages messages mediaFiles) !! i = Some m' →
  type m' = media →
  truthy_opt (mediaFileName m') = false →
  f ∈ unmatchedMedia (matchMediaToMessages messages mediaFiles) →
  extractTimestampFromFilename (name f) = Some t →
  t ≠ 0%Z →
  dayOf (Some t) ≠ dayOf (timestamp m').
Proof.
  unfold matchMediaToMessages.
  destruct (length mediaFiles =? 0); cbn [matchedMessages unmatchedMedia];
    [by intros _ _ _ ?%elem_of_nil|].
  intros Hm' Hty Hnm Hf Ht Ht0 Hday.
  destruct (run_wf messages mediaFiles) as [_ Hkeys].
  destruct (run_static messages mediaFiles) as [_ Hstat02].
  apply list_elem_of_fmap in Hf as (e & -> & He).
  apply list_elem_of_filter in He as [He Hin].
  unfold Map_values in Hin. apply list_elem_of_fmap in Hin as ([k e'] & -> & Hin).
  cbn [snd] in *.
  apply elem_of_Map_get in Hin;
    [|rewrite Hkeys; apply buildMediaLookup_NoDup].
  destruct (Hstat02 _ _ Hin) as (f0 & Hk0 & (Hfile0 & _ & Hts0) & _).
  apply buildMediaLookup_built in Hk0 as [Hbuilt _].
  rewrite Hfile0 in Ht.
  destruct (proj2 (built_timestamp mediaFiles f0 t Hbuilt)) as [Hstamp _];
    [done|].
  assert (mf_timestamp e' = Some t) as Hstamp' by congruence.
  pose proof (run_complete messages mediaFiles i m' k e' t
                Hm' Hty Hnm Hin He Hstamp' Ht0) as Hno.
  rewrite <- Hday, num_eq_refl in Hno by apply dayOf_Some. done.
Qed.

(** *** The two tables of media types *)

Lemma getMediaType_value_cases (filename : string) :
  match inherited (extension filename) with
  | Some v =>
      getMediaType_value filename = inr v
      ∧ Parser.getMediaTypeFromFilename filename = Some document
  | None =>
      getMediaType_value filename
      = inl (default document (Parser.getMediaTypeFromFilename filename))
  end.
Proof.
  unfold getMediaType_value, Parser.getMediaTypeFromFilename, extension, inherited.
  generalize (toLowerCase (default "" (last (split "." filename)))).
  intros ext. cbv zeta. unfold EXTENSION_TO_TYPE. cbn [Map_get].
  repeat match goal with
         | |- context [String.eqb ext ?k] =>
             destruct (String.eqb_spec ext k) as [->|?]; [by vm_compute|]
         end.
  cbn [default].
  destruct (truthy ext); cbn [negb default]; [|done].
  repeat (rewrite bool_decide_eq_false_2
            by (rewrite !elem_of_cons, elem_of_nil; intros Hin;
                repeat (destruct Hin as [Hin|Hin]; [done|]); done)).
  done.
Qed.

(** X17.  The parser and the correlator type a file name alike, but
    for two extensions.  Where the extension is neither [constructor]
    nor [__proto__], the value the correlator gives a name is the type
    the parser gives it, and [document] where the parser gives none.
    For these two extensions the parser says [document], and the
    correlator returns what the table inherits from
    [Object.prototype]: a value that is no media type. *)
Theorem getMediaType_agrees (filename : string) :
  (inherited (extension filename) = None →
   getMediaType_value filename
   = inl (default document (Parser.getMediaTypeFromFilename filename)))
  ∧ (∀ v, inherited (extension filename) = Some v →
          getMediaType_value filename = inr v
          ∧ Parser.getMediaTypeFromFilename filename = Some document)
  ∧ (inherited (extension filename) = None
     ↔ extension filename ≠ "constructor" ∧ extension filename ≠ "__proto__").
Proof.
  pose proof (getMediaType_value_cases filename) as H.
  split_and!.
  - intros Hnone. by rewrite Hnone in H.
  - intros v Hv. by rewrite Hv in H.
  - unfold inherited.
    destruct (String.eqb_spec (extension filename) "constructor") as [->|?];
      [by split; [|intros [? _]]|].
    destruct (String.eqb_spec (extension filename) "__proto__") as [->|?];
      [by split; [|intros [_ ?]]|].
    done.
Qed.

End MediaMatcherMore.

(* ===================================================================== *)
(** * Properties of the object URLs *)
(* ===================================================================== *)

Module MediaUrlsFacts.
Import JS Types MediaMatcher MediaMatcherFacts MediaMatcherMore MediaUrls.


Section MapApp.
Context {V : Type}.
Implicit Types (m : list (string * V)) (k : string) (v : V).

Lemma Map_get_app k m1 m2 :
  Map_get k (m1 ++ m2)
  = match Map_get k m1 with Some v => Some v | None => Map_get k m2 end.
Proof.
  induction m1 as [|[k0 v0] m1 IH]; simpl; [done|].
  by destruct (String.eqb k k0).
Qed.

Lemma Map_get_Some_key k v m : Map_get k m = Some v → k ∈ m.*1.
Proof.
  intros H%Map_get_elem_of. apply list_elem_of_fmap. by exists (k, v).
Qed.

Lemma Map_set_absent k v m : Map_get k m = None → Map_set k v m = m ++ [(k, v)].
Proof.
  induction m as [|[k0 v0] m IH]; simpl; [done|].
  destruct (String.eqb k k0); [done|]. intros H. by rewrite IH.
Qed.

Lemma Map_set_keys_subseteq k v m (X : list string) :
  k ∈ X → m.*1 ⊆ X → (Map_set k v m).*1 ⊆ X.
Proof.
  intros Hk Hm. destruct (Map_get k m) as [v0|] eqn:Hget.
  - by rewrite (Map_set_keys_present k v v0).
  - rewrite Map_set_keys_absent by done.
    intros x Hx. apply elem_of_app in Hx as [?|Hx]; [auto|].
    by apply list_elem_of_singleton in Hx as ->.
Qed.
End MapApp.

Lemma NoDup_snoc_inv {A} (l : list A) (x : A) :
  NoDup (l ++ [x]) → (x ∉ l) ∧ NoDup l.
Proof.
  intros (Hl & Hx & _)%NoDup_app. split; [|done].
  intros Hin. apply (Hx x Hin). by left.
Qed.

Lemma buildFileMap_get key mediaFiles :
  Map_get key (buildFileMap mediaFiles) = file_named key mediaFiles.
Proof.
  unfold buildFileMap, file_named.
  induction mediaFiles as [|f files IH] using rev_ind; [done|].
  rewrite foldl_app, filter_app, filter_cons, filter_nil. simpl.
  unfold addToFileMap at 1. rewrite Map_get_set.
  destruct (decide (toLowerCase (name f) = key)) as [<-|Hne].
  - by rewrite String.eqb_refl, last_snoc.
  - rewrite app_nil_r.
    destruct (String.eqb_spec key (toLowerCase (name f))); [congruence|done].
Qed.

Lemma file_named_Some key mediaFiles f :
  file_named key mediaFiles = Some f → f ∈ mediaFiles ∧ toLowerCase (name f) = key.
Proof.
  unfold file_named. intros H%last_Some_elem_of.
  apply list_elem_of_filter in H. tauto.
Qed.

(** The step of the loop, by what the message asks for. *)
Lemma createUrl_wanted mediaFiles acc msg :
  createUrl (buildFileMap mediaFiles) acc msg
  = match wanted mediaFiles msg with
    | Some file =>
        (Map_set (id msg) (blob_url (next_url acc.2)) acc.1,
         mkBrowser (S (next_url acc.2))
                   (blobs acc.2 ++ [(blob_url (next_url acc.2), file)]))
    | None => acc
    end.
Proof.
  unfold createUrl, wanted.
  destruct (mediaFileName msg) as [n|]; [|done].
  destruct (truthy n); [|done].
  rewrite buildFileMap_get. by destruct (file_named _ _).
Qed.

(** *** New URLs are new *)

Lemma blob_url_inj n1 n2 : blob_url n1 = blob_url n2 → n1 = n2.
Proof.
  unfold blob_url. intros H. apply (inj (String.app "blob:")) in H.
  by apply (inj pretty) in H.
Qed.

Lemma fresh_url b : store_ok b → blob_url (next_url b) ∉ (blobs b).*1.
Proof.
  intros Hok Hin. destruct (Hok _ Hin) as (n & Heq & Hlt).
  apply blob_url_inj in Heq. lia.
Qed.

Lemma createUrl_inv mediaFiles b0 done acc msg :
  urls_inv mediaFiles b0 done acc →
  urls_inv mediaFiles b0 (done ++ [msg])
           (createUrl (buildFileMap mediaFiles) acc msg).
Proof.
  intros (Hok & Hnext & (new & Hblobs & Hnew & Hvals) & Hkeys & Hget & Hall).
  rewrite createUrl_wanted.
  destruct (wanted mediaFiles msg) as [file|] eqn:Hw.
  - pose proof (fresh_url _ Hok) as Hfresh.
    set (url := blob_url (next_url acc.2)) in *.
    assert (Map_get url (blobs acc.2) = None) as Hnone.
    { destruct (Map_get url (blobs acc.2)) eqn:E; [|done].
      by apply Map_get_Some_key in E. }
    split_and!; cbn [fst snd blobs next_url].
    + intros u. cbn [blobs next_url]. rewrite fmap_app, elem_of_app.
      intros [Hu| ->%list_elem_of_singleton].
      * destruct (Hok u Hu) as (n & ? & ?). exists n. split; [done|lia].
      * exists (next_url acc.2). split; [done|lia].
    + lia.
    + exists (new ++ [(url, file)]). split; [by rewrite Hblobs, app_assoc|].
      split.
      { intros u. rewrite fmap_app, elem_of_app. intros [Hu|Hu].
        - by apply Hnew.
        - apply list_elem_of_singleton in Hu as ->.
          exists (next_url acc.2). split; [done|lia]. }
      rewrite fmap_app. intros [Hid Hnd]%NoDup_snoc_inv.
      rewrite Map_set_absent.
      * rewrite !fmap_app. by rewrite Hvals.
      * destruct (Map_get (id msg) acc.1) eqn:E; [|done].
        apply Map_get_Some_key, Hkeys in E. done.
    + apply Map_set_keys_subseteq.
      * rewrite fmap_app, elem_of_app. right. by left.
      * intros x Hx. rewrite fmap_app, elem_of_app. left. by apply Hkeys.
    + intros k u. rewrite Map_get_set.
      destruct (String.eqb_spec k (id msg)) as [->|Hne].
      * intros [= <-]. exists msg, file. rewrite elem_of_app.
        split; [right; by left|]. split; [done|]. split; [done|].
        unfold resolve. cbn [fst snd blobs]. rewrite Map_get_app, Hnone.
        cbn [Map_get]. by rewrite String.eqb_refl.
      * intros Hk. destruct (Hget k u Hk) as (m & f & Hm & Hid & Hwm & Hres).
        exists m, f. rewrite elem_of_app. split; [by left|].
        split; [done|]. split; [done|].
        unfold resolve in *. cbn [fst snd blobs]. by rewrite Map_get_app, Hres.
    + intros m [Hm| ->%list_elem_of_singleton]%elem_of_app Hsome;
        rewrite Map_get_set.
      * destruct (String.eqb (id m) (id msg)); [by eexists|by apply Hall].
      * by rewrite String.eqb_refl.
  - split_and!; try done.
    + exists new. split; [done|]. split; [done|].
      rewrite fmap_app. intros [_ Hnd]%NoDup_snoc_inv. by apply Hvals.
    + intros x Hx. rewrite fmap_app, elem_of_app. left. by apply Hkeys.
    + intros k u Hk. destruct (Hget k u Hk) as (m & f & ? & ? & ? & ?).
      exists m, f. rewrite elem_of_app. auto.
    + intros m [Hm| ->%list_elem_of_singleton]%elem_of_app Hsome;
        [by apply Hall|].
      rewrite Hw in Hsome. by destruct Hsome.
Qed.

Lemma foldl_createUrl_inv mediaFiles b0 rest done acc :
  urls_inv mediaFiles b0 done acc →
  urls_inv mediaFiles b0 (done ++ rest)
           (foldl (createUrl (buildFileMap mediaFiles)) acc rest).
Proof.
  revert done acc. induction rest as [|msg rest IH]; intros done acc Hacc; simpl.
  - by rewrite app_nil_r.
  - rewrite (cons_middle msg done rest), app_assoc.
    apply IH. by apply createUrl_inv.
Qed.

Lemma createMediaUrls_inv mediaFiles b messages :
  store_ok b →
  urls_inv mediaFiles b messages (createMediaUrls messages mediaFiles b).
Proof.
  intros Hok. unfold createMediaUrls.
  apply (foldl_createUrl_inv mediaFiles b messages [] ([], b)).
  split_and!; simpl; try done.
  - exists []. rewrite app_nil_r. split; [done|]. split; [|done].
    by intros url ?%elem_of_nil.
  - by intros m ?%elem_of_nil.
Qed.

Lemma NoDup_ids_inj (l : list Message) m m' :
  NoDup (id <$> l) → m ∈ l → m' ∈ l → id m = id m' → m = m'.
Proof.
  intros Hnd Hm Hm' Hid.
  apply list_elem_of_lookup in Hm as [i Hi], Hm' as [j Hj].
  assert (i = j) as ->; [|congruence].
  eapply NoDup_lookup; [done| |]; rewrite list_lookup_fmap.
  - by rewrite Hi.
  - rewrite Hj. simpl. by rewrite Hid.
Qed.

(** What the URL map holds for the messages of a list without two
    equal ids. *)
Lemma urls_inv_lookup mediaFiles b0 messages acc m :
  urls_inv mediaFiles b0 messages acc →
  NoDup (id <$> messages) → m ∈ messages →
  match wanted mediaFiles m with
  | Some f => ∃ url, Map_get (id m) acc.1 = Some url ∧ resolve url acc.2 = Some f
  | None => Map_get (id m) acc.1 = None
  end.
Proof.
  intros (_ & _ & _ & _ & Hget & Hall) Hnd Hm.
  destruct (wanted mediaFiles m) as [f|] eqn:Hw.
  - destruct (Hall m Hm) as [url Hurl]; [by rewrite Hw|].
    exists url. split; [done|].
    destruct (Hget _ _ Hurl) as (m' & f' & Hm' & Hid & Hw' & Hres).
    assert (m' = m) as -> by by eapply NoDup_ids_inj.
    congruence.
  - destruct (Map_get (id m) acc.1) as [url|] eqn:Hurl; [|done].
    destruct (Hget _ _ Hurl) as (m' & f' & Hm' & Hid & Hw' & Hres).
    assert (m' = m) as -> by by eapply NoDup_ids_inj.
    congruence.
Qed.

Lemma urls_inv_old mediaFiles b0 messages acc url :
  urls_inv mediaFiles b0 messages acc →
  url ∈ (blobs b0).*1 → resolve url acc.2 = resolve url b0.
Proof.
  intros (_ & _ & (new & Hblobs & _ & _) & _) Hin.
  unfold resolve. rewrite Hblobs, Map_get_app.
  destruct (Map_get url (blobs b0)) eqn:E; [done|].
  by apply Map_get_is_None in E.
Qed.

(** X20.  For messages of pairwise different ids, [createMediaUrls]
    gives a URL to exactly the messages that carry the name of a file
    of the list (up to case), and the URL shows that file: the last
    one of the list with that name.  The URLs the page had keep
    showing what they showed. *)
Theorem createMediaUrls_spec (messages : list Message) (mediaFiles : list File)
    (b : Browser) :
  store_ok b →
  NoDup (id <$> messages) →
  (∀ m, m ∈ messages →
        match wanted mediaFiles m with
        | Some f => ∃ url, Map_get (id m) (createMediaUrls messages mediaFiles b).1
                           = Some url
                           ∧ resolve url (createMediaUrls messages mediaFiles b).2
                             = Some f
        | None => Map_get (id m) (createMediaUrls messages mediaFiles b).1 = None
        end)
  ∧ (∀ url, url ∈ (blobs b).*1 →
            resolve url (createMediaUrls messages mediaFiles b).2 = resolve url b)
  ∧ store_ok (createMediaUrls messages mediaFiles b).2.
Proof.
  intros Hok Hnd.
  pose proof (createMediaUrls_inv mediaFiles b messages Hok) as Hinv.
  split_and!.
  - intros m Hm. by eapply urls_inv_lookup.
  - intros url Hurl. by eapply urls_inv_old.
  - apply Hinv.
Qed.

Lemma filter_all {A} (P : A → Prop) `{!∀ x, Decision (P x)} (l : list A) :
  Forall P l → filter P l = l.
Proof.
  induction 1 as [|x l Hx _ IH]; [done|].
  rewrite filter_cons_True by done. by f_equal.
Qed.

Lemma foldl_revoke b urls :
  foldl revokeObjectURL b urls
  = mkBrowser (next_url b) (filter (fun e => e.1 ∉ urls) (blobs b)).
Proof.
  revert b. induction urls as [|u urls IH]; intros b; simpl.
  - destruct b as [n bl]. simpl. f_equal. symmetry.
    apply filter_all, Forall_forall. intros e _. apply not_elem_of_nil.
  - rewrite IH. simpl. f_equal. rewrite list_filter_filter.
    apply list_filter_iff. intros e. rewrite not_elem_of_cons. tauto.
Qed.

(** X21.  Revoking undoes creating: for messages of pairwise
    different ids, [revokeMediaUrls] of the map that
    [createMediaUrls] returned leaves the page with the URLs it had
    before, and the map empty. *)
Theorem revoke_undoes_create (messages : list Message) (mediaFiles : list File)
    (b : Browser) :
  store_ok b →
  NoDup (id <$> messages) →
  (revokeMediaUrls (createMediaUrls messages mediaFiles b).1
                   (createMediaUrls messages mediaFiles b).2).1 = []
  ∧ blobs (revokeMediaUrls (createMediaUrls messages mediaFiles b).1
                           (createMediaUrls messages mediaFiles b).2).2
    = blobs b.
Proof.
  intros Hok Hnd. split; [done|].
  destruct (createMediaUrls_inv mediaFiles b messages Hok)
    as (Hok' & Hnext & (new & Hblobs & Hnew & Hvals) & _).
  unfold revokeMediaUrls. cbn [snd]. rewrite foldl_revoke. cbn [blobs].
  unfold Map_values. rewrite Hvals, Hblobs by done.
  rewrite filter_app.
  assert (filter (fun e : string * File => e.1 ∉ new.*1) new = []) as ->.
  { apply elem_of_nil_inv. intros e [He Hin]%list_elem_of_filter.
    apply He. by apply list_elem_of_fmap_2. }
  rewrite app_nil_r. apply filter_all, Forall_forall.
  intros e He Hin.
  destruct (Hok e.1) as (n & Hn & Hlt); [by apply list_elem_of_fmap_2|].
  destruct (Hnew _ Hin) as (n' & Hn' & Hle).
  rewrite Hn in Hn'. apply blob_url_inj in Hn'. lia.
Qed.

End MediaUrlsFacts.

(* ===================================================================== *)
(** * Properties of the import *)
(* ===================================================================== *)

Module UseImportFacts.
Import JS Types Chunk ChunkFacts MediaMatcher MediaMatcherFacts MediaMatcherMore
       MediaUrls MediaUrlsFacts Storage StorageFacts StorageMore UseImport.


(** *** The messages that are stored *)

Lemma same_message_refl m : same_message m m.
Proof. done. Qed.

Lemma enriched_same_message m m' : enriched_or_same m m' → same_message m m'.
Proof. intros [->|[_ (? & ? & ? & ? & ? & ?)]]; by repeat split. Qed.

Lemma matchMediaToMessages_same messages mediaFiles :
  Forall2 same_message messages
          (matchedMessages (matchMediaToMessages messages mediaFiles)).
Proof.
  unfold matchMediaToMessages.
  destruct (length mediaFiles =? 0); cbn [matchedMessages].
  { apply Forall2_same_length_lookup. split; [done|].
    intros i m m' Hm Hm'. by simplify_eq. }
  assert (frame_inv messages
            (mkState messages (buildMediaLookup mediaFiles) ∅ [])) as Hinit.
  { split; [done|]. intros i m m' Hm Hm'. left. cbn [msgs] in Hm'. congruence. }
  apply strategy1_frame, strategy2_frame in Hinit as [Hlen Hframe].
  apply Forall2_same_length_lookup. split; [done|].
  intros i m m' Hm Hm'. apply enriched_same_message. by eapply Hframe.
Qed.

Lemma attachUrl_same urlMap m :
  same_message m (attachUrl urlMap m)
  ∧ mediaFileName (attachUrl urlMap m) = mediaFileName m
  ∧ mediaType (attachUrl urlMap m) = mediaType m.
Proof.
  unfold attachUrl. destruct (Map_get (id m) urlMap) as [url|]; [|done].
  by destruct (truthy url).
Qed.

Lemma attachUrl_wanted mediaFiles urlMap m :
  wanted mediaFiles (attachUrl urlMap m) = wanted mediaFiles m.
Proof.
  unfold wanted. by destruct (attachUrl_same urlMap m) as (_ & -> & _).
Qed.

Lemma same_message_trans m1 m2 m3 :
  same_message m1 m2 → same_message m2 m3 → same_message m1 m3.
Proof.
  intros (? & ? & ? & ? & ?) (? & ? & ? & ? & ?). repeat split; congruence.
Qed.

Lemma linkMedia_same messages mediaFiles b :
  Forall2 same_message messages (linkMedia messages mediaFiles b).1.
Proof.
  unfold linkMedia. destruct (0 <? length mediaFiles).
  - destruct (createMediaUrls _ _ _) as [urlMap b']. cbn [fst].
    apply Forall2_fmap_r.
    eapply Forall2_impl; [apply matchMediaToMessages_same|].
    intros m m' Hm. eapply same_message_trans; [done|apply attachUrl_same].
  - cbn [fst]. apply Forall2_same_length_lookup. split; [done|].
    intros i m m' Hm Hm'. by simplify_eq.
Qed.

Lemma same_message_ids l l' :
  Forall2 same_message l l' → id <$> l' = id <$> l.
Proof.
  induction 1 as [|m m' l l' (Hid & _) _ IH]; [done|]. csimpl. by f_equal.
Qed.

(** *** The last time stamp *)

Lemma num_gt_Some a b :
  num_gt a b = true ↔ ∃ x y, a = Some x ∧ b = Some y ∧ (y < x)%Z.
Proof.
  destruct a as [x|], b as [y|]; simpl; split; try done;
    try (by intros (? & ? & ? & ? & ?)).
  - intros H%Z.ltb_lt. eauto.
  - intros (? & ? & [= <-] & [= <-] & ?). by apply Z.ltb_lt.
Qed.

Lemma foldl_later l t0 :
  (foldl later t0 l = t0 ∨ ∃ m, m ∈ l ∧ timestamp m = foldl later t0 l)
  ∧ (∀ y, foldl later t0 l = Some y →
          (∃ y0, t0 = Some y0 ∧ (y0 ≤ y)%Z)
          ∧ ∀ m x, m ∈ l → timestamp m = Some x → (x ≤ y)%Z).
Proof.
  revert t0. induction l as [|m l IH]; intros t0; simpl.
  - split; [by left|]. intros y ->. split; [by exists y|].
    by intros m x ?%elem_of_nil.
  - destruct (IH (later t0 m)) as [Hwho Hmax]. split.
    + destruct Hwho as [->|(m' & Hm' & Ht)].
      * unfold later. destruct (num_gt (timestamp m) t0); [|by left].
        right. exists m. split; [by left|done].
      * right. exists m'. split; [by right|done].
    + intros y Hy. destruct (Hmax y Hy) as [(y1 & Hy1 & Hle) Hall].
      unfold later in Hy1.
      destruct (num_gt (timestamp m) t0) eqn:Hgt.
      * apply num_gt_Some in Hgt as (x & y0 & Hx & -> & Hlt).
        split; [exists y0; split; [done|]; simplify_eq; lia|].
        intros m' x' [->|Hm']%elem_of_cons Hx'; [|by eapply Hall].
        simplify_eq. done.
      * split; [by exists y1|].
        intros m' x' [->|Hm']%elem_of_cons Hx'; [|by eapply Hall].
        subst t0. rewrite Hx' in Hgt. simpl in Hgt.
        apply Z.ltb_ge in Hgt. lia.
Qed.

Lemma lastTimestamp_latest clock first rest w :
  is_latest (lastTimestamp clock (first :: rest) w).1 (first :: rest)
  ∧ (timestamp first = None → (lastTimestamp clock (first :: rest) w).1 = None).
Proof.
  unfold lastTimestamp. cbn [fst].
  destruct (foldl_later (first :: rest) (timestamp first)) as [Hwho Hmax].
  split; [split|].
  - destruct Hwho as [Heq|?]; [|done]. exists first. split; [by left|done].
  - intros m x y Hm Hx Hy. by eapply (proj2 (Hmax y Hy)).
  - intros Hnone.
    destruct (foldl later (timestamp first) (first :: rest)) as [y|] eqn:E;
      [|done].
    destruct (Hmax y eq_refl) as [(y0 & Hy0 & _) _]. congruence.
Qed.

(** *** The blobs *)

Section Blobs.
Variable File_type : File → string.

Lemma saveBlob_wanted mediaFiles d msg :
  saveBlob File_type (buildFileMap mediaFiles) d msg
  = match wanted mediaFiles msg with
    | Some file => saveMedia (id msg) (bytes file) (name file) (File_type file) d
    | None => d
    end.
Proof.
  unfold saveBlob, wanted.
  destruct (mediaFileName msg) as [n|]; [|done].
  destruct (truthy n); [|done].
  rewrite buildFileMap_get. by destruct (file_named _ _).
Qed.

Lemma foldl_saveBlob mediaFiles msgs d :
  chats (foldl (saveBlob File_type (buildFileMap mediaFiles)) d msgs) = chats d
  ∧ messages (foldl (saveBlob File_type (buildFileMap mediaFiles)) d msgs)
    = messages d
  ∧ ∀ m, NoDup (id <$> msgs) → m ∈ msgs →
         media (foldl (saveBlob File_type (buildFileMap mediaFiles)) d msgs)
           !! id m
         = match wanted mediaFiles m with
           | Some file =>
               Some (mkMediaRecord (id m) (bytes file) (name file) (File_type file))
           | None => media d !! id m
           end.
Proof.
  induction msgs as [|msg msgs IH] using rev_ind.
  - split; [done|]. split; [done|]. by intros m _ ?%elem_of_nil.
  - rewrite foldl_app. cbn [foldl]. rewrite saveBlob_wanted.
    destruct IH as (Hc & Hm & Hmedia).
    set (d' := foldl _ d msgs) in *.
    split_and!.
    + by destruct (wanted mediaFiles msg).
    + by destruct (wanted mediaFiles msg).
    + intros m Hnd Hin. rewrite fmap_app in Hnd.
      apply NoDup_snoc_inv in Hnd as [Hfresh Hnd].
      apply elem_of_app in Hin as [Hin|Hin].
      * assert (id m ≠ id msg) as Hne.
        { intros Heq. apply Hfresh. rewrite <- Heq. by apply list_elem_of_fmap_2. }
        rewrite <- (Hmedia m Hnd Hin).
        destruct (wanted mediaFiles msg); [|done].
        cbn [saveMedia media]. by rewrite lookup_insert_ne.
      * apply list_elem_of_singleton in Hin as ->.
        destruct (wanted mediaFiles msg) as [file|].
        -- cbn [saveMedia media]. by rewrite lookup_insert_eq.
        -- clear -Hfresh. 
           assert (∀ l d0, id msg ∉ id <$> l →
                     media (foldl (saveBlob File_type (buildFileMap mediaFiles)) d0 l)
                       !! id msg = media d0 !! id msg) as Hskip.
           { induction l as [|x l IHl]; intros d0 Hx; [done|].
             rewrite fmap_cons in Hx. apply not_elem_of_cons in Hx as [Hne Hx].
             cbn [foldl]. rewrite IHl by done. rewrite saveBlob_wanted.
             destruct (wanted mediaFiles x); [|done].
             cbn [saveMedia media]. by rewrite lookup_insert_ne. }
           by apply Hskip.
Qed.
End Blobs.


(** *** What the correlator binds is asked for *)

Lemma file_named_is_Some f mediaFiles :
  f ∈ mediaFiles → is_Some (file_named (toLowerCase (name f)) mediaFiles).
Proof.
  intros Hin. unfold file_named.
  destruct (last (filter _ mediaFiles)) eqn:E; [by eexists|].
  apply last_None in E.
  assert (f ∈ filter (fun g => toLowerCase (name g) = toLowerCase (name f))
                     mediaFiles) as H by by apply list_elem_of_filter.
  rewrite E in H. by apply elem_of_nil in H.
Qed.

Lemma explained_wanted mediaFiles m mm :
  explained (buildMediaLookup mediaFiles) m mm →
  mm = m ∨ is_Some (wanted mediaFiles mm).
Proof.
  intros [->|(k & f & Hk & Hname & _ & _ & Hwhy)]; [by left|]. right.
  pose proof (buildMediaLookup_named mediaFiles k f Hk) as Hnamed.
  apply buildMediaLookup_built in Hk as [Hbuilt Hkey].
  assert (truthy (name (file f)) = true) as Htr.
  { destruct Hwhy as [(r & _ & Hr & Hrk)|(t & Ht & Ht0 & _)].
    - rewrite <- truthy_toLowerCase, Hkey, <- Hrk. by rewrite truthy_toLowerCase.
    - apply Hnamed. rewrite Ht. simpl. by destruct (Z.eqb_spec t 0). }
  unfold wanted. rewrite Hname, Htr.
  apply file_named_is_Some, Hbuilt.
Qed.

Lemma matched_wanted messages mediaFiles i m mm :
  messages !! i = Some m →
  matchedMessages (matchMediaToMessages messages mediaFiles) !! i = Some mm →
  mm = m ∨ is_Some (wanted mediaFiles mm).
Proof.
  intros Hm Hmm. unfold matchMediaToMessages in Hmm.
  destruct (length mediaFiles =? 0); cbn [matchedMessages] in Hmm.
  { left. congruence. }
  apply explained_wanted. by eapply (proj2 (run_just messages mediaFiles)).
Qed.

(** *** The records the store can clone *)

Lemma declared_cloneable m : declared_name m → cloneable m = true.
Proof.
  unfold declared_name, cloneable. intros H.
  destruct (mediaFileName m) as [n|]; [|done].
  specialize (H n eq_refl). apply negb_true_iff, bool_decide_eq_false.
  unfold getMediaType_value. rewrite H.
  by destruct (Map_get (extension n) EXTENSION_TO_TYPE).
Qed.

Lemma explained_declared mediaFiles m mm :
  typed_files mediaFiles → declared_name m →
  explained (buildMediaLookup mediaFiles) m mm → declared_name mm.
Proof.
  intros Hfiles Hm [->|(k & f & Hk & Hname & _)]; [done|].
  apply buildMediaLookup_built in Hk as [(Hin & _) _].
  unfold typed_files in Hfiles. rewrite Forall_forall in Hfiles.
  intros n Hn. rewrite Hname in Hn. injection Hn as <-. by apply Hfiles.
Qed.

Lemma matched_declared messages mediaFiles :
  typed_files mediaFiles → Forall declared_name messages →
  Forall declared_name (matchedMessages (matchMediaToMessages messages mediaFiles)).
Proof.
  intros Hfiles Hmsgs.
  pose proof (matchMediaToMessages_same messages mediaFiles) as Hsame.
  apply Forall_lookup. intros i mm Hmm.
  destruct (Forall2_lookup_r _ _ _ _ _ Hsame Hmm) as (m & Hm & _).
  pose proof (proj1 (Forall_lookup _ _) Hmsgs i m Hm) as Hdecl.
  unfold matchMediaToMessages in Hmm.
  destruct (length mediaFiles =? 0); cbn [matchedMessages] in Hmm.
  { by simplify_eq. }
  eapply explained_declared; [done..|].
  by eapply (proj2 (run_just messages mediaFiles)).
Qed.

Lemma put_until_thrown_all l :
  Forall (fun m => cloneable m = true) l →
  put_until_thrown l = l ∧ forallb cloneable l = true.
Proof.
  induction 1 as [|m l Hm _ [IH1 IH2]]; [done|].
  cbn [put_until_thrown forallb]. by rewrite Hm, IH1, IH2.
Qed.

(** *** The run of the import *)

Section Run.
Variable clock : nat → Z.
Variable File_type : File → string.
Variable reader : File → Parser.Reader.
Variable refuses : Request → DB → bool.

Lemma linkMedia_declared messages mediaFiles b :
  typed_files mediaFiles → Forall declared_name messages →
  Forall declared_name (linkMedia messages mediaFiles b).1.
Proof.
  intros Hfiles Hmsgs. unfold linkMedia.
  destruct (0 <? length mediaFiles); [|done].
  destruct (createMediaUrls _ _ _) as [urlMap b']. cbn [fst].
  apply Forall_fmap.
  eapply Forall_impl; [by apply matched_declared|].
  intros m Hm n. cbn [compose].
  destruct (attachUrl_same urlMap m) as (_ & -> & _). apply Hm.
Qed.

(** In a store that refuses nothing, the records that can be cloned
    are all put. *)
Lemma trySaveMessages_returned msgs chat d :
  (∀ q d, refuses q d = false) →
  Forall (fun m => cloneable m = true) msgs →
  trySaveMessages refuses msgs chat d
  = returned (foldl (put_message chat) d msgs).
Proof.
  intros Hok Hmsgs. unfold trySaveMessages.
  destruct (chunkLoop_inv
              (fun p o => o = returned (foldl (put_message chat) d (take p msgs)))
              CHUNK_SIZE (length msgs) (trySaveChunk refuses msgs chat))
    with (fuel := length msgs) (start := 0) (st := returned d)
    as (o & -> & ->).
  - by apply Nat.leb_le; vm_compute.
  - intros s o Hs ->. unfold trySaveChunk. cbv zeta. rewrite Hok. cbn [negb].
    destruct (put_until_thrown_all
                (slice s (Nat.min (s + CHUNK_SIZE) (length msgs)) msgs))
      as [-> ->].
    { unfold slice. by apply Forall_take, Forall_drop. }
    cbn [andb].
    rewrite (take_slice msgs s (Nat.min (s + CHUNK_SIZE) (length msgs))) by lia.
    by rewrite foldl_app.
  - lia.
  - done.
  - by rewrite take_ge.
Qed.

(** It is then [saveMessages] that is run. *)
Lemma trySaveMessages_saveMessages msgs chat d :
  (∀ q d, refuses q d = false) →
  Forall (fun m => cloneable m = true) msgs →
  Some (trySaveMessages refuses msgs chat d)
  = (fun r => returned r.1) <$> saveMessages msgs chat d.
Proof.
  intros Hok Hmsgs. rewrite trySaveMessages_returned by done.
  by destruct (saveMessages_db msgs chat d) as [log ->].
Qed.

Lemma foldl_trySaveBlob fileMap msgs d :
  (∀ q d, refuses q d = false) →
  foldl (trySaveBlob File_type refuses fileMap) (returned d) msgs
  = returned (foldl (saveBlob File_type fileMap) d msgs).
Proof.
  intros Hok. revert d. induction msgs as [|m msgs IH]; intros d; [done|].
  cbn [foldl]. rewrite <- IH. f_equal.
  unfold trySaveBlob, saveBlob.
  destruct (mediaFileName m) as [n|]; [|done].
  destruct (truthy n); [|done].
  destruct (Map_get (toLowerCase n) fileMap); [|done].
  by rewrite Hok.
Qed.

Lemma parse_ids_NoDup txtFile :
  ∃ r pst, Parser.parseWhatsAppChat txtFile = Some (r, pst)
           ∧ NoDup (id <$> Parser.messages r).
Proof.
  destruct (ParserMore.parse_result txtFile) as (r & Hr & _ & Hids & _).
  destruct (Parser.parseWhatsAppChat txtFile) as [[r' pst]|]; [|done].
  simpl in Hr. simplify_eq. exists r, pst. split; [done|].
  apply NoDup_alt. intros i j x. rewrite !list_lookup_fmap.
  destruct (Parser.messages r !! i) as [mi|] eqn:Hi; [|done].
  destruct (Parser.messages r !! j) as [mj|] eqn:Hj; [|done].
  simpl. intros [= <-] [= Heq].
  rewrite (Hids _ _ Hi), (Hids _ _ Hj) in Heq. symmetry.
  by eapply ParserMore.id_of_inj.
Qed.

Lemma newChat_spec result finalMessages w :
  db (newChat clock result finalMessages w).2 = db w
  ∧ browser (newChat clock result finalMessages w).2 = browser w
  ∧ chat_name (newChat clock result finalMessages w).1 = Parser.chatName result
  ∧ isGroup (newChat clock result finalMessages w).1 = Parser.isGroup result
  ∧ messageCount (newChat clock result finalMessages w).1 = length finalMessages
  ∧ lastMessageTimestamp (newChat clock result finalMessages w).1
    = (lastTimestamp clock finalMessages w).1.
Proof.
  unfold newChat, lastTimestamp. by destruct finalMessages.
Qed.

(** The result of the import when nothing fails, written out. *)
Lemma import_run txtFile mediaFiles w :
  nothing_fails reader refuses txtFile → typed_files mediaFiles →
  ∃ r pst,
    Parser.parseWhatsAppChat txtFile = Some (r, pst)
    ∧ NoDup (id <$> Parser.messages r)
    ∧ importChatWithMedia clock File_type reader refuses txtFile mediaFiles w
      = (let lm := linkMedia (Parser.messages r) mediaFiles (browser w) in
         let nc := newChat clock r lm.1 (mkWorld (db w) lm.2 (ticks w)) in
         let d1 := foldl (put_message (chat_id nc.1)) (saveChat nc.1 (db w)) lm.1 in
         (Some nc.1,
          mkWorld (if (0 <? length mediaFiles)%nat
                   then foldl (saveBlob File_type (buildFileMap mediaFiles)) d1 lm.1
                   else d1)
                  lm.2 (ticks nc.2))).
Proof.
  intros [Hloads Hok] Hfiles.
  destruct (parse_ids_NoDup txtFile) as (r & pst & Hparse & Hnd).
  exists r, pst. split; [done|]. split; [done|].
  unfold importChatWithMedia, Parser.parseWhatsAppChat_with.
  rewrite Hloads, Hparse. cbn [fst].
  pose proof (linkMedia_declared (Parser.messages r) mediaFiles (browser w)
                Hfiles) as Hdecl.
  destruct (linkMedia (Parser.messages r) mediaFiles (browser w)) as [final b].
  cbn [fst snd] in *.
  assert (Forall (fun m => cloneable m = true) final) as Hclone.
  { eapply Forall_impl; [apply Hdecl|apply declared_cloneable].
    apply (ParserNames.parse_names_declared txtFile). by rewrite Hparse. }
  pose proof (newChat_spec r final (mkWorld (db w) b (ticks w)))
    as (Hdb & Hbr & _).
  destruct (newChat clock r final (mkWorld (db w) b (ticks w))) as [chat w1].
  cbn [fst snd] in *. cbn [db browser] in Hdb, Hbr.
  unfold store, trySaveChat. rewrite Hok, Hdb.
  rewrite trySaveMessages_returned by done.
  rewrite foldl_trySaveBlob by done. rewrite Hbr.
  by destruct (0 <? length mediaFiles).
Qed.


Lemma getMessagesForChat_messages chat d d' :
  messages d = messages d' → getMessagesForChat chat d = getMessagesForChat chat d'.
Proof. unfold getMessagesForChat, messageIdsOf. by intros ->. Qed.

(** The store the import leaves: the chats and the messages. *)
Lemma import_store mediaFiles chat final d :
  let d1 := foldl (put_message (chat_id chat)) (saveChat chat d) final in
  let d2 := if (0 <? length mediaFiles)%nat
            then foldl (saveBlob File_type (buildFileMap mediaFiles)) d1 final
            else d1 in
  chats d2 = <[chat_id chat := chat]> (chats d)
  ∧ messages d2 = messages d1.
Proof.
  intros d1 d2.
  destruct (foldl_put_frame (chat_id chat) final (saveChat chat d)) as [Hc _].
  fold d1 in Hc. subst d2. destruct (0 <? length mediaFiles).
  - destruct (foldl_saveBlob File_type mediaFiles final d1) as (-> & -> & _).
    by rewrite Hc.
  - by rewrite Hc.
Qed.

Lemma stored_final chat final d m' :
  NoDup (id <$> final) → m' ∈ final →
  messages (foldl (put_message chat) d final) !! id m' = Some (mkStored m' chat).
Proof.
  intros Hnd Hin. rewrite foldl_put_lookup.
  by rewrite (last_with_id_elem (id m') final m').
Qed.

(** X22.  When nothing fails (the reader loads the file and the store
    refuses no request) and no media file has an extension that the
    table of media types inherits ([constructor], [__proto__]), the
    import returns a chat and stores it: the record found under its id
    is the chat returned, with the name and the group flag of the
    parse and the number of the parsed messages as its count; the
    other chats stay.  Every parsed message is found under its id,
    tagged with the chat, the same but for the media fields; and when
    the store held no message of that chat id, the chat has as many
    messages as it counts. *)
Theorem import_saves_the_chat (txtFile : File) (mediaFiles : list File)
    (w : World) :
  nothing_fails reader refuses txtFile →
  typed_files mediaFiles →
  ∃ chat w' r,
    importChatWithMedia clock File_type reader refuses txtFile mediaFiles w
    = (Some chat, w')
    ∧ fst <$> Parser.parseWhatsAppChat txtFile = Some r
    ∧ chat_name chat = Parser.chatName r
    ∧ isGroup chat = Parser.isGroup r
    ∧ messageCount chat = length (Parser.messages r)
    ∧ getChat (chat_id chat) (db w') = Some chat
    ∧ (∀ c, c ≠ chat_id chat → getChat c (db w') = getChat c (db w))
    ∧ (∀ m, m ∈ Parser.messages r →
         ∃ v, getMessage (id m) (db w') = Some v
              ∧ chatId v = chat_id chat
              ∧ same_message m (stored_msg v))
    ∧ ((∀ k v, getMessage k (db w) = Some v → chatId v ≠ chat_id chat) →
       length (getMessagesForChat (chat_id chat) (db w')) = messageCount chat).
Proof.
  intros Hfine Hfiles.
  destruct (import_run txtFile mediaFiles w Hfine Hfiles)
    as (r & pst & Hparse & Hnd & Hrun).
  pose proof (linkMedia_same (Parser.messages r) mediaFiles (browser w)) as Hsame.
  set (lm := linkMedia (Parser.messages r) mediaFiles (browser w)) in *.
  pose proof (newChat_spec r lm.1 (mkWorld (db w) lm.2 (ticks w)))
    as (_ & _ & Hname & Hgroup & Hcount & _).
  set (nc := newChat clock r lm.1 (mkWorld (db w) lm.2 (ticks w))) in *.
  cbv zeta in Hrun.
  destruct (import_store mediaFiles nc.1 lm.1 (db w)) as [Hchats Hmsgs].
  cbv zeta in Hchats, Hmsgs.
  set (d1 := foldl (put_message (chat_id nc.1)) (saveChat nc.1 (db w)) lm.1) in *.
  set (d2 := if (0 <? length mediaFiles)%nat then _ else d1) in *.
  assert (NoDup (id <$> lm.1)) as Hnd'
    by by rewrite (same_message_ids _ _ Hsame).
  exists nc.1, (mkWorld d2 lm.2 (ticks nc.2)), r.
  split; [exact Hrun|]. split; [by rewrite Hparse|].
  split; [done|]. split; [done|].
  split; [by rewrite Hcount, <- (Forall2_length _ _ _ Hsame)|].
  cbn [db]. split_and!.
  - unfold getChat. rewrite Hchats. apply lookup_insert_eq.
  - intros c Hc. unfold getChat. rewrite Hchats. by apply lookup_insert_ne.
  - intros m Hm. apply list_elem_of_lookup in Hm as [i Hi].
    destruct (Forall2_lookup_l _ _ _ _ _ Hsame Hi) as (m' & Hi' & Hmm).
    exists (mkStored m' (chat_id nc.1)). unfold getMessage. rewrite Hmsgs.
    destruct Hmm as (Hid & Hrest). rewrite <- Hid. split; [|done].
    apply stored_final; [done|]. by eapply list_elem_of_lookup_2.
  - intros Hfree.
    rewrite (getMessagesForChat_messages _ d2 d1) by done.
    destruct (put_then_load lm.1 (chat_id nc.1) (saveChat nc.1 (db w)) Hnd')
      as (Hperm & _); [done|].
    apply Permutation_length in Hperm. rewrite length_fmap in Hperm.
    fold d1 in Hperm. by rewrite Hperm, Hcount.
Qed.

Lemma blob_url_truthy n : truthy (blob_url n) = true.
Proof. done. Qed.

Lemma wanted_nil m : wanted [] m = None.
Proof. unfold wanted. destruct (mediaFileName m); [|done]. by destruct (truthy _). Qed.

(** What [linkMedia] returns for a message: a message that asks for a
    file of the list carries a URL that shows it, and a message whose
    file name is new asks for one. *)
Lemma linkMedia_media messages mediaFiles b i m m' :
  store_ok b → NoDup (id <$> messages) →
  messages !! i = Some m →
  (linkMedia messages mediaFiles b).1 !! i = Some m' →
  (mediaFileName m' ≠ mediaFileName m → is_Some (wanted mediaFiles m'))
  ∧ ∀ f, wanted mediaFiles m' = Some f →
         ∃ url, mediaUrl m' = Some url
                ∧ resolve url (linkMedia messages mediaFiles b).2 = Some f.
Proof.
  intros Hok Hnd Hi. unfold linkMedia.
  destruct mediaFiles as [|f0 files].
  { cbn [length Nat.ltb Nat.leb fst snd]. intros Hi'.
    assert (m' = m) as -> by congruence.
    split; [done|]. intros f Hf. by rewrite wanted_nil in Hf. }
  set (mediaFiles := f0 :: files).
  assert ((0 <? length mediaFiles)%nat = true) as -> by done.
  set (matched := matchedMessages (matchMediaToMessages messages mediaFiles)).
  pose proof (createMediaUrls_inv mediaFiles b matched Hok) as Hinv.
  destruct (createMediaUrls matched mediaFiles b) as [urlMap b'].
  cbn [fst snd]. rewrite list_lookup_fmap.
  destruct (matched !! i) as [mm|] eqn:Hmm; [|done].
  cbn [fmap option_fmap option_map]. intros [= <-].
  destruct (attachUrl_same urlMap mm) as (_ & Hfile & _).
  rewrite attachUrl_wanted, Hfile. split.
  - intros Hne.
    destruct (matched_wanted _ mediaFiles i m mm Hi Hmm) as [->|?]; done.
  - intros f Hf.
    assert (NoDup (id <$> matched)) as Hndm.
    { unfold matched.
      by rewrite (same_message_ids _ _
                    (matchMediaToMessages_same messages mediaFiles)). }
    pose proof (urls_inv_lookup mediaFiles b _ (urlMap, b') mm
                  Hinv Hndm (list_elem_of_lookup_2 _ _ _ Hmm)) as Hurl.
    rewrite Hf in Hurl. destruct Hurl as (url & Hget & Hres).
    cbn [fst snd] in Hget, Hres.
    exists url. split; [|done].
    unfold attachUrl. rewrite Hget.
    assert (truthy url = true) as ->; [|done].
    destruct Hinv as (Hok' & _).
    destruct (Hok' url) as (n & -> & _); [|done].
    unfold resolve in Hres. by apply Map_get_Some_key in Hres.
Qed.

(** X23.  With media files, what the correlator binds is kept and
    shown, when nothing fails and no media file has an extension that
    the table of media types inherits.  Of every parsed message the
    stored one, if it carries the name of a file of the list (up to
    case), has that file saved as its blob, under its id and with the
    name and the type of the file, and carries a URL that shows that
    file.  A stored message whose file name is not the parsed one, so
    one that the correlator has bound, always carries such a name. *)
Theorem import_keeps_the_media (txtFile : File) (mediaFiles : list File)
    (w : World) :
  nothing_fails reader refuses txtFile →
  typed_files mediaFiles →
  store_ok (browser w) →
  ∃ chat w' r,
    importChatWithMedia clock File_type reader refuses txtFile mediaFiles w
    = (Some chat, w')
    ∧ fst <$> Parser.parseWhatsAppChat txtFile = Some r
    ∧ ∀ m, m ∈ Parser.messages r →
        ∃ v, getMessage (id m) (db w') = Some v
             ∧ (mediaFileName (stored_msg v) ≠ mediaFileName m →
                is_Some (wanted mediaFiles (stored_msg v)))
             ∧ ∀ f, wanted mediaFiles (stored_msg v) = Some f →
                 Storage.media (db w') !! id m
                 = Some (mkMediaRecord (id m) (bytes f) (name f) (File_type f))
                 ∧ ∃ url, mediaUrl (stored_msg v) = Some url
                          ∧ resolve url (browser w') = Some f.
Proof.
  intros Hfine Hfiles Hok.
  destruct (import_run txtFile mediaFiles w Hfine Hfiles)
    as (r & pst & Hparse & Hnd & Hrun).
  pose proof (linkMedia_same (Parser.messages r) mediaFiles (browser w)) as Hsame.
  pose proof (fun i m m' => linkMedia_media (Parser.messages r) mediaFiles
                              (browser w) i m m' Hok Hnd) as Hlink.
  set (lm := linkMedia (Parser.messages r) mediaFiles (browser w)) in *.
  set (nc := newChat clock r lm.1 (mkWorld (db w) lm.2 (ticks w))) in *.
  cbv zeta in Hrun.
  destruct (import_store mediaFiles nc.1 lm.1 (db w)) as [_ Hmsgs].
  cbv zeta in Hmsgs.
  set (d1 := foldl (put_message (chat_id nc.1)) (saveChat nc.1 (db w)) lm.1) in *.
  set (d2 := if (0 <? length mediaFiles)%nat then _ else d1) in *.
  assert (NoDup (id <$> lm.1)) as Hnd'
    by by rewrite (same_message_ids _ _ Hsame).
  exists nc.1, (mkWorld d2 lm.2 (ticks nc.2)), r.
  split; [exact Hrun|]. split; [by rewrite Hparse|].
  intros m Hm. apply list_elem_of_lookup in Hm as [i Hi].
  destruct (Forall2_lookup_l _ _ _ _ _ Hsame Hi) as (m' & Hi' & Hmm).
  pose proof (list_elem_of_lookup_2 _ _ _ Hi') as Hin'.
  destruct (Hlink i m m' Hi Hi') as [Hnew Hurl].
  exists (mkStored m' (chat_id nc.1)). cbn [db browser stored_msg].
  destruct Hmm as (Hid & _). rewrite <- Hid.
  split; [unfold getMessage; rewrite Hmsgs; by apply stored_final|].
  split; [done|]. intros f Hf. split; [|by apply Hurl].
  destruct mediaFiles as [|f0 files]; [by rewrite wanted_nil in Hf|].
  subst d2. cbn [length Nat.ltb Nat.leb].
  destruct (foldl_saveBlob File_type (f0 :: files) lm.1 d1) as (_ & _ & Hmedia).
  by rewrite (Hmedia m' Hnd' Hin'), Hf.
Qed.

Lemma is_latest_same t l l' :
  Forall2 same_message l l' → is_latest t l' → is_latest t l.
Proof.
  intros Hsame [(m' & Hm' & Ht) Hmax]. split.
  - apply list_elem_of_lookup in Hm' as [i Hi].
    destruct (Forall2_lookup_r _ _ _ _ _ Hsame Hi) as (m & Hm & (_ & Hts & _)).
    exists m. split; [by eapply list_elem_of_lookup_2|congruence].
  - intros m x y Hm Hx Hy. apply list_elem_of_lookup in Hm as [i Hi].
    destruct (Forall2_lookup_l _ _ _ _ _ Hsame Hi) as (m2 & Hm2 & (_ & Hts & _)).
    apply (Hmax m2 x y); [by eapply list_elem_of_lookup_2|congruence|done].
Qed.

(** X24.  The dates of the chat that the import returns when nothing
    fails and no media file has an extension that the table of media
    types inherits.  When there are messages, [lastMessageTimestamp]
    is the time stamp of one of them and no time stamp of a message is
    greater; it is NaN when the first message has none.  The id of the
    chat is made of the reading of the clock that follows.  Without
    messages [lastMessageTimestamp] is a reading of the clock, and the
    id is made of the next one. *)
Theorem import_dates (txtFile : File) (mediaFiles : list File) (w : World) :
  nothing_fails reader refuses txtFile →
  typed_files mediaFiles →
  ∃ chat w' r,
    importChatWithMedia clock File_type reader refuses txtFile mediaFiles w
    = (Some chat, w')
    ∧ fst <$> Parser.parseWhatsAppChat txtFile = Some r
    ∧ match Parser.messages r with
      | first :: _ =>
          is_latest (lastMessageTimestamp chat) (Parser.messages r)
          ∧ (timestamp first = None → lastMessageTimestamp chat = None)
          ∧ chat_id chat = "chat-" +:+ pretty (clock (ticks w))
          ∧ lastOpened chat = clock (1 + ticks w)
          ∧ created chat = clock (2 + ticks w)
          ∧ ticks w' = 3 + ticks w
      | [] =>
          lastMessageTimestamp chat = Some (clock (ticks w))
          ∧ chat_id chat = "chat-" +:+ pretty (clock (1 + ticks w))
          ∧ lastOpened chat = clock (2 + ticks w)
          ∧ created chat = clock (3 + ticks w)
          ∧ ticks w' = 4 + ticks w
      end.
Proof.
  intros Hfine Hfiles.
  destruct (import_run txtFile mediaFiles w Hfine Hfiles)
    as (r & pst & Hparse & Hnd & Hrun).
  pose proof (linkMedia_same (Parser.messages r) mediaFiles (browser w)) as Hsame.
  set (lm := linkMedia (Parser.messages r) mediaFiles (browser w)) in *.
  cbv zeta in Hrun.
  eexists _, _, r. split; [exact Hrun|]. split; [by rewrite Hparse|].
  cbn [ticks].
  pose proof (fun first rest =>
                lastTimestamp_latest clock first rest
                  (mkWorld (db w) lm.2 (ticks w))) as Hlast.
  destruct Hsame as [|first first' rest rest' Hfirst Hrest].
  - unfold newChat, lastTimestamp, Date_now. cbn [fst snd ticks].
    cbn [chat_id lastOpened created lastMessageTimestamp]. done.
  - specialize (Hlast first' rest').
    assert (Forall2 same_message (first :: rest) (first' :: rest')) as Hsame
      by by constructor.
    destruct Hlast as [Hlatest Hnan].
    unfold newChat. 
    destruct (lastTimestamp clock (first' :: rest')
                (mkWorld (db w) lm.2 (ticks w))) as [t w0] eqn:Hlt.
    assert (w0 = mkWorld (db w) lm.2 (ticks w)) as ->.
    { unfold lastTimestamp in Hlt. by injection Hlt. }
    cbn [fst] in Hlatest, Hnan.
    unfold Date_now. cbn [fst snd ticks].
    cbn [chat_id lastOpened created lastMessageTimestamp].
    split_and!; try done.
    + by eapply is_latest_same.
    + intros Hnone. apply Hnan. destruct Hfirst as (_ & Hts & _). congruence.
Qed.

End Run.

End UseImportFacts.

(* ===================================================================== *)
(** * Properties of the loading of a chat *)
(* ===================================================================== *)

Module UseMessagesFacts.
Import JS Types Storage StorageFacts StorageMore MediaUrls UseImport UseImportFacts
       UseMessages.


Lemma insert_msg_perm x l : insert_msg x l ≡ₚ x :: l.
Proof.
  induction l as [|y l IH]; simpl; [done|].
  destruct (stays_before x y); [done|]. rewrite IH. apply Permutation_swap.
Qed.

Lemma sort_msgs_perm l : sort_msgs l ≡ₚ l.
Proof.
  unfold sort_msgs. induction l as [|x l IH]; simpl; [done|].
  by rewrite insert_msg_perm, IH.
Qed.

Lemma shown_before_insert x l :
  is_Some (timestamp (stored_msg x)) →
  Forall (fun y => is_Some (timestamp (stored_msg y))) l →
  Forall (fun y => String.le (id (stored_msg x)) (id (stored_msg y))) l →
  Sorted shown_before l → Sorted shown_before (insert_msg x l).
Proof.
  intros [tx Hx] Hnum Hids Hsorted.
  induction Hsorted as [|y l Hl IH Hhd]; simpl.
  - by repeat constructor.
  - inversion_clear Hnum as [|? ? [ty Hy] Hnum'].
    inversion_clear Hids as [|? ? Hxy Hids'].
    unfold stays_before. rewrite Hx, Hy.
    destruct (Z.leb_spec tx ty) as [Hle|Hgt].
    + constructor; [by constructor|]. constructor.
      unfold shown_before. rewrite Hx, Hy.
      destruct (decide (tx = ty)) as [->|?]; [by right|left; lia].
    + constructor; [by apply IH|].
      assert (shown_before y x) as Hyx.
      { unfold shown_before. rewrite Hx, Hy. left. lia. }
      destruct l as [|z l]; simpl; [by constructor|].
      inversion_clear Hhd. by destruct (stays_before x z); constructor.
Qed.

Lemma sort_msgs_sorted l :
  Forall (fun y => is_Some (timestamp (stored_msg y))) l →
  StronglySorted (fun a b => String.le (id (stored_msg a)) (id (stored_msg b))) l →
  Sorted shown_before (sort_msgs l).
Proof.
  intros Hnum Hids. unfold sort_msgs.
  induction Hids as [|x l Hl IH Hx]; simpl; [constructor|].
  inversion_clear Hnum as [|? ? Hxnum Hnum'].
  apply shown_before_insert; [done| | |by apply IH].
  - by rewrite sort_msgs_perm.
  - fold (sort_msgs l). by rewrite sort_msgs_perm.
Qed.

Lemma getMessagesForChat_ids chat d :
  keyed d →
  (fun v => id (stored_msg v)) <$> getMessagesForChat chat d = messageIdsOf chat d.
Proof.
  intros Hkeyed. unfold getMessagesForChat.
  assert (∀ k, k ∈ messageIdsOf chat d →
               ∃ v, messages d !! k = Some v ∧ id (stored_msg v) = k) as Hall.
  { intros k (v & Hk & _)%elem_of_messageIdsOf. exists v. split; [done|].
    by apply Hkeyed. }
  revert Hall. generalize (messageIdsOf chat d). intros ids Hall.
  induction ids as [|k ids IH]; [done|]. csimpl.
  destruct (Hall k) as (v & -> & Hid); [by left|]. csimpl. f_equal; [done|].
  apply IH. intros k' Hk'. apply Hall. by right.
Qed.

(** The list loaded is the list read, sorted for the display. *)
Lemma loadMessages_sorted (chat : string) (d : DB) :
  keyed d →
  Forall (fun v => is_Some (timestamp (stored_msg v))) (getMessagesForChat chat d) →
  loadMessages chat d ≡ₚ getMessagesForChat chat d
  ∧ Sorted shown_before (loadMessages chat d).
Proof.
  intros Hkeyed Hnum. unfold loadMessages. split; [apply sort_msgs_perm|].
  apply sort_msgs_sorted; [done|].
  assert (StronglySorted String.le
            ((fun v => id (stored_msg v)) <$> getMessagesForChat chat d)) as Hs.
  { rewrite getMessagesForChat_ids by done. unfold messageIdsOf.
    apply StronglySorted_merge_sort; apply _. }
  revert Hs. generalize (getMessagesForChat chat d). intros l.
  induction l as [|x l IH]; csimpl; [constructor|].
  intros Hs. inversion_clear Hs as [|? ? Hl Hx]. constructor; [by apply IH|].
  rewrite Forall_fmap in Hx. exact Hx.
Qed.

(** X25.  What [useMessages] shows: the messages of the chat, each
    once, in the order of their time stamps; messages of one time
    stamp come in the order of their ids as strings, which is the
    order of the index they are read from. *)
Theorem loadMessages_order (chat : string) (d : DB) :
  keyed d →
  Forall (fun v => is_Some (timestamp (stored_msg v))) (getMessagesForChat chat d) →
  loadMessages chat d ≡ₚ getMessagesForChat chat d
  ∧ Sorted shown_before (loadMessages chat d).
Proof. apply loadMessages_sorted. Qed.


(** *** The order of the chat and the order of the ids *)

Lemma compare_app_prefix p a b :
  String.compare (p +:+ a) (p +:+ b) = String.compare a b.
Proof.
  induction p as [|c p IH]; [done|].
  rewrite !ParserMore.append_cons. simpl.
  assert (Ascii.compare c c = Eq) as ->; [|done].
  unfold Ascii.compare. apply N.compare_refl.
Qed.

(** The ids of the tenth and the eleventh message of a parse, for one
    time stamp, are in the other order. *)
Lemma id_of_9_10 t : ¬ String.le (Parser.id_of t 9) (Parser.id_of t 10).
Proof.
  unfold String.le, String.leb, Parser.id_of.
  rewrite !compare_app_prefix. by vm_compute.
Qed.

Lemma foldl_put_keyed chat msgs d :
  keyed d → keyed (foldl (put_message chat) d msgs).
Proof.
  revert d. induction msgs as [|m msgs IH]; intros d Hd; [done|].
  simpl. apply IH. intros k v. unfold put_message. cbn [messages].
  intros [[<- <-]|[_ Hk]]%lookup_insert_Some; [done|by apply Hd].
Qed.

Global Instance shown_before_trans : Transitive shown_before.
Proof.
  intros a b c. unfold shown_before.
  destruct (timestamp (stored_msg a)) as [x|]; [|done].
  destruct (timestamp (stored_msg b)) as [y|]; [|done].
  destruct (timestamp (stored_msg c)) as [z|]; [|done].
  intros [?|[-> Hab]] [?|[-> Hbc]]; [left; lia..|].
  right. split; [done|]. by etrans.
Qed.

Lemma StronglySorted_lookup_lt {A} (R : relation A) l i j x y :
  StronglySorted R l → i < j → l !! i = Some x → l !! j = Some y → R x y.
Proof.
  intros Hs. revert i j. induction Hs as [|z l Hl IH Hz]; intros i j Hij Hi Hj.
  - done.
  - destruct j as [|j]; [lia|]. simpl in Hj. destruct i as [|i].
    + simpl in Hi. simplify_eq. rewrite Forall_forall in Hz.
      apply Hz. by eapply list_elem_of_lookup_2.
    + simpl in Hi. apply (IH i j); [lia|done..].
Qed.

Section Shown.
Variable clock : nat → Z.
Variable File_type : File → string.
Variable reader : File → Parser.Reader.
Variable refuses : Request → DB → bool.

(** X26.  The order shown need not be the order of the chat.  When
    the tenth and the eleventh message of an export have one time
    stamp, then after an import in which nothing fails, with no media
    file whose extension the table of media types inherits, the chat
    shows the eleventh before the tenth: their ids end in 9 and in 10,
    and as strings 10 comes first. *)
Theorem tenth_shown_after_eleventh (txtFile : File) (mediaFiles : list File)
    (w : World) (r : Parser.ParseResult) (a b : Message) (t : Z) :
  nothing_fails reader refuses txtFile →
  typed_files mediaFiles →
  fst <$> Parser.parseWhatsAppChat txtFile = Some r →
  Forall (fun m => is_Some (timestamp m)) (Parser.messages r) →
  Parser.messages r !! 9 = Some a →
  Parser.messages r !! 10 = Some b →
  timestamp a = Some t → timestamp b = Some t →
  keyed (db w) →
  (∀ k v, getMessage k (db w) = Some v →
          chatId v ≠ "chat-" +:+ pretty (clock (ticks w))) →
  ∃ chat w' i j,
    importChatWithMedia clock File_type reader refuses txtFile mediaFiles w
    = (Some chat, w')
    ∧ i < j
    ∧ ((fun v => id (stored_msg v)) <$> loadMessages (chat_id chat) (db w')) !! i
      = Some (id b)
    ∧ ((fun v => id (stored_msg v)) <$> loadMessages (chat_id chat) (db w')) !! j
      = Some (id a).
Proof.
  intros Hfine Hfiles Hr Hnum Ha Hb Hta Htb Hkeyed Hfree.
  destruct (import_run clock File_type reader refuses txtFile mediaFiles w
              Hfine Hfiles)
    as (r' & pst & Hparse & Hnd & Hrun).
  assert (r' = r) as -> by (rewrite Hparse in Hr; by simplify_eq/=).
  destruct (ParserMore.parse_result txtFile) as (r' & Hr' & _ & Hids & _).
  assert (r' = r) as -> by congruence.
  pose proof (linkMedia_same (Parser.messages r) mediaFiles (browser w)) as Hsame.
  set (lm := linkMedia (Parser.messages r) mediaFiles (browser w)) in *.
  cbv zeta in Hrun.
  set (nc := newChat clock r lm.1 (mkWorld (db w) lm.2 (ticks w))) in *.
  destruct (import_store File_type mediaFiles nc.1 lm.1 (db w)) as [_ Hmsgs].
  cbv zeta in Hmsgs.
  set (d1 := foldl (put_message (chat_id nc.1)) (saveChat nc.1 (db w)) lm.1) in *.
  set (d2 := if (0 <? length mediaFiles)%nat then _ else d1) in *.
  assert (NoDup (id <$> lm.1)) as Hnd'
    by by rewrite (same_message_ids _ _ Hsame).
  assert (chat_id nc.1 = "chat-" +:+ pretty (clock (ticks w))) as Hcid.
  { destruct (Forall2_lookup_l _ _ _ _ _ Hsame Ha) as (a0 & Ha0 & _).
    subst nc. unfold newChat, lastTimestamp.
    revert Ha0. by destruct lm.1. }
  assert (keyed d2) as Hkeyed2.
  { intros k v. rewrite Hmsgs. by apply foldl_put_keyed. }
  destruct (put_then_load lm.1 (chat_id nc.1) (saveChat nc.1 (db w)) Hnd')
    as (Hperm & _); [by rewrite Hcid|]. fold d1 in Hperm.
  rewrite <- (getMessagesForChat_messages _ d2 d1) in Hperm by done.
  assert (Forall (fun v => is_Some (timestamp (stored_msg v)))
                 (getMessagesForChat (chat_id nc.1) d2)) as Hnum2.
  { apply Forall_fmap with (f := stored_msg) (P := fun m => is_Some (timestamp m)).
    rewrite Hperm. apply Forall_forall. intros m' Hm'.
    apply list_elem_of_lookup in Hm' as [n Hn].
    destruct (Forall2_lookup_r _ _ _ _ _ Hsame Hn) as (m & Hm & (_ & Hts & _)).
    rewrite Hts. rewrite Forall_forall in Hnum. apply Hnum.
    by eapply list_elem_of_lookup_2. }
  destruct (loadMessages_sorted (chat_id nc.1) d2 Hkeyed2 Hnum2)
    as [Hloaded Hsorted].
  apply Sorted_StronglySorted in Hsorted; [|apply _].
  destruct (Forall2_lookup_l _ _ _ _ _ Hsame Ha) as (a' & Ha' & (Hida & Htsa & _)).
  destruct (Forall2_lookup_l _ _ _ _ _ Hsame Hb) as (b' & Hb' & (Hidb & Htsb & _)).
  assert (∀ m', m' ∈ lm.1 →
            mkStored m' (chat_id nc.1) ∈ loadMessages (chat_id nc.1) d2) as Hin.
  { intros m' Hm'. rewrite Hloaded. apply elem_of_getMessagesForChat.
    exists (id m'). split; [|done]. rewrite Hmsgs. by apply stored_final. }
  destruct (proj1 (list_elem_of_lookup _ _)
              (Hin a' (list_elem_of_lookup_2 _ _ _ Ha'))) as [j Hj].
  destruct (proj1 (list_elem_of_lookup _ _)
              (Hin b' (list_elem_of_lookup_2 _ _ _ Hb'))) as [i Hi].
  exists nc.1, (mkWorld d2 lm.2 (ticks nc.2)), i, j.
  split; [exact Hrun|]. cbn [db]. rewrite !list_lookup_fmap, Hi, Hj.
  cbn [fmap option_fmap option_map stored_msg]. rewrite Hida, Hidb.
  split; [|done].
  assert (id a = Parser.id_of (Some t) 9) as Hia by (rewrite <- Hta; by apply Hids).
  assert (id b = Parser.id_of (Some t) 10) as Hib by (rewrite <- Htb; by apply Hids).
  destruct (Nat.lt_total i j) as [Hlt|[->|Hgt]]; [done| |].
  - exfalso. rewrite Hi in Hj. injection Hj as Heq.
    assert (id a = id b) as Hab by congruence.
    rewrite Hia, Hib in Hab. apply ParserMore.id_of_inj in Hab. lia.
  - exfalso.
    pose proof (StronglySorted_lookup_lt _ _ _ _ _ _ Hsorted Hgt Hj Hi) as Hshown.
    unfold shown_before in Hshown. cbn [stored_msg] in Hshown.
    rewrite Htsa, Htsb, Hta, Htb in Hshown.
    destruct Hshown as [?|[_ Hle]]; [lia|].
    rewrite Hida, Hidb, Hia, Hib in Hle. by apply id_of_9_10 in Hle.
Qed.

End Shown.

End UseMessagesFacts.

(* ===================================================================== *)
(** * Properties of the search and of the highlighting *)
(* ===================================================================== *)

Module SearchFacts.
Import JS Types Search.
Import ParserMore (append_nil_l, append_cons, append_assoc).
Import ValidationMore (length_append, toLowerCase_append).

(** *** Strings *)

Lemma append_nil_r (s : string) : s +:+ "" = s.
Proof. induction s as [|a s IH]; [done|]. rewrite append_cons. by f_equal. Qed.

Lemma length_toLowerCase s : String.length (toLowerCase s) = String.length s.
Proof. unfold toLowerCase. induction s; simpl; by f_equal. Qed.

Lemma take_drop_str n s : take_str n s +:+ drop_str n s = s.
Proof.
  revert s. induction n as [|n IH]; intros [|a s]; simpl; try done.
  rewrite append_cons. by f_equal.
Qed.

Lemma length_take_str n s : String.length (take_str n s) = Nat.min n (String.length s).
Proof. revert s. induction n as [|n IH]; intros [|a s]; simpl; auto. Qed.

Lemma length_drop_str n s : String.length (drop_str n s) = String.length s - n.
Proof. revert s. induction n as [|n IH]; intros [|a s]; simpl; auto. Qed.

Lemma toLowerCase_take n s : toLowerCase (take_str n s) = take_str n (toLowerCase s).
Proof.
  unfold toLowerCase. revert s. induction n as [|n IH]; intros [|a s]; simpl;
    try done. by f_equal.
Qed.

Lemma toLowerCase_drop n s : toLowerCase (drop_str n s) = drop_str n (toLowerCase s).
Proof.
  unfold toLowerCase. revert s. induction n as [|n IH]; intros [|a s]; simpl;
    try done.
Qed.

Lemma drop_str_drop n m s : drop_str n (drop_str m s) = drop_str (m + n) s.
Proof.
  revert s. induction m as [|m IH]; intros s; simpl; [done|].
  destruct s as [|a s]; [by destruct n|]. apply IH.
Qed.


Lemma take_str_append n s t :
  n ≤ String.length s → take_str n (s +:+ t) = take_str n s.
Proof.
  revert s. induction n as [|n IH]; intros s Hn.
  - by destruct s, t.
  - destruct s as [|a s]; [simpl in Hn; lia|].
    rewrite append_cons. simpl. f_equal. apply IH. simpl in Hn. lia.
Qed.

Lemma take_str_take n m s : take_str n (take_str m s) = take_str (Nat.min n m) s.
Proof.
  revert m s. induction n as [|n IH]; intros [|m] [|a s]; simpl; try done.
  by f_equal.
Qed.


(** *** Prefixes and the search for a string *)

Lemma prefix_spec t s : String.prefix t s = true ↔ ∃ r, s = t +:+ r.
Proof.
  revert s. induction t as [|a t IH]; intros s.
  - split; [by exists s|]. by destruct s.
  - destruct s as [|b s]; simpl.
    + split; [done|]. by intros (r & ?).
    + destruct (Ascii.ascii_dec a b) as [->|Hne].
      * rewrite IH. split; intros (r & Hr); exists r.
        -- rewrite append_cons. by f_equal.
        -- rewrite append_cons in Hr. by simplify_eq.
      * split; [done|]. intros (r & Hr). rewrite append_cons in Hr. by simplify_eq.
Qed.

Lemma prefix_length t s : String.prefix t s = true → String.length t ≤ String.length s.
Proof. intros (r & ->)%prefix_spec. rewrite length_append. lia. Qed.

Lemma prefix_take t s : String.prefix t s = true → take_str (String.length t) s = t.
Proof.
  intros (r & ->)%prefix_spec. rewrite take_str_append by done.
  rewrite <- (append_nil_r t) at 2. rewrite take_str_append by done.
  clear. induction t; simpl; by f_equal.
Qed.

(** Where [indexOf_at] finds the string, it is. *)
Lemma indexOf_at_Some t rest pos i :
  indexOf_at t rest pos = Some i →
  pos ≤ i ∧ i - pos ≤ String.length rest
  ∧ startsWith (drop_str (i - pos) rest) t = true.
Proof.
  revert pos. induction rest as [|a rest IH]; intros pos; cbn [indexOf_at].
  - destruct (startsWith "" t) eqn:E; [|done]. intros [= <-].
    rewrite Nat.sub_diag. cbn [drop_str String.length]. by repeat split.
  - destruct (startsWith (String a rest) t) eqn:E.
    + intros [= <-]. rewrite Nat.sub_diag. cbn [drop_str String.length].
      repeat split; [done|lia|done].
    + intros H. apply IH in H as (Hle & Hlen & Hpre).
      replace (i - pos) with (S (i - S pos)) by lia.
      cbn [drop_str String.length]. repeat split; [lia|lia|done].
Qed.


Lemma indexOf_Some s t from i :
  indexOf s t from = Some i →
  Nat.min from (String.length s) ≤ i ∧ i + String.length t ≤ String.length s
  ∧ startsWith (drop_str i s) t = true.
Proof.
  unfold indexOf. intros H.
  apply indexOf_at_Some in H as (Hle & Hlen & Hpre).
  rewrite length_drop_str in Hlen. rewrite drop_str_drop in Hpre.
  replace (Nat.min from (String.length s) + (i - Nat.min from (String.length s)))
    with i in Hpre by lia.
  pose proof (prefix_length _ _ Hpre) as Hfit. rewrite length_drop_str in Hfit.
  split; [done|]. split; [lia|done].
Qed.




(** *** The three searches *)

Lemma truthy_trim q : truthy (trim q) = true → truthy q = true.
Proof. by destruct q. Qed.

Lemma keeps_query q s e (m : Message) :
  truthy q = true →
  keeps (mkFilterOptions s e None None (Some q)) m
  = negb (truthy_num s && num_lt (timestamp m) s)
    && negb (truthy_num e && num_gt (timestamp m) e)
    && includes (toLowerCase (content m)) (toLowerCase q).
Proof.
  intros Hq. unfold keeps.
  cbn [dateStart dateEnd filter_sender messageType searchQuery truthy_opt].
  rewrite Hq. unfold default.
  destruct (truthy_num s && num_lt (timestamp m) s); [done|].
  destruct (truthy_num e && num_gt (timestamp m) e); [done|].
  by destruct (includes _ _).
Qed.

Lemma filter_query_cons q s e (m : Message) msgs :
  truthy q = true →
  filterMessages (m :: msgs) (mkFilterOptions s e None None (Some q))
  = if truthy_num s && num_lt (timestamp m) s then
      filterMessages msgs (mkFilterOptions s e None None (Some q))
    else if truthy_num e && num_gt (timestamp m) e then
      filterMessages msgs (mkFilterOptions s e None None (Some q))
    else if includes (toLowerCase (content m)) (toLowerCase q) then
      m :: filterMessages msgs (mkFilterOptions s e None None (Some q))
    else filterMessages msgs (mkFilterOptions s e None None (Some q)).
Proof.
  intros Hq. unfold filterMessages. rewrite filter_cons.
  case_decide as H; rewrite keeps_query in H by done;
    destruct (truthy_num s && num_lt (timestamp m) s);
    destruct (truthy_num e && num_gt (timestamp m) e);
    destruct (includes _ _); done.
Qed.

Lemma performSearch_from k term msgs s e :
  truthy term = true →
  bar_messageId <$>
    omap (fun '(index, msg) =>
            if truthy_num s && num_lt (timestamp msg) s then None
            else if truthy_num e && num_gt (timestamp msg) e then None
            else if includes (toLowerCase (content msg)) (toLowerCase term)
            then Some (mkBarResult (id msg) index term)
            else None)
         (imap (fun index msg => (k + index, msg)) msgs)
  = id <$> filterMessages msgs (mkFilterOptions s e None None (Some term)).
Proof.
  intros Hq. revert k. induction msgs as [|m msgs IH]; intros k; [done|].
  rewrite filter_query_cons by done. rewrite imap_cons. cbn [omap list_omap].
  rewrite (imap_ext _ (fun index msg => (S k + index, msg)));
    [|intros i x _; cbn [compose]; f_equal; lia].
  specialize (IH (S k)).
  destruct (truthy_num s && num_lt (timestamp m) s); [done|].
  destruct (truthy_num e && num_gt (timestamp m) e); [done|].
  destruct (includes _ _); [|done].
  rewrite !fmap_cons. by f_equal.
Qed.

Lemma searchMessages_ids messages query chat :
  truthy query = true →
  messageId <$> omap (searchOne query chat) messages
  = id <$> filterMessages messages (mkFilterOptions None None None None (Some query)).
Proof.
  intros Hq. induction messages as [|m msgs IH]; [done|].
  rewrite filter_query_cons by done. cbn [omap list_omap truthy_num andb].
  unfold searchOne at 1.
  destruct (includes _ _); [|done].
  rewrite !fmap_cons. by f_equal.
Qed.

(** Each result of the bar points at its message. *)
Lemma performSearch_index k term msgs s e r :
  r ∈ omap (fun '(index, msg) =>
            if truthy_num s && num_lt (timestamp msg) s then None
            else if truthy_num e && num_gt (timestamp msg) e then None
            else if includes (toLowerCase (content msg)) (toLowerCase term)
            then Some (mkBarResult (id msg) index term)
            else None)
         (imap (fun index msg => (k + index, msg)) msgs) →
  ∃ i m, messageIndex r = k + i ∧ msgs !! i = Some m ∧ id m = bar_messageId r
         ∧ includes (toLowerCase (content m)) (toLowerCase term) = true.
Proof.
  intros Hr. apply list_elem_of_omap in Hr as ([i m] & Hin & Hr).
  apply elem_of_lookup_imap in Hin as (j & m' & Heq & Hj). simplify_eq.
  destruct (truthy_num s && num_lt (timestamp m') s); [done|].
  destruct (truthy_num e && num_gt (timestamp m') e); [done|].
  destruct (includes _ _) eqn:E; [|done]. simplify_eq.
  by exists j, m'.
Qed.

(** X27.  The three searches agree.  For a query that is not blank,
    [searchMessages] finds the messages that [filterMessages] keeps
    when only the search query is set, and the search bar finds those
    that [filterMessages] keeps for the same query and the same two
    dates, all in the order of the chat.  Every result of the bar
    carries the position of the message whose id it carries. *)
Theorem searches_agree (messages : list Message) (query chat : string)
    (startTimestamp endTimestamp : option Z) :
  truthy (trim query) = true →
  messageId <$> searchMessages messages query chat
  = id <$> filterMessages messages
             (mkFilterOptions None None None None (Some query))
  ∧ bar_messageId <$> barResults query messages startTimestamp endTimestamp
    = id <$> filterMessages messages
               (mkFilterOptions startTimestamp endTimestamp None None (Some query))
  ∧ ∀ r, r ∈ barResults query messages startTimestamp endTimestamp →
         ∃ m, messages !! messageIndex r = Some m ∧ id m = bar_messageId r.
Proof.
  intros Hq. pose proof (truthy_trim _ Hq) as Hq'.
  unfold searchMessages, barResults, performSearch. rewrite Hq. cbn [negb].
  split_and!.
  - by apply searchMessages_ids.
  - by apply (performSearch_from 0).
  - intros r Hr. apply (performSearch_index 0) in Hr as (i & m & Hi & Hm & Hid & _).
    exists m. by rewrite Hi.
Qed.

(** *** The senders *)

Lemma senders_fold msgs acc :
  NoDup acc →
  let out := foldl (fun senderSet message =>
              match sender message with
              | Some s => if truthy s then Set_add senderSet s else senderSet
              | None => senderSet
              end) acc msgs in
  NoDup out
  ∧ ∀ s, s ∈ out ↔ s ∈ acc ∨ (s ≠ "" ∧ ∃ m, m ∈ msgs ∧ sender m = Some s).
Proof.
  revert acc. induction msgs as [|m msgs IH]; intros acc Hnd; cbn zeta.
  - split; [done|]. intros s. split; [by left|].
    intros [?|(_ & m & Hm & _)]; [done|]. by apply elem_of_nil in Hm.
  - cbn [foldl].
    assert (∀ acc', NoDup acc' →
              (∀ s, s ∈ acc' ↔ s ∈ acc ∨ (s ≠ "" ∧ sender m = Some s)) →
              NoDup (foldl (fun senderSet message =>
                 match sender message with
                 | Some s => if truthy s then Set_add senderSet s else senderSet
                 | None => senderSet
                 end) acc' msgs)
              ∧ ∀ s, s ∈ foldl (fun senderSet message =>
                 match sender message with
                 | Some s => if truthy s then Set_add senderSet s else senderSet
                 | None => senderSet
                 end) acc' msgs
                ↔ s ∈ acc ∨ (s ≠ "" ∧ ∃ m0, m0 ∈ m :: msgs ∧ sender m0 = Some s))
      as Hstep.
    { intros acc' Hnd' Hacc'. destruct (IH acc' Hnd') as [Hn Hiff].
      split; [done|]. intros s. rewrite Hiff, Hacc'. split.
      - intros [[?|(Hne & Hs)]|(Hne & m0 & Hm0 & Hs)]; [by left|right..].
        + split; [done|]. exists m. split; [left|done].
        + split; [done|]. exists m0. split; [by right|done].
      - intros [?|(Hne & m0 & Hm0 & Hs)]; [by left; left|].
        apply elem_of_cons in Hm0 as [->|Hm0].
        + left. right. by split.
        + right. split; [done|]. by exists m0. }
    destruct (sender m) as [x|] eqn:Hx.
    + destruct (truthy x) eqn:Ht.
      * unfold Set_add. case_bool_decide as Hin.
        -- apply Hstep; [done|]. intros s. split; [by left|].
           intros [?|[_ Heq]]; [done|]. by simplify_eq.
        -- apply Hstep.
           ++ apply NoDup_app. split_and!; [done| |apply NoDup_singleton].
              intros y Hy ->%list_elem_of_singleton. done.
           ++ intros s. rewrite elem_of_app, list_elem_of_singleton. split.
              ** intros [?| ->]; [by left|]. right. split; [|done].
                 intros ->. done.
              ** intros [?|[_ Heq]]; [by left|]. right. by simplify_eq.
      * apply Hstep; [done|]. intros s. split; [by left|].
        intros [?|[Hne Heq]]; [done|]. simplify_eq. by destruct s.
    + apply Hstep; [done|]. intros s. split; [by left|].
      by intros [?|(_ & ?)].
Qed.

(** X28.  [getSenders] lists the senders of the messages: every
    sender that is not the empty string, each once, in the order of
    the strings. *)
Theorem getSenders_spec (messages : list Message) :
  Sorted String.le (getSenders messages)
  ∧ NoDup (getSenders messages)
  ∧ ∀ s, s ∈ getSenders messages
         ↔ s ≠ "" ∧ ∃ m, m ∈ messages ∧ sender m = Some s.
Proof.
  destruct (senders_fold messages [] (NoDup_nil_2)) as [Hnd Hiff].
  unfold getSenders. split_and!.
  - apply Sorted_merge_sort. apply _.
  - by rewrite merge_sort_Permutation.
  - intros s. rewrite merge_sort_Permutation, Hiff. split.
    + intros [Hs|?]; [by apply elem_of_nil in Hs|done].
    + by right.
Qed.

(** *** The snippet of a result *)

Lemma take_str_all s : take_str (String.length s) s = s.
Proof. induction s; simpl; by f_equal. Qed.




Lemma toLowerCase_substring a b s :
  toLowerCase (substring a b s) = substring a b (toLowerCase s).
Proof. unfold substring. by rewrite toLowerCase_take, toLowerCase_drop. Qed.





(** *** Highlighting *)

Lemma shown_snoc parts p :
  shown_text (fragment (parts ++ [p]))
  = shown_text (fragment parts) +:+ part_text p.
Proof.
  cbn [shown_text]. induction parts as [|x parts IH]; cbn [foldr app].
  - by rewrite append_nil_r, append_nil_l.
  - rewrite IH. by rewrite append_assoc.
Qed.

Lemma take_then_substring n m s :
  n ≤ m → take_str n s +:+ substring n m s = take_str m s.
Proof.
  unfold substring. revert m s. induction n as [|n IH]; intros m s Hnm.
  - cbn [take_str drop_str]. rewrite append_nil_l, Nat.sub_0_r.
    by destruct s.
  - destruct m as [|m]; [lia|].
    destruct s as [|a s]; [cbn [take_str drop_str Nat.sub]; by destruct (m - n)|].
    cbn [take_str drop_str Nat.sub]. rewrite append_cons. f_equal.
    apply IH. lia.
Qed.

Lemma nonempty_length s : 0 < String.length s → s ≠ "".
Proof. intros H ->. simpl in H. lia. Qed.

Lemma length_nonempty s : s ≠ "" → 0 < String.length s.
Proof. destruct s; [done|]. simpl. lia. Qed.

Lemma highlightLoop_spec fuel text term lastIndex index parts :
  term ≠ "" →
  highlight_inv text term lastIndex parts →
  index = indexOf (toLowerCase text) (toLowerCase term) lastIndex →
  String.length text - lastIndex ≤ fuel →
  ∃ parts' lastIndex' more,
    highlightLoop fuel text (toLowerCase text) (toLowerCase term)
                  (String.length term) lastIndex index parts
    = Some (parts', lastIndex')
    ∧ highlight_inv text term lastIndex' parts'
    ∧ parts' = parts ++ more
    ∧ (index = None → more = [])
    ∧ (is_Some index → ∃ p, p ∈ more ∧ is_marked p = true).
Proof.
  intros Hterm%length_nonempty.
  revert lastIndex index parts.
  induction fuel as [|fuel IH]; intros lastIndex index parts Hinv Hindex Hfuel.
  - destruct index as [i|].
    + exfalso. symmetry in Hindex.
      apply indexOf_Some in Hindex as (Hle & Hfit & _).
      rewrite !length_toLowerCase in *. destruct Hinv as (Hlast & _). lia.
    + exists parts, lastIndex, []. cbn [highlightLoop].
      rewrite app_nil_r. split_and!; try done; by intros [? ?].
  - destruct index as [i|].
    2:{ exists parts, lastIndex, []. cbn [highlightLoop].
        rewrite app_nil_r. split_and!; try done; by intros [? ?]. }
    symmetry in Hindex. pose proof Hindex as Hfound.
    apply indexOf_Some in Hfound as (Hle & Hfit & Hpre).
    rewrite !length_toLowerCase in *.
    destruct Hinv as (Hlast & Hshown & Hmarks & Hfull).
    assert (lastIndex ≤ i) as Hli by lia.
    cbn [highlightLoop]. cbv zeta.
    set (parts0 := if (lastIndex <? i)%nat
                   then parts ++ [plain (substring lastIndex i text)]
                   else parts).
    set (mark := marked i (substring i (i + String.length term) text)).
    assert (highlight_inv text term i parts0) as (_ & Hshown0 & Hmarks0 & Hfull0).
    { unfold parts0. destruct (Nat.ltb_spec lastIndex i) as [Hlt|Hge].
      - split_and!.
        + lia.
        + rewrite shown_snoc, Hshown. cbn [part_text].
          by apply take_then_substring.
        + apply Forall_app. split; [done|]. by apply Forall_singleton.
        + apply Forall_app. split; [done|]. apply Forall_singleton.
          cbn [part_text]. apply nonempty_length. unfold substring.
          rewrite length_take_str, length_drop_str. lia.
      - assert (i = lastIndex) as -> by lia. by split_and!. }
    assert (highlight_inv text term (i + String.length term) (parts0 ++ [mark]))
      as Hinv1.
    { split_and!.
      - lia.
      - rewrite shown_snoc, Hshown0. cbn [part_text mark].
        apply take_then_substring. lia.
      - apply Forall_app. split; [done|]. apply Forall_singleton.
        intros _. cbn [part_text mark]. rewrite toLowerCase_substring.
        unfold substring.
        replace (i + String.length term - i)
          with (String.length (toLowerCase term))
          by (rewrite length_toLowerCase; lia).
        by apply prefix_take.
      - apply Forall_app. split; [done|]. apply Forall_singleton.
        cbn [part_text mark]. apply nonempty_length. unfold substring.
        rewrite length_take_str, length_drop_str. lia. }
    destruct (IH (i + String.length term)
                 (indexOf (toLowerCase text) (toLowerCase term)
                          (i + String.length term))
                 (parts0 ++ [mark]) Hinv1 eq_refl)
      as (parts' & last' & more & Hrun & Hinv' & Hparts' & _); [lia|].
    exists parts', last'.
    exists ((if (lastIndex <? i)%nat
             then [plain (substring lastIndex i text)] else [])
            ++ mark :: more).
    split_and!; [done|done| |done|].
    + rewrite Hparts'. unfold parts0.
      destruct (lastIndex <? i)%nat; by rewrite <- ?app_assoc.
    + intros _. exists mark. split; [|done].
      apply elem_of_app. right. left.
Qed.

Lemma marks_nonempty parts :
  filter (fun p => is_marked p = true) parts ≠ []
  ↔ ∃ p, p ∈ parts ∧ is_marked p = true.
Proof.
  split.
  - intros H. destruct (filter _ parts) as [|p l] eqn:E; [done|].
    assert (p ∈ filter (fun p => is_marked p = true) parts) as Hin
      by (rewrite E; left).
    apply list_elem_of_filter in Hin as [? ?]. by exists p.
  - intros (p & Hp & Hm) E.
    assert (p ∈ filter (fun p => is_marked p = true) parts) as Hin
      by (by apply list_elem_of_filter).
    rewrite E in Hin. by apply elem_of_nil in Hin.
Qed.

(** X30.  [highlightText] always returns, and what it returns shows
    the text, unchanged, in parts none of which is empty.  Every
    marked part is the search term, up to case; and there is a marked
    part exactly when the term is not blank and the text contains it,
    up to case, which is when the search bar finds the message. *)
Theorem highlightText_spec (text : string) (searchTerm : option string) :
  ∃ v, highlightText text searchTerm = Some v
       ∧ shown_text v = text
       ∧ (∀ parts, v = fragment parts → Forall (fun p => part_text p ≠ "") parts)
       ∧ (∀ term p, searchTerm = Some term → p ∈ marks v →
                    toLowerCase (part_text p) = toLowerCase term)
       ∧ (marks v ≠ []
          ↔ ∃ term, searchTerm = Some term ∧ truthy (trim term) = true
                    ∧ includes (toLowerCase text) (toLowerCase term) = true).
Proof.
  unfold highlightText, highlightText_fuel.
  destruct searchTerm as [term|].
  2:{ exists (asText text).
      split_and!; [done|done|done|by intros ? ? _ ?%elem_of_nil|].
      split; [done|]. by intros (? & ? & _). }
  destruct (truthy term) eqn:Ht; cbn [negb orb].
  2:{ exists (asText text).
      split_and!; [done|done|done|by intros ? ? _ ?%elem_of_nil|].
      split; [done|]. intros (? & [= <-] & Hb & _). destruct term; done. }
  destruct (truthy (trim term)) eqn:Hb; cbn [negb].
  2:{ exists (asText text).
      split_and!; [done|done|done|by intros ? ? _ ?%elem_of_nil|].
      split; [done|]. intros (? & [= <-] & Hb' & _). congruence. }
  assert (term ≠ "") as Hne by (by intros ->).
  destruct (highlightLoop_spec (String.length text) text term 0
              (indexOf (toLowerCase text) (toLowerCase term) 0) [])
    as (parts & last & more & Hrun & Hinv & Hparts & Hnone & Hsome);
    [done| |done|lia|].
  { split_and!; [lia|by destruct text|done|done]. }
  rewrite Hrun. cbn [mbind option_bind]. rewrite app_nil_l in Hparts.
  subst more. destruct Hinv as (Hlast & Hshown & Hmarks & Hfull).
  eexists. split; [done|].
  assert (Forall (fun p => is_marked p = true →
                           toLowerCase (part_text p) = toLowerCase term)
            (if (last <? String.length text)%nat
             then parts ++ [plain (drop_str last text)] else parts)) as Hall.
  { destruct (last <? String.length text)%nat; [|done].
    apply Forall_app. split; [done|]. by apply Forall_singleton. }
  split_and!.
  - destruct (Nat.ltb_spec last (String.length text)) as [Hlt|Hge].
    + rewrite shown_snoc, Hshown. apply take_drop_str.
    + rewrite Hshown. assert (last = String.length text) as -> by lia.
      apply take_str_all.
  - intros ? [= <-].
    destruct (Nat.ltb_spec last (String.length text)) as [Hlt|Hge]; [|done].
    apply Forall_app. split; [done|]. apply Forall_singleton.
    cbn [part_text]. apply nonempty_length. rewrite length_drop_str. lia.
  - intros ? p [= <-] Hp. cbn [marks] in Hp.
    apply list_elem_of_filter in Hp as [Hm Hp].
    rewrite Forall_forall in Hall. by apply Hall.
  - cbn [marks]. rewrite marks_nonempty. split.
    + intros (p & Hp & Hm). exists term. split_and!; [done|done|].
      unfold includes. apply bool_decide_eq_true.
      destruct (indexOf (toLowerCase text) (toLowerCase term) 0) eqn:E;
        [by eexists|].
      rewrite (Hnone eq_refl) in Hp.
      destruct (last <? String.length text)%nat.
      * apply list_elem_of_singleton in Hp as ->. done.
      * by apply elem_of_nil in Hp.
    + intros (? & [= <-] & _ & Hinc).
      unfold includes in Hinc. apply bool_decide_eq_true in Hinc.
      destruct (Hsome Hinc) as (p & Hp & Hm). exists p. split; [|done].
      destruct (last <? String.length text)%nat; [|done].
      apply elem_of_app. by left.
Qed.

End SearchFacts.

(** ** Instances *)

Module Instances.
Import JS Types Examples.

(** C3 at chunk sizes 1 and 2, on three records of which the first
    and the last share an id. *)
Lemma saveMessages_chunk_size_witness :
  ∃ db' log1 log2,
    Storage.saveMessages_with 1 3 [msgA; msgB; msgC] "chat-1" emptyDB
      = Some (db', log1)
    ∧ Storage.saveMessages_with 2 3 [msgA; msgB; msgC] "chat-1" emptyDB
      = Some (db', log2)
    ∧ db' = foldl (Storage.put_message "chat-1") emptyDB [msgA; msgB; msgC].
Proof.
  apply (StorageFacts.saveMessages_chunk_size_irrelevant
           1 2 [msgA; msgB; msgC] "chat-1" emptyDB); lia.
Defined.

(** C7 (amended) on a folder that lists b.txt before a.txt. *)
Lemma validateFolder_first_txt_witness :
  "Found 2 .txt files - will use the first one: b.txt"
    ∈ Validation.warnings
        (Validation.validateFolder [Validation.chatB; Validation.chatA])
  ∧ Validation.valid
      (Validation.validateFolder [Validation.chatB; Validation.chatA])
    = Validation.valid
        (Validation.validateTextFile Validation.chatB
                                     Validation.default_options)
  ∧ (Validation.valid
       (Validation.validateFolder [Validation.chatB; Validation.chatA])
     = true →
     (Validation.details
        (Validation.validateFolder [Validation.chatB; Validation.chatA])
        ≫= Validation.txtFile) = Some Validation.chatB).
Proof.
  apply (ValidationFacts.validateFolder_uses_first_txt
           [Validation.chatB; Validation.chatA]
           Validation.chatB [Validation.chatA]).
  - reflexivity.
  - discriminate.
Defined.

(** C8 (amended) on a four-byte file that begins with PK but is no
    archive. *)
Lemma zip_bad_signature_witness :
  Validation.valid (Validation.validateZipFile (mkFile "export.zip" "PKxx"))
  = false
  ∧ Validation.fileType (Validation.validateZipFile (mkFile "export.zip" "PKxx"))
    = Validation.zip
  ∧ ((4 ≤ File_size (mkFile "export.zip" "PKxx"))%N →
     Validation.validateZipFile (mkFile "export.zip" "PKxx")
     = Validation.invalid "File is not a valid ZIP archive" [] Validation.zip)
  ∧ ((File_size (mkFile "export.zip" "PKxx") < 4)%N →
     Validation.validateZipFile (mkFile "export.zip" "PKxx")
     = Validation.invalid
         ("Failed to read ZIP file: " +:+ Validation.RangeError_message)
         [] Validation.zip)
  ∧ ∀ g, name g = "export.zip" → take_str 4 (bytes g) = "PKxx" →
         Validation.validateZipFile g
         = Validation.validateZipFile (mkFile "export.zip" "PKxx").
Proof.
  apply (ValidationFacts.zip_bad_signature_rejected (mkFile "export.zip" "PKxx")).
  - reflexivity.
  - vm_compute. discriminate.
  - vm_compute. discriminate.
Defined.

(** The accounting of the correlator on two files of different
    names: the photo is bound on the day it names. *)
Lemma match_accounting_witness :
  let r := MediaMatcher.matchMediaToMessages [mediaOmitted] [photo; other] in
  let st := MediaMatcher.run [mediaOmitted] [photo; other] in
  MediaMatcher.matchCount r + length (MediaMatcher.unmatchedMedia r)
    = MediaMatcher.totalMedia r
  ∧ MediaMatcher.matchCount r = length (MediaMatcher.claims st)
  ∧ NoDup (MediaMatcher.claims st).*1
  ∧ NoDup (MediaMatcher.claims st).*2
  ∧ ∀ i k, (i, k) ∈ MediaMatcher.claims st →
      ∃ m f, MediaMatcher.matchedMessages r !! i = Some m
             ∧ MediaMatcher.Map_get k (MediaMatcher.mediaLookup st) = Some f
             ∧ MediaMatcher.matched f = true
             ∧ mediaFileName m = Some (name (MediaMatcher.file f)).
Proof.
  apply (MediaMatcherFacts.match_accounting [mediaOmitted] [photo; other]).
  - discriminate.
  - apply (bool_decide_unpack _). vm_compute. reflexivity.
Defined.

(** Deleting [chat-1], one record per batch, from a store that holds
    two messages of it. *)
Lemma deleteChat_removes_chat_witness :
  ∃ db' log,
    Storage.deleteChat_with 1 (length (Storage.messageIdsOf "chat-1" storedDB))
                            "chat-1" storedDB = Some (db', log)
    ∧ Storage.getChat "chat-1" db' = None
    ∧ (∀ c, c ≠ "chat-1" → Storage.getChat c db' = Storage.getChat c storedDB)
    ∧ (∀ k, Storage.getMessage k db'
            = match Storage.getMessage k storedDB with
              | Some v => if decide (Storage.chatId v = "chat-1") then None
                          else Some v
              | None => None
              end)
    ∧ (∀ k, Storage.media db' !! k
            = match Storage.getMessage k storedDB with
              | Some v => if decide (Storage.chatId v = "chat-1") then None
                          else Storage.media storedDB !! k
              | None => Storage.media storedDB !! k
              end)
    ∧ Storage.getMessagesForChat "chat-1" db' = [].
Proof.
  apply (StorageMore.deleteChat_removes_chat 1 "chat-1" storedDB). lia.
Defined.

(** Saving one message as [chat-1] into a store that holds a message
    of [chat-2] under another id, and deleting [chat-1] again. *)
Lemma save_then_delete_witness :
  ∃ db1 log1 db2 log2,
    Storage.saveMessages [msgB] "chat-1" otherDB = Some (db1, log1)
    ∧ Storage.deleteChat "chat-1" db1 = Some (db2, log2)
    ∧ Storage.messages db2 = Storage.messages otherDB
    ∧ Storage.media db2 = Storage.media otherDB
    ∧ Storage.chats db2 = delete "chat-1" (Storage.chats otherDB).
Proof.
  apply (StorageMore.save_then_delete_restores [msgB] "chat-1" otherDB).
  - intros m Hm. apply list_elem_of_singleton in Hm. subst m.
    split; reflexivity.
  - intros k v Hk. unfold Storage.getMessage, otherDB in Hk. simpl in Hk.
    apply lookup_insert_Some in Hk.
    destruct Hk as [[_ <-]|[_ Hk]]; [discriminate|].
    rewrite lookup_empty in Hk. discriminate.
Defined.

(** Three records saved two per transaction: two reports, [2] of [3]
    and [3] of [3]. *)
Lemma saveMessages_reports_witness :
  ∃ db' log,
    Storage.saveMessages_with 2 (length [msgA; msgB; msgC])
                              [msgA; msgB; msgC] "chat-1" emptyDB
      = Some (db', log)
    ∧ log = (fun k => (Nat.min (k * 2) (length [msgA; msgB; msgC]),
                       length [msgA; msgB; msgC]))
              <$> seq 1 (Storage.ceil_div (length [msgA; msgB; msgC]) 2).
Proof.
  apply (StorageMore.saveMessages_reports 2 [msgA; msgB; msgC] "chat-1" emptyDB).
  lia.
Defined.

(** The media of a folder with a chat, a photo, a document and a
    thumbnail cache. *)
Lemma validateFolder_media_files_witness :
  (Validation.details
     (Validation.validateFolder [Validation.chatA; photo; thumbs; other])
   ≫= Validation.mediaFiles)
  = Some (filter (fun f => Validation.is_accepted_media f = true)
                 [Validation.chatA; photo; thumbs; other]).
Proof.
  apply (ValidationMore.validateFolder_media_files
           [Validation.chatA; photo; thumbs; other]).
  vm_compute. reflexivity.
Defined.

(** Two exports that differ after their first 10000 bytes only. *)
Lemma validateTextFile_sample_only_witness :
  Validation.valid
    (Validation.validateTextFile (longChat "A") Validation.default_options)
  = Validation.valid
      (Validation.validateTextFile (longChat "BB") Validation.default_options)
  ∧ Validation.error
      (Validation.validateTextFile (longChat "A") Validation.default_options)
    = Validation.error
        (Validation.validateTextFile (longChat "BB") Validation.default_options)
  ∧ Validation.warnings
      (Validation.validateTextFile (longChat "A") Validation.default_options)
    = Validation.warnings
        (Validation.validateTextFile (longChat "BB") Validation.default_options)
  ∧ Validation.fileType
      (Validation.validateTextFile (longChat "A") Validation.default_options)
    = Validation.fileType
        (Validation.validateTextFile (longChat "BB") Validation.default_options).
Proof.
  apply (ValidationMore.validateTextFile_sample_only
           (longChat "A") (longChat "BB") Validation.default_options).
  - reflexivity.
  - vm_compute. reflexivity.
  - vm_compute. reflexivity.
Defined.

(** The one message of the list is bound to the photo: the name of
    the photo dates it to the day of the message. *)
Lemma match_is_justified_witness :
  ∃ f, f ∈ [photo; other]
       ∧ mediaFileName mediaBound = Some (name f)
       ∧ mediaType mediaBound = Some (MediaMatcher.getMediaType (name f))
       ∧ type mediaOmitted = media
       ∧ ((∃ r, MediaMatcher.findReferencedFilename (content mediaOmitted) = Some r
                ∧ toLowerCase r = toLowerCase (name f))
          ∨ (∃ t, MediaMatcher.extractTimestampFromFilename (name f) = Some t
                  ∧ t ≠ 0%Z
                  ∧ is_Some (timestamp mediaOmitted)
                  ∧ MediaMatcher.dayOf (Some t)
                    = MediaMatcher.dayOf (timestamp mediaOmitted))).
Proof.
  apply (MediaMatcherMore.match_is_justified
           [mediaOmitted] [photo; other] 0 mediaOmitted mediaBound).
  - reflexivity.
  - vm_compute. reflexivity.
  - discriminate.
Defined.

(** A message of February and a photo of March stay apart. *)
Lemma no_same_day_pair_left_witness :
  MediaMatcher.dayOf (Some marchStamp)
  ≠ MediaMatcher.dayOf (timestamp mediaOmitted).
Proof.
  apply (MediaMatcherMore.no_same_day_pair_left
           [mediaOmitted] [photoMarch] 0 mediaOmitted photoMarch marchStamp).
  - vm_compute. reflexivity.
  - reflexivity.
  - reflexivity.
  - vm_compute. left.
  - vm_compute. reflexivity.
  - discriminate.
Defined.

(** One message saved as [chat-1] and then as [chat-2], into the
    empty store. *)
Lemma resave_moves_messages_witness :
  ∃ db1 log1 db2 log2,
    Storage.saveMessages [msgA] "chat-1" emptyDB = Some (db1, log1)
    ∧ Storage.saveMessages [msgA] "chat-2" db1 = Some (db2, log2)
    ∧ Storage.getMessagesForChat "chat-1" db1 ≠ []
    ∧ Storage.getMessagesForChat "chat-1" db2 = []
    ∧ ∀ m, m ∈ [msgA] →
           ∃ v, Storage.getMessage (id m) db2 = Some v
                ∧ Storage.chatId v = "chat-2".
Proof.
  apply (StorageMore.resave_moves_messages [msgA] "chat-1" "chat-2" emptyDB).
  - discriminate.
  - discriminate.
  - intros k v Hk. unfold Storage.getMessage, emptyDB in Hk. simpl in Hk.
    rewrite lookup_empty in Hk. discriminate.
Defined.

(** Two messages saved as [chat-1] into a store that holds a message
    of [chat-2], and read back. *)
Lemma save_then_load_witness :
  ∃ db' log,
    Storage.saveMessages [msgB; msgC] "chat-1" otherDB = Some (db', log)
    ∧ Storage.stored_msg <$> Storage.getMessagesForChat "chat-1" db'
      ≡ₚ [msgB; msgC]
    ∧ Forall (fun v => Storage.chatId v = "chat-1")
             (Storage.getMessagesForChat "chat-1" db')
    ∧ Sorted String.le ((fun v => id (Storage.stored_msg v))
                          <$> Storage.getMessagesForChat "chat-1" db').
Proof.
  apply (StorageMore.save_then_load [msgB; msgC] "chat-1" otherDB).
  - apply (bool_decide_unpack _). vm_compute. reflexivity.
  - intros k v Hk. unfold Storage.getMessage, otherDB in Hk. simpl in Hk.
    apply lookup_insert_Some in Hk.
    destruct Hk as [[_ <-]|[_ Hk]]; [discriminate|].
    rewrite lookup_empty in Hk. discriminate.
Defined.

(** A bound message and the two files, on a page without URLs. *)
Lemma createMediaUrls_spec_witness :
  (∀ m, m ∈ [mediaBound] →
        match MediaUrls.wanted [photo; other] m with
        | Some f =>
            ∃ url, MediaMatcher.Map_get (id m)
                     (MediaUrls.createMediaUrls [mediaBound] [photo; other]
                        emptyBrowser).1 = Some url
                   ∧ MediaUrls.resolve url
                       (MediaUrls.createMediaUrls [mediaBound] [photo; other]
                          emptyBrowser).2 = Some f
        | None =>
            MediaMatcher.Map_get (id m)
              (MediaUrls.createMediaUrls [mediaBound] [photo; other]
                 emptyBrowser).1 = None
        end)
  ∧ (∀ url, url ∈ (MediaUrls.blobs emptyBrowser).*1 →
            MediaUrls.resolve url
              (MediaUrls.createMediaUrls [mediaBound] [photo; other]
                 emptyBrowser).2
            = MediaUrls.resolve url emptyBrowser)
  ∧ MediaUrls.store_ok
      (MediaUrls.createMediaUrls [mediaBound] [photo; other] emptyBrowser).2.
Proof.
  apply (MediaUrlsFacts.createMediaUrls_spec [mediaBound] [photo; other]
           emptyBrowser).
  - intros url Hurl. simpl in Hurl. inversion Hurl.
  - apply (bool_decide_unpack _). vm_compute. reflexivity.
Defined.

(** The URL made for the bound message, revoked again. *)
Lemma revoke_undoes_create_witness :
  (MediaUrls.revokeMediaUrls
     (MediaUrls.createMediaUrls [mediaBound] [photo; other] emptyBrowser).1
     (MediaUrls.createMediaUrls [mediaBound] [photo; other] emptyBrowser).2).1
  = []
  ∧ MediaUrls.blobs
      (MediaUrls.revokeMediaUrls
         (MediaUrls.createMediaUrls [mediaBound] [photo; other] emptyBrowser).1
         (MediaUrls.createMediaUrls [mediaBound] [photo; other] emptyBrowser).2).2
    = MediaUrls.blobs emptyBrowser.
Proof.
  apply (MediaUrlsFacts.revoke_undoes_create [mediaBound] [photo; other]
           emptyBrowser).
  - intros url Hurl. simpl in Hurl. inversion Hurl.
  - apply (bool_decide_unpack _). vm_compute. reflexivity.
Defined.

(** The import of an export with one media message and its photo. *)
Lemma import_keeps_the_media_witness :
  ∃ chat w' r,
    UseImport.importChatWithMedia sampleClock sampleType sampleReader roomy
                                  chatMedia [photo] freshWorld
    = (Some chat, w')
    ∧ fst <$> Parser.parseWhatsAppChat chatMedia = Some r
    ∧ ∀ m, m ∈ Parser.messages r →
        ∃ v, Storage.getMessage (id m) (UseImport.db w') = Some v
             ∧ (mediaFileName (Storage.stored_msg v) ≠ mediaFileName m →
                is_Some (MediaUrls.wanted [photo] (Storage.stored_msg v)))
             ∧ ∀ f, MediaUrls.wanted [photo] (Storage.stored_msg v) = Some f →
                 Storage.media (UseImport.db w') !! id m
                 = Some (Storage.mkMediaRecord (id m) (bytes f) (name f)
                                               (sampleType f))
                 ∧ ∃ url, mediaUrl (Storage.stored_msg v) = Some url
                          ∧ MediaUrls.resolve url (UseImport.browser w') = Some f.
Proof.
  apply (UseImportFacts.import_keeps_the_media sampleClock sampleType
           sampleReader roomy chatMedia [photo] freshWorld).
  - split; [reflexivity|]. intros q d. reflexivity.
  - apply Forall_cons. split; [reflexivity|]. apply Forall_nil_2.
  - intros url Hurl. simpl in Hurl. inversion Hurl.
Defined.

(** The same import: the chat and its message are stored. *)
Lemma import_saves_the_chat_witness :
  ∃ chat w' r,
    UseImport.importChatWithMedia sampleClock sampleType sampleReader roomy
                                  chatMedia [photo] freshWorld
    = (Some chat, w')
    ∧ fst <$> Parser.parseWhatsAppChat chatMedia = Some r
    ∧ Storage.chat_name chat = Parser.chatName r
    ∧ Storage.isGroup chat = Parser.isGroup r
    ∧ Storage.messageCount chat = length (Parser.messages r)
    ∧ Storage.getChat (Storage.chat_id chat) (UseImport.db w') = Some chat
    ∧ (∀ c, c ≠ Storage.chat_id chat →
            Storage.getChat c (UseImport.db w')
            = Storage.getChat c (UseImport.db freshWorld))
    ∧ (∀ m, m ∈ Parser.messages r →
         ∃ v, Storage.getMessage (id m) (UseImport.db w') = Some v
              ∧ Storage.chatId v = Storage.chat_id chat
              ∧ UseImport.same_message m (Storage.stored_msg v))
    ∧ ((∀ k v, Storage.getMessage k (UseImport.db freshWorld) = Some v →
               Storage.chatId v ≠ Storage.chat_id chat) →
       length (Storage.getMessagesForChat (Storage.chat_id chat) (UseImport.db w'))
       = Storage.messageCount chat).
Proof.
  apply (UseImportFacts.import_saves_the_chat sampleClock sampleType
           sampleReader roomy chatMedia [photo] freshWorld).
  - split; [reflexivity|]. intros q d. reflexivity.
  - apply Forall_cons. split; [reflexivity|]. apply Forall_nil_2.
Defined.

(** The same import: the dates of the chat. *)
Lemma import_dates_witness :
  ∃ chat w' r,
    UseImport.importChatWithMedia sampleClock sampleType sampleReader roomy
                                  chatMedia [photo] freshWorld
    = (Some chat, w')
    ∧ fst <$> Parser.parseWhatsAppChat chatMedia = Some r
    ∧ match Parser.messages r with
      | first :: _ =>
          UseImport.is_latest (Storage.lastMessageTimestamp chat)
                              (Parser.messages r)
          ∧ (timestamp first = None → Storage.lastMessageTimestamp chat = None)
          ∧ Storage.chat_id chat
            = "chat-" +:+ pretty (sampleClock (UseImport.ticks freshWorld))
          ∧ Storage.lastOpened chat
            = sampleClock (1 + UseImport.ticks freshWorld)
          ∧ Storage.created chat = sampleClock (2 + UseImport.ticks freshWorld)
          ∧ UseImport.ticks w' = 3 + UseImport.ticks freshWorld
      | [] =>
          Storage.lastMessageTimestamp chat
          = Some (sampleClock (UseImport.ticks freshWorld))
          ∧ Storage.chat_id chat
            = "chat-" +:+ pretty (sampleClock (1 + UseImport.ticks freshWorld))
          ∧ Storage.lastOpened chat
            = sampleClock (2 + UseImport.ticks freshWorld)
          ∧ Storage.created chat = sampleClock (3 + UseImport.ticks freshWorld)
          ∧ UseImport.ticks w' = 4 + UseImport.ticks freshWorld
      end.
Proof.
  apply (UseImportFacts.import_dates sampleClock sampleType sampleReader roomy
           chatMedia [photo] freshWorld).
  - split; [reflexivity|]. intros q d. reflexivity.
  - apply Forall_cons. split; [reflexivity|]. apply Forall_nil_2.
Defined.

(** Where the import stops.  With a file that the correlator binds and
    types by the function its table inherits, the put of the message
    throws: the import returns [null], and the chat record it has
    saved stays in the store, without its message.  The same holds
    when the reader fails, and then nothing is stored. *)
Example import_stops :
  (∃ w', UseImport.importChatWithMedia sampleClock sampleType sampleReader roomy
                                       chatMedia [oddPhoto] freshWorld
         = (None, w')
         ∧ size (Storage.chats (UseImport.db w')) = 1
         ∧ Storage.messages (UseImport.db w') = ∅
         ∧ length (MediaUrls.blobs (UseImport.browser w')) = 1)
  ∧ UseImport.importChatWithMedia
      sampleClock sampleType (fun _ => Parser.mkReader [] true) roomy
      chatMedia [photo] freshWorld
    = (None, freshWorld).
Proof.
  split; [|reflexivity].
  eexists. split; [vm_compute; reflexivity|]. by vm_compute.
Qed.

(** The two messages of [chat-1] in [storedDB], loaded. *)
Lemma loadMessages_order_witness :
  UseMessages.loadMessages "chat-1" storedDB
    ≡ₚ Storage.getMessagesForChat "chat-1" storedDB
  ∧ Sorted UseMessages.shown_before (UseMessages.loadMessages "chat-1" storedDB).
Proof.
  apply (UseMessagesFacts.loadMessages_order "chat-1" storedDB).
  - intros k v Hk. unfold storedDB in Hk. simpl in Hk.
    apply lookup_insert_Some in Hk. destruct Hk as [[<- <-]|[_ Hk]]; [reflexivity|].
    apply lookup_insert_Some in Hk. destruct Hk as [[<- <-]|[_ Hk]]; [reflexivity|].
    rewrite lookup_empty in Hk. discriminate.
  - apply (bool_decide_unpack _). vm_compute. reflexivity.
Defined.

(** The import of eleven messages of one minute into the empty
    store. *)
Lemma tenth_shown_after_eleventh_witness :
  ∃ chat w' i j,
    UseImport.importChatWithMedia sampleClock sampleType sampleReader roomy
                                  elevenChat [] freshWorld
    = (Some chat, w')
    ∧ i < j
    ∧ ((fun v => id (Storage.stored_msg v))
         <$> UseMessages.loadMessages (Storage.chat_id chat) (UseImport.db w'))
        !! i = Some (id eleventh)
    ∧ ((fun v => id (Storage.stored_msg v))
         <$> UseMessages.loadMessages (Storage.chat_id chat) (UseImport.db w'))
        !! j = Some (id tenth).
Proof.
  apply (UseMessagesFacts.tenth_shown_after_eleventh sampleClock sampleType
           sampleReader roomy
           elevenChat [] freshWorld elevenParse tenth eleventh 1706778000000%Z).
  - split; [reflexivity|]. intros q d. reflexivity.
  - apply Forall_nil_2.
  - vm_compute. reflexivity.
  - apply (bool_decide_unpack _). vm_compute. reflexivity.
  - reflexivity.
  - reflexivity.
  - reflexivity.
  - reflexivity.
  - intros k v Hk. simpl in Hk. rewrite lookup_empty in Hk. discriminate.
  - intros k v Hk. unfold Storage.getMessage in Hk. simpl in Hk.
    rewrite lookup_empty in Hk. discriminate.
Defined.

(** A search for [hello] in three messages, from the second minute
    on in the bar. *)
Lemma searches_agree_witness :
  Search.messageId <$> Search.searchMessages greetings "hello" "chat-1"
  = id <$> Search.filterMessages greetings
             (Search.mkFilterOptions None None None None (Some "hello"))
  ∧ Search.bar_messageId
      <$> Search.barResults "hello" greetings (Some 1706778060000%Z) None
    = id <$> Search.filterMessages greetings
               (Search.mkFilterOptions (Some 1706778060000%Z) None None None
                                       (Some "hello"))
  ∧ ∀ r, r ∈ Search.barResults "hello" greetings (Some 1706778060000%Z) None →
         ∃ m, greetings !! Search.messageIndex r = Some m
              ∧ id m = Search.bar_messageId r.
Proof.
  apply (SearchFacts.searches_agree greetings "hello" "chat-1"
           (Some 1706778060000%Z) None).
  reflexivity.
Defined.


(** A file name with an inherited extension, typed by the two
    tables. *)
Lemma getMediaType_agrees_witness :
  MediaMatcher.getMediaType_value "photo.constructor"
  = inr MediaMatcher.Object_constructor
  ∧ Parser.getMediaTypeFromFilename "photo.constructor" = Some document.
Proof.
  apply (MediaMatcherMore.getMediaType_agrees "photo.constructor").
  reflexivity.
Defined.

End Instances.
